(** * Retrieval-and-session core of the RAG news chatbot

  A shallow embedding of the backend services
  ([services/redis.js], [services/embedding.js], [services/vectorStore.js],
  [services/session.js], [services/gemini.js], [services/rag.js]), of the
  ingestion script and of two of their callers (the chat route and the
  socket), and the properties that were checked against them: those the
  specification states, then further ones read off the code.

  Conventions.
  - JavaScript numbers that are used as numbers (embedding components,
    similarity scores) are IEEE 754 binary64 values: Rocq's primitive
    [float], with the operations of [PrimFloat].  Numbers that are used as
    integers (instants in milliseconds, TTLs in seconds, indices, counters)
    are [Z].
  - [async] functions are run to completion one after the other; an
    exception is an explicit [Throw] outcome that keeps the mutations made
    before it.
  - A text is its sequence of UTF-16 code units; a string has one character
    per code unit, so that the strings are the texts whose code units are
    below 256.
  - Collaborators that live outside the repository (the Jina and Gemini
    services, [uuid], [JSON], the file system, the clock, and the order in
    which the engine's [sort] leaves an array where the language leaves it
    open) are the fields of the class [Env] and of the record [World]. *)

From Stdlib Require Import ZArith Floats Ascii String List Sorting.Sorted Lia.
From stdpp Require Import gmap strings list pretty.

Set Warnings "-inexact-float".
Open Scope Z_scope.

(** ** JavaScript preliminaries *)

Module Js.

(** Exceptions the modelled code can raise. *)
Inductive error : Type :=
| TypeError (msg : string)
| SyntaxError (msg : string)
| Error (msg : string)
| ApiError (status : option Z).

(** An outcome carries the state reached, also when an exception escapes. *)
Inductive outcome (S A : Type) : Type :=
| Ok (a : A) (s : S)
| Throw (e : error) (s : S).
Arguments Ok {S A} a s.
Arguments Throw {S A} e s.

Definition M (S A : Type) : Type := S -> outcome S A.

Definition ret {S A} (a : A) : M S A := fun s => Ok a s.

Definition bind {S A B} (c : M S A) (k : A -> M S B) : M S B :=
  fun s => match c s with
           | Ok a s' => k a s'
           | Throw e s' => Throw e s'
           end.

Definition throw {S A} (e : error) : M S A := fun s => Throw e s.

(** [try { c } catch (e) { h e }] *)
Definition try_catch {S A} (c : M S A) (h : error -> M S A) : M S A :=
  fun s => match c s with
           | Ok a s' => Ok a s'
           | Throw e s' => h e s'
           end.

Definition gets {S A} (f : S -> A) : M S A := fun s => Ok (f s) s.
Definition modify {S} (f : S -> S) : M S unit := fun s => Ok tt (f s).

(** Run a computation on a component of the state. *)
Definition zoom {S T A} (proj : S -> T) (upd : T -> S -> S) (c : M T A) : M S A :=
  fun s => match c (proj s) with
           | Ok a t => Ok a (upd t s)
           | Throw e t => Throw e (upd t s)
           end.

Definition map_state {S T A} (f : S -> T) (o : outcome S A) : outcome T A :=
  match o with Ok a s => Ok a (f s) | Throw e s => Throw e (f s) end.

Definition state_of {S A} (o : outcome S A) : S :=
  match o with Ok _ s => s | Throw _ s => s end.

Definition value_of {S A} (o : outcome S A) : option A :=
  match o with Ok a _ => Some a | Throw _ _ => None end.

(** [Array.prototype.slice(start, end)] for integer arguments: a negative
    index counts from the end, both are clamped to the array. *)
Definition rel_index (len i : Z) : Z :=
  if i <? 0 then Z.max (len + i) 0 else Z.min i len.

Definition slice {A} (l : list A) (start stop : Z) : list A :=
  let len := Z.of_nat (length l) in
  let from := rel_index len start in
  let to := rel_index len stop in
  firstn (Z.to_nat (to - from)) (skipn (Z.to_nat from) l).

(** [slice(start)]: up to the end of the array. *)
Definition slice_from {A} (l : list A) (start : Z) : list A :=
  slice l start (Z.of_nat (length l)).

(** [String.prototype.substring(0, n)]. *)
Definition substring0 (n : nat) (s : string) : string := String.substring 0 n s.

(** The stable sort by insertion: [x], which stood before every element of
    [sorted], is passed only by the elements that go strictly before it. *)
Fixpoint place {A} (before : A -> A -> bool) (x : A) (sorted : list A) : list A :=
  match sorted with
  | [] => [x]
  | y :: rest => if before y x then y :: place before x rest else x :: y :: rest
  end.

Definition stable_sort {A} (before : A -> A -> bool) (l : list A) : list A :=
  fold_right (place before) [] l.

End Js.

Import Js.

Declare Scope js_scope.
Delimit Scope js_scope with js.
Notation "x <- c ;; k" := (bind c (fun x => k))
(at level 100, c at next level, right associativity) : js_scope.
Notation "c ;;; k" := (bind c (fun _ => k))
(at level 100, right associativity) : js_scope.
Open Scope js_scope.

(** ** services/redis.js: the in-memory fallback store *)

Module InMemoryStore.

(** What a key holds: a string ([setex]) or an array of strings
    ([rpush], [lpush]). *)
Inductive value : Type :=
| VStr (s : string)
| VList (l : list string).

(** [this.store] and [this.ttls]; an expiry is an absolute instant in
    milliseconds. *)
Record t : Type := Build {
  store : gmap string value;
  ttls : gmap string Z;
}.

Definition empty : t := {| store := ∅; ttls := ∅ |}.

(** JavaScript truthiness of a stored value: the empty string is falsy,
    every array is truthy. *)
Definition truthy (v : value) : bool :=
  match v with
  | VStr s => negb (String.eqb s "")
  | VList _ => true
  end.

(** [store.get(key) || []]: a falsy value reads as a fresh array, a truthy
    string stays what it is. *)
Definition list_or_new (st : t) (key : string) : value :=
  match store st !! key with
  | Some v => if truthy v then v else VList []
  | None => VList []
  end.

(** [_checkExpiry(key)]: [expiry && Date.now() > expiry]. *)
Definition expired (st : t) (key : string) (now : Z) : bool :=
  match ttls st !! key with
  | Some expiry => negb (expiry =? 0) && (expiry <? now)
  | None => false
  end.

Definition _checkExpiry (key : string) (now : Z) (st : t) : t :=
  if expired st key now
  then {| store := delete key (store st); ttls := delete key (ttls st) |}
  else st.

(** [get(key)]: [value || null]. *)
Definition get (key : string) (now : Z) : M t (option value) :=
  fun st =>
    let st := _checkExpiry key now st in
    Ok (match store st !! key with
        | Some v => if truthy v then Some v else None
        | None => None
        end) st.

(** [set(key, value, ...args)]; [ex] is the argument that follows ['EX']
    when there is one (an integer number of seconds; 0 is falsy). *)
Definition set (key : string) (v : value) (ex : option Z) (now : Z) : M t string :=
  fun st =>
    let st := {| store := <[key := v]> (store st); ttls := ttls st |} in
    Ok "OK"%string
       match ex with
       | Some seconds =>
           if seconds =? 0 then st
           else {| store := store st; ttls := <[key := now + seconds * 1000]> (ttls st) |}
       | None => st
       end.

Definition setex (key : string) (seconds : Z) (v : value) (now : Z) : M t string :=
  fun st => Ok "OK"%string
              {| store := <[key := v]> (store st);
                 ttls := <[key := now + seconds * 1000]> (ttls st) |}.

Definition del (key : string) : M t Z :=
  fun st => Ok 1 {| store := delete key (store st); ttls := delete key (ttls st) |}.

(** [list.unshift(...values)] / [list.push(...values)] on what the key
    holds; a non-empty string has no such method. *)
Definition lpush (key : string) (values : list string) : M t Z :=
  fun st =>
    match list_or_new st key with
    | VList l =>
        let l' := values ++ l in
        Ok (Z.of_nat (length l'))
           {| store := <[key := VList l']> (store st); ttls := ttls st |}
    | VStr _ => Throw (TypeError "list.unshift is not a function") st
    end.

Definition rpush (key : string) (values : list string) : M t Z :=
  fun st =>
    match list_or_new st key with
    | VList l =>
        let l' := l ++ values in
        Ok (Z.of_nat (length l'))
           {| store := <[key := VList l']> (store st); ttls := ttls st |}
    | VStr _ => Throw (TypeError "list.push is not a function") st
    end.

(** [stop === -1 ? list.length : stop + 1] *)
Definition range_end (len stop : Z) : Z :=
  if stop =? -1 then len else stop + 1.

Definition slice_value (v : value) (start stop : Z) : value :=
  match v with
  | VList l => VList (slice l start (range_end (Z.of_nat (length l)) stop))
  | VStr s =>
      let cs := list_ascii_of_string s in
      VStr (string_of_list_ascii
              (slice cs start (range_end (Z.of_nat (length cs)) stop)))
  end.

Definition lrange (key : string) (start stop : Z) (now : Z) : M t value :=
  fun st =>
    let st := _checkExpiry key now st in
    Ok (slice_value (list_or_new st key) start stop) st.

Definition ltrim (key : string) (start stop : Z) : M t string :=
  fun st =>
    Ok "OK"%string
       {| store := <[key := slice_value (list_or_new st key) start stop]> (store st);
          ttls := ttls st |}.

(** [expire(key, seconds)] looks at [store.has(key)] only. *)
Definition expire (key : string) (seconds : Z) (now : Z) : M t Z :=
  fun st =>
    match store st !! key with
    | Some _ => Ok 1 {| store := store st;
                        ttls := <[key := now + seconds * 1000]> (ttls st) |}
    | None => Ok 0 st
    end.

Definition exists_ (key : string) (now : Z) : M t Z :=
  fun st =>
    let st := _checkExpiry key now st in
    Ok (match store st !! key with Some _ => 1 | None => 0 end) st.

Definition quit : M t string := fun _ => Ok "OK"%string empty.

End InMemoryStore.

Module KV := InMemoryStore.

(** ** Plain data and the world outside the repository *)

(** A JSON scalar, and a flat JavaScript object as a finite map from property
    names to scalars (session records, messages and chunk metadata are such
    objects).  A missing property reads as [undefined], here [None]. *)
Inductive jsprim : Type :=
| JNull
| JBool (b : bool)
| JNum (n : Z)
| JStr (s : string).

Abbreviation jsobject := (gmap string jsprim).

(** An embedding: an array of numbers. *)
Abbreviation embedding := (list float).

(** One entry of the [contents] array sent to the generation model: a role
    and the text of its single part. *)
Record content : Type := Content {
  role : string;
  text : option jsprim;
}.

(** What [model.generateContent] does: resolve to a response whose [text()]
    is the answer, or reject with an error that may carry an HTTP status. *)
Inductive generation : Type :=
| Generated (answer : string)
| GenerationFailed (status : option Z).

(** What [model.generateContentStream] does: the texts of the chunks the
    stream yields, in order, and how the iteration ends: [None] when the
    stream is exhausted, [Some status] when the request or the iteration
    throws an error with that [status] property ([None]: no such property). *)
Record generation_stream : Type := Stream {
  chunks : list string;
  failure : option (option Z);
}.

(** The collaborators and settings the services are run with.  A call to an
    external service is identified by a serial number, so that two calls
    with the same arguments may be answered differently. *)
Class Env : Type := {
  (** [JSON.stringify] and [JSON.parse] on flat objects; [None]: the text
      does not parse (a [SyntaxError]). *)
  JSON_stringify : jsobject -> string;
  JSON_parse : string -> option jsobject;
  (** [uuid.v4()], by serial number. *)
  uuidv4 : nat -> string;
  (** [new Date(ms).toISOString()]. *)
  toISOString : Z -> string;
  (** [Number.prototype.toFixed(4)]. *)
  toFixed4 : float -> string;
  (** [Array.prototype.sort] where ECMAScript leaves the order to the
      engine, which it does when the comparator is not consistent: the rank
      the engine gives to the entry that stands at position [i] of an array
      whose entries have these scores.  The entries come out by rank, those
      of one rank in the order in which they stood. *)
  engineRank : list float -> nat -> nat;
  (** [config.sessionTTL] and [config.jinaApiKey], read from the process
      environment. *)
  sessionTTL : Z;
  jinaApiKey : option string;
  (** The Jina embeddings endpoint: [None] when the request fails, else the
      [embedding] property of each returned item. *)
  jinaPost : nat -> list (option string) -> option (list (option embedding));
  (** The vector [_localEmbed] derives from one text by token hashing. *)
  localEmbedding : string -> embedding;
  (** The Gemini model. *)
  generateContent : nat -> list content -> generation;
  generateContentStream : nat -> list content -> generation_stream;
}.

(** The state of the vector store object, and the object that [save] hands
    to [JSON.stringify]; the text written to [index.json] is the rendering
    of that object, and the snapshot stands for it. *)
Record VectorStoreState : Type := Vectors {
  documents : list (option string);
  embeddings : list (option embedding);
  metadata : list jsobject;
  isLoaded : bool;
}.

Record Snapshot : Type := Snap {
  snap_documents : option (list (option string));
  snap_embeddings : option (list (option embedding));
  snap_metadata : option (list jsobject);
  snap_timestamp : string;
}.

(** Everything the services read and write. *)
Record World : Type := Build_World {
  redis : InMemoryStore.t;          (* the store behind redisClient.getClient() *)
  vectors : VectorStoreState;       (* the vectorStore singleton *)
  disk : option Snapshot;           (* index.json; None: missing or corrupt *)
  diskWritable : bool;              (* whether fs.writeFile succeeds *)
  isInitialized : bool;             (* ragService.isInitialized *)
  now : Z;                          (* Date.now() *)
  serial : nat;                     (* external calls made so far *)
  generationCalls : list (list content);  (* requests sent to the model *)
  delivered : list string;          (* what the collecting sink received *)
}.

Definition with_redis (r : InMemoryStore.t) (w : World) : World :=
  Build_World r (vectors w) (disk w) (diskWritable w) (isInitialized w)
              (now w) (serial w) (generationCalls w) (delivered w).

Definition with_vectors (v : VectorStoreState) (w : World) : World :=
  Build_World (redis w) v (disk w) (diskWritable w) (isInitialized w)
              (now w) (serial w) (generationCalls w) (delivered w).

Definition with_disk (d : option Snapshot) (w : World) : World :=
  Build_World (redis w) (vectors w) d (diskWritable w) (isInitialized w)
              (now w) (serial w) (generationCalls w) (delivered w).

Definition with_isInitialized (b : bool) (w : World) : World :=
  Build_World (redis w) (vectors w) (disk w) (diskWritable w) b
              (now w) (serial w) (generationCalls w) (delivered w).

Definition with_serial (n : nat) (w : World) : World :=
  Build_World (redis w) (vectors w) (disk w) (diskWritable w) (isInitialized w)
              (now w) n (generationCalls w) (delivered w).

Definition with_generationCalls (l : list (list content)) (w : World) : World :=
  Build_World (redis w) (vectors w) (disk w) (diskWritable w) (isInitialized w)
              (now w) (serial w) l (delivered w).

Definition with_delivered (l : list string) (w : World) : World :=
  Build_World (redis w) (vectors w) (disk w) (diskWritable w) (isInitialized w)
              (now w) (serial w) (generationCalls w) l.

Definition with_now (t : Z) (w : World) : World :=
  Build_World (redis w) (vectors w) (disk w) (diskWritable w) (isInitialized w)
              t (serial w) (generationCalls w) (delivered w).

(** The same world [dt] milliseconds later. *)
Definition later (dt : Z) (w : World) : World := with_now (now w + dt) w.

(** The next serial number of an external call. *)
Definition next_serial : M World nat :=
  fun w => Ok (serial w) (with_serial (S (serial w)) w).

(** A store operation, at the current instant. *)
Definition on_redis {A} (c : Z -> M InMemoryStore.t A) : M World A :=
  fun w => zoom redis with_redis (c (now w)) w.

(** The sink that collects what it is given. *)
Definition collect (delta : string) : M World unit :=
  modify (fun w => with_delivered (delivered w ++ [delta]) w).

(** ** services/embedding.js *)

Module EmbeddingService.

(** One turn of the loop of [cosineSimilarity]; an index past the end of
    [vecB] reads [undefined], which arithmetic turns into NaN. *)
Definition cosine_step (vecA vecB : embedding) (acc : float * float * float) (i : nat)
  : float * float * float :=
  let '(dotProduct, normA, normB) := acc in
  let a := nth i vecA nan in
  let b := nth i vecB nan in
  ((dotProduct + a * b)%float, (normA + a * a)%float, (normB + b * b)%float).

Definition cosine_loop (vecA vecB : embedding) : float * float * float :=
  fold_left (cosine_step vecA vecB) (seq 0 (length vecA)) (0%float, 0%float, 0%float).

Definition cosineSimilarity (vecA vecB : embedding) : float :=
  let '(dotProduct, normA, normB) := cosine_loop vecA vecB in
  let denominator := (PrimFloat.sqrt normA * PrimFloat.sqrt normB)%float in
  if (denominator =? 0)%float then 0%float else (dotProduct / denominator)%float.

(** The quantities the specification names, each summed from the first
    component on in double arithmetic: the dot product, the sum of squares
    and the Euclidean norm. *)
Definition dot (a b : embedding) : float :=
  fold_left (fun acc xy => (acc + fst xy * snd xy)%float) (combine a b) 0%float.

Definition sum_squares (a : embedding) : float :=
  fold_left (fun acc x => (acc + x * x)%float) a 0%float.

Definition norm (a : embedding) : float := PrimFloat.sqrt (sum_squares a).

(** The specification's sentence about one pair of vectors: the quotient
    when both norms are non-zero, exactly 0 when one of them is zero. *)
Definition cosine_as_specified (a b : embedding) : Prop :=
  ((norm a =? 0)%float = false -> (norm b =? 0)%float = false ->
   cosineSimilarity a b = (dot a b / (norm a * norm b))%float)
  /\ ((norm a =? 0)%float = true \/ (norm b =? 0)%float = true ->
      cosineSimilarity a b = 0%float).

(** The same call on values that may be [undefined]: [vecA.length] needs an
    array, and [vecB[i]] is only read when the loop runs. *)
Definition cosineSimilarity_js {St} (vecA vecB : option embedding) : M St float :=
  match vecA with
  | None => throw (TypeError "Cannot read properties of undefined (reading 'length')")
  | Some a =>
      match vecB with
      | Some b => ret (cosineSimilarity a b)
      | None =>
          match a with
          | [] => ret (cosineSimilarity [] [])
          | _ :: _ => throw (TypeError "Cannot read properties of undefined (reading '0')")
          end
      end
  end.

(** [_localEmbed(texts)]: [text.toLowerCase()] needs a string. *)
Fixpoint _localEmbed `{Env} {St} (texts : list (option string)) : M St (list (option embedding)) :=
  match texts with
  | [] => ret []
  | Some t :: rest =>
      vs <- _localEmbed rest ;;
      ret (Some (localEmbedding t) :: vs)
  | None :: _ => throw (TypeError "Cannot read properties of undefined (reading 'toLowerCase')")
  end.

Definition _jinaEmbed `{Env} (texts : list (option string)) : M World (list (option embedding)) :=
  n <- next_serial ;;
  match jinaPost n texts with
  | Some vs => ret vs
  | None => throw (ApiError None)
  end.

(** [this.jinaApiKey && this.jinaApiKey !== 'your_jina_api_key_here'] *)
Definition has_api_key `{Env} : bool :=
  match jinaApiKey with
  | Some k => negb (String.eqb k "") && negb (String.eqb k "your_jina_api_key_here")
  | None => false
  end.

Definition generateEmbeddings `{Env} (textArray : list (option string))
  : M World (list (option embedding)) :=
  try_catch
    (if has_api_key then _jinaEmbed textArray else _localEmbed textArray)
    (fun _ => _localEmbed textArray).

End EmbeddingService.

(** ** services/vectorStore.js *)

Module VectorStore.

(** A chunk handed to [addDocuments]; [text] and [metadata] may be missing. *)
Record doc : Type := Doc {
  doc_text : option string;
  doc_metadata : option jsobject;
}.

(** An entry of [similarities], and a search result. *)
Record similarity : Type := Similarity {
  index : nat;
  score : float;
}.

Record hit : Type := Hit {
  hit_text : option string;
  hit_score : float;
  hit_metadata : option jsobject;
}.

Definition empty : VectorStoreState :=
  {| documents := []; embeddings := []; metadata := []; isLoaded := false |}.

Definition on_vectors (f : VectorStoreState -> VectorStoreState) : M World unit :=
  modify (fun w => with_vectors (f (vectors w)) w).

(** [save()]: the whole index is written at once; a failure is logged and
    thrown again. *)
Definition save `{Env} : M World unit :=
  fun w =>
    if diskWritable w then
      let v := vectors w in
      Ok tt (with_disk (Some {| snap_documents := Some (documents v);
                                snap_embeddings := Some (embeddings v);
                                snap_metadata := Some (metadata v);
                                snap_timestamp := toISOString (now w) |}) w)
    else Throw (Error "EACCES") w.

(** What [JSON.parse] reads back of a number that [JSON.stringify] wrote.
    A finite number is written in full and read back as it was, except that
    -0 is written as [0]; NaN and the infinities are written as [null].  A
    stored component is only ever read by the arithmetic of
    [cosineSimilarity], in which [null] counts as 0, and written again, as
    [null]: a component that is read back as [null] is represented by the
    number it counts as, 0. *)
Definition reread_number (x : float) : float :=
  if is_finite x && negb (x =? 0)%float then x else 0%float.

(** [JSON.parse] of the text written for a snapshot.  Texts, flat metadata
    objects and the timestamp are read back as they were.  An array entry
    that is [undefined] is written, and read back, as [null]; like
    [undefined] it is neither a text nor an array, and [None] stands for
    both (a template prints them differently). *)
Definition reread (written : Snapshot) : Snapshot :=
  {| snap_documents := snap_documents written;
     snap_embeddings :=
       option_map (map (option_map (map reread_number))) (snap_embeddings written);
     snap_metadata := snap_metadata written;
     snap_timestamp := snap_timestamp written |}.

(** [load()]; each array is read as [data.x || []]. *)
Definition load : M World Snapshot :=
  fun w =>
    match disk w with
    | Some written =>
        let data := reread written in
        Ok data (with_vectors {| documents := default [] (snap_documents data);
                                 embeddings := default [] (snap_embeddings data);
                                 metadata := default [] (snap_metadata data);
                                 isLoaded := isLoaded (vectors w) |} w)
    | None => Throw (Error "ENOENT") w
    end.

Definition set_loaded (v : VectorStoreState) : VectorStoreState :=
  {| documents := documents v; embeddings := embeddings v;
     metadata := metadata v; isLoaded := true |}.

Definition initialize : M World unit :=
  try_catch (load ;;; on_vectors set_loaded)
            (fun _ => on_vectors set_loaded).

(** One turn of the loop of [addDocuments]: three pushes. *)
Definition push_doc (embs : list (option embedding)) (v : VectorStoreState) (entry : nat * doc)
  : VectorStoreState :=
  let '(i, d) := entry in
  {| documents := documents v ++ [doc_text d];
     embeddings := embeddings v ++ [mjoin (embs !! i)];
     metadata := metadata v ++ [default ∅ (doc_metadata d)];
     isLoaded := isLoaded v |}.

Definition addDocuments `{Env} (docs : list doc) : M World unit :=
  let texts := map doc_text docs in
  embs <- EmbeddingService.generateEmbeddings texts ;;
  on_vectors (fun v => fold_left (push_doc embs) (zip (seq 0 (length docs)) docs) v) ;;;
  save.

(** The comparator [(a, b) => b.score - a.score].  [Array.prototype.sort]
    takes a result that is NaN for 0; [y] goes strictly before [x] when the
    result for [(y, x)] is negative. *)
Definition comparefn (a b : similarity) : float := (score b - score a)%float.

Definition precedes (y x : similarity) : bool := (comparefn y x <? 0)%float.

(** The comparator is consistent on the entries when it orders them: it
    does when no score is NaN (it is then the descending order of the
    scores), and when it ties all the entries.  A NaN score ties with every
    score, so that among scores that differ the comparator is not
    consistent. *)
Definition consistent (l : list similarity) : bool :=
  forallb (fun a => negb (is_nan (score a))) l
  || forallb (fun a => forallb (fun b => negb (precedes a b)) l) l.

(** [similarities.sort((a, b) => b.score - a.score)].  With a consistent
    comparator ECMAScript fixes the result: the entries in the comparator's
    order, ties in the order in which they stood.  With a comparator that is
    not consistent the order is the engine's; an entry's [index] is the
    position at which it stood. *)
Definition sort `{Env} (l : list similarity) : list similarity :=
  if consistent l then stable_sort precedes l
  else
    let rank := engineRank (map score l) in
    stable_sort (fun y x => (rank (index y) <? rank (index x))%nat) l.

(** [this.embeddings.map((embedding, index) => ({index, score: ...}))] *)
Fixpoint similarities {St} (queryEmbedding : option embedding) (embs : list (option embedding)) (i : nat)
  : M St (list similarity) :=
  match embs with
  | [] => ret []
  | embedding :: rest =>
      s <- EmbeddingService.cosineSimilarity_js queryEmbedding embedding ;;
      more <- similarities queryEmbedding rest (S i) ;;
      ret ({| index := i; score := s |} :: more)
  end.

(** How the comparator sees two entries: [a] outranks [b] when the
    difference it computes says that [a]'s score is strictly greater
    ([score a - score b > 0]); they are tied when their scores are equal
    numbers ([===]). *)
Definition outranks (a b : similarity) : bool := (0 <? score a - score b)%float.
Definition tied (a b : similarity) : bool := (score a =? score b)%float.

(** The three arrays go together and every stored embedding is an array. *)
Definition well_formed (v : VectorStoreState) : Prop :=
  length (embeddings v) = length (documents v)
  /\ length (metadata v) = length (documents v)
  /\ Forall is_Some (embeddings v).

(** What the core expects of the embedding endpoint: one vector per text. *)
Definition embedding_contract `{Env} : Prop :=
  forall n texts vs,
    jinaPost n texts = Some vs -> length vs = length texts /\ Forall is_Some vs.

(** Two entries stand in rank order when the later one does not outrank the
    earlier one; a tie is in order when the earlier entry was inserted first. *)
Definition in_rank_order (a b : similarity) : Prop := outranks b a = false.

Definition tie_in_order (a b : similarity) : Prop :=
  tied a b = true -> (index a < index b)%nat.

(** The array [similarities] when every stored embedding is an array. *)
Fixpoint scores_from (q : embedding) (es : list embedding) (i : nat) : list similarity :=
  match es with
  | [] => []
  | e :: rest =>
      {| index := i; score := EmbeddingService.cosineSimilarity q e |}
      :: scores_from q rest (S i)
  end.

Definition result_of (v : VectorStoreState) (r : similarity) : hit :=
  {| hit_text := mjoin (documents v !! index r);
     hit_score := score r;
     hit_metadata := metadata v !! index r |}.

(** [search(query, topK)]; [const [queryEmbedding] = ...] takes the first
    element, [undefined] when there is none. *)
Definition search `{Env} (query : string) (k : Z) : M World (list hit) :=
  v <- gets vectors ;;
  if Nat.eqb (length (documents v)) 0 then ret []
  else
    embs <- EmbeddingService.generateEmbeddings [Some query] ;;
    let queryEmbedding := mjoin (head embs) in
    sims <- similarities queryEmbedding (embeddings v) 0 ;;
    let topResults := slice (sort sims) 0 k in
    ret (map (result_of v) topResults).

Definition clear `{Env} : M World unit :=
  on_vectors (fun v => {| documents := []; embeddings := []; metadata := [];
                          isLoaded := isLoaded v |}) ;;;
  save.

Definition getDocumentCount : M World nat :=
  gets (fun w => length (documents (vectors w))).

End VectorStore.

(** ** services/session.js *)

Module SessionService.

Definition sessionPrefix : string := "session:".
Definition historyPrefix : string := "history:".

Definition session_key (sessionId : string) : string := sessionPrefix +:+ sessionId.
Definition history_key (sessionId : string) : string := historyPrefix +:+ sessionId.

(** The text [JSON.parse] sees when it is handed what a key holds: an array
    is converted with [toString]. *)
Definition text_of (v : InMemoryStore.value) : string :=
  match v with
  | InMemoryStore.VStr s => s
  | InMemoryStore.VList l => String.concat "," l
  end.

Definition parse `{Env} {St} (s : string) : M St jsobject :=
  match JSON_parse s with
  | Some o => ret o
  | None => throw (SyntaxError "Unexpected token in JSON")
  end.

Definition createSession `{Env} : M World jsobject :=
  n <- next_serial ;;
  t <- gets now ;;
  let sessionId := uuidv4 n in
  let sessionData : jsobject :=
    <["messageCount" := JNum 0]>
      (<["createdAt" := JStr (toISOString t)]> {["id" := JStr sessionId]}) in
  on_redis (InMemoryStore.setex (session_key sessionId) sessionTTL
              (InMemoryStore.VStr (JSON_stringify sessionData))) ;;;
  ret sessionData.

(** [data ? JSON.parse(data) : null] *)
Definition getSession `{Env} (sessionId : string) : M World (option jsobject) :=
  data <- on_redis (InMemoryStore.get (session_key sessionId)) ;;
  match data with
  | Some v => o <- parse (text_of v) ;; ret (Some o)
  | None => ret None
  end.

Definition validateSession `{Env} (sessionId : string) : M World bool :=
  found <- on_redis (InMemoryStore.exists_ (session_key sessionId)) ;;
  if found =? 0 then ret false
  else
    on_redis (InMemoryStore.expire (session_key sessionId) sessionTTL) ;;;
    on_redis (InMemoryStore.expire (history_key sessionId) sessionTTL) ;;;
    ret true.

(** [(sessionData.messageCount || 0) + 1] *)
Definition next_count (v : option jsprim) : jsprim :=
  match v with
  | Some (JNum n) => JNum (n + 1)
  | Some (JStr s) => if String.eqb s "" then JNum 1 else JStr (s +:+ "1")
  | Some (JBool true) => JNum 2
  | Some (JBool false) | Some JNull | None => JNum 1
  end.

Definition store_session `{Env} (sessionId : string) (sessionData : jsobject) : M World unit :=
  on_redis (InMemoryStore.setex (session_key sessionId) sessionTTL
              (InMemoryStore.VStr (JSON_stringify sessionData))) ;;;
  ret tt.

(** [{id: uuidv4(), role, content, timestamp: new Date().toISOString()}],
    [uuidv4()] being the [n]-th external call and [t] the instant. *)
Definition message_of `{Env} (n : nat) (t : Z) (role content : string) : jsobject :=
  <["timestamp" := JStr (toISOString t)]>
    (<["content" := JStr content]>
       (<["role" := JStr role]> {["id" := JStr (uuidv4 n)]})).

(** [sessionData.messageCount = (sessionData.messageCount || 0) + 1] *)
Definition counted (sd : jsobject) : jsobject :=
  <["messageCount" := next_count (sd !! "messageCount")]> sd.

Definition addMessage `{Env} (sessionId role content : string) : M World jsobject :=
  n <- next_serial ;;
  t <- gets now ;;
  let message := message_of n t role content in
  on_redis (fun _ => InMemoryStore.rpush (history_key sessionId) [JSON_stringify message]) ;;;
  sessionData <- getSession sessionId ;;
  match sessionData with
  | Some sd => store_session sessionId (counted sd)
  | None => ret tt
  end ;;;
  on_redis (InMemoryStore.expire (history_key sessionId) sessionTTL) ;;;
  ret message.

(** [messages.map(msg => JSON.parse(msg))] *)
Fixpoint parse_all `{Env} {St} (messages : list string) : M St (list jsobject) :=
  match messages with
  | [] => ret []
  | msg :: rest =>
      o <- parse msg ;;
      os <- parse_all rest ;;
      ret (o :: os)
  end.

Definition getHistory `{Env} (sessionId : string) (limit : Z) : M World (list jsobject) :=
  messages <- on_redis (InMemoryStore.lrange (history_key sessionId) (- limit) (-1)) ;;
  match messages with
  | InMemoryStore.VList l => parse_all l
  | InMemoryStore.VStr _ => throw (TypeError "messages.map is not a function")
  end.

Definition clearHistory `{Env} (sessionId : string) : M World unit :=
  on_redis (fun _ => InMemoryStore.del (history_key sessionId)) ;;;
  sessionData <- getSession sessionId ;;
  match sessionData with
  | Some sd => store_session sessionId (<["messageCount" := JNum 0]> sd)
  | None => ret tt
  end.

Definition deleteSession (sessionId : string) : M World unit :=
  on_redis (fun _ => InMemoryStore.del (session_key sessionId)) ;;;
  on_redis (fun _ => InMemoryStore.del (history_key sessionId)) ;;;
  ret tt.

(** What the codec is relied on for: parsing undoes printing, and the empty
    text is not JSON. *)
Definition json_codec `{Env} : Prop :=
  (forall o, JSON_parse (JSON_stringify o) = Some o) /\ JSON_parse "" = None.

(** The session record [sd] is stored under the session key and has not
    expired at instant [t]. *)
Definition live_in `{Env} (r : InMemoryStore.t) (t : Z) (sessionId : string)
    (sd : jsobject) : Prop :=
  exists s,
    InMemoryStore.store r !! session_key sessionId = Some (InMemoryStore.VStr s)
    /\ JSON_parse s = Some sd
    /\ InMemoryStore.expired r (session_key sessionId) t = false.

(** The history list of the session holds the texts [msgs], oldest first
    (no list yet: no message). *)
Definition history_in (r : InMemoryStore.t) (sessionId : string) (msgs : list string) : Prop :=
  InMemoryStore.store r !! history_key sessionId = Some (InMemoryStore.VList msgs)
  \/ (InMemoryStore.store r !! history_key sessionId = None /\ msgs = []).

Definition history_fresh (r : InMemoryStore.t) (t : Z) (sessionId : string) : Prop :=
  InMemoryStore.store r !! history_key sessionId = None
  \/ InMemoryStore.expired r (history_key sessionId) t = false.

(** A session with record [sd] whose history is the messages [ms]. *)
Definition session_ok `{Env} (r : InMemoryStore.t) (t : Z) (sessionId : string)
    (sd : jsobject) (ms : list jsobject) : Prop :=
  live_in r t sessionId sd
  /\ history_in r sessionId (map JSON_stringify ms)
  /\ history_fresh r t sessionId.

End SessionService.

(** ** services/gemini.js *)

Module GeminiService.

Definition nl : string := String (ascii_of_nat 10) EmptyString.
Definition dquote : string := String (ascii_of_nat 34) EmptyString.

(** A template literal's rendering of a text that may be [undefined]. *)
Definition render (t : option string) : string := default "undefined"%string t.

(** [context.map((doc, idx) => `[Source ${idx + 1}]: ${doc.text}`).join('\n\n')] *)
Definition contextText (context : list VectorStore.hit) : string :=
  String.concat (nl +:+ nl)
    (imap (fun idx d => "[Source " +:+ pretty (S idx) +:+ "]: "
                        +:+ render (VectorStore.hit_text d)) context).

Definition systemPrompt (context : list VectorStore.hit) : string :=
  "You are a helpful news assistant chatbot. Your role is to answer questions about recent news articles based on the provided context."
  +:+ nl +:+ nl +:+ "IMPORTANT GUIDELINES:" +:+ nl
  +:+ "1. Only answer based on the provided news context" +:+ nl
  +:+ "2. If the context doesn't contain relevant information, say so politely" +:+ nl
  +:+ "3. Cite sources when possible (e.g., " +:+ dquote +:+ "According to Source 1..."
  +:+ dquote +:+ ")" +:+ nl
  +:+ "4. Keep responses concise but informative" +:+ nl
  +:+ "5. If asked about topics not in the news context, explain that you can only answer questions about the available news articles" +:+ nl
  +:+ "6. Be conversational and helpful" +:+ nl +:+ nl
  +:+ "NEWS CONTEXT:" +:+ nl +:+ contextText context.

(** An entry of [chatHistory]: [{role: m.role, content: m.content}]. *)
Record turn : Type := Turn {
  turn_role : option jsprim;
  turn_content : option jsprim;
}.

Definition history_entry (msg : turn) : content :=
  {| role := match turn_role msg with
             | Some (JStr "user") => "user"
             | _ => "model"
             end;
     text := turn_content msg |}.

(** The [contents] both methods build. *)
Definition contents_of (query : string) (context : list VectorStore.hit)
    (chatHistory : list turn) : list content :=
  [ {| role := "user"; text := Some (JStr (systemPrompt context)) |};
    {| role := "model";
       text := Some (JStr "I understand. I'm ready to answer questions about the news articles you've provided. How can I help you?") |} ]
  ++ map history_entry (slice_from chatHistory (-10))
  ++ [ {| role := "user"; text := Some (JStr query) |} ].

Definition log_call (contents : list content) : M World unit :=
  modify (fun w => with_generationCalls (generationCalls w ++ [contents]) w).

(** The world once a request has been sent to the model. *)
Definition requested (contents : list content) (w : World) : World :=
  with_generationCalls (generationCalls w ++ [contents]) (with_serial (S (serial w)) w).

Definition generateResponse `{Env} (query : string) (context : list VectorStore.hit)
    (chatHistory : list turn) : M World string :=
  let contents := contents_of query context chatHistory in
  try_catch
    (n <- next_serial ;;
     log_call contents ;;;
     match generateContent n contents with
     | Generated answer => ret answer
     | GenerationFailed status => throw (ApiError status)
     end)
    (fun _ => throw (Error "Failed to generate response from Gemini API")).

(** [for await (const chunk of result.stream)]: each chunk is appended to
    [fullResponse] and handed to [onChunk] when there is one. *)
Fixpoint consume (onChunk : option (string -> M World unit)) (cs : list string)
    (fullResponse : string) : M World string :=
  match cs with
  | [] => ret fullResponse
  | chunkText :: rest =>
      match onChunk with
      | Some f => f chunkText
      | None => ret tt
      end ;;;
      consume onChunk rest (fullResponse +:+ chunkText)
  end.

(** [doc.text.substring(0, n) + '...'] *)
Definition excerpt {St} (n : nat) (t : option string) : M St string :=
  match t with
  | Some s => ret (substring0 n s +:+ "...")
  | None => throw (TypeError "Cannot read properties of undefined (reading 'substring')")
  end.

Fixpoint fallback_sources {St} (context : list VectorStore.hit) (i : nat) : M St (list string) :=
  match context with
  | [] => ret []
  | d :: rest =>
      e <- excerpt 300 (VectorStore.hit_text d) ;;
      more <- fallback_sources rest (S i) ;;
      ret (("**Source " +:+ pretty (S i) +:+ "**: " +:+ e) :: more)
  end.

Definition fallbackResponse {St} (context : list VectorStore.hit) : M St string :=
  found <- fallback_sources (slice context 0 3) 0 ;;
  ret ("I apologize, but the AI service is currently experiencing high demand. Here's what I found in the news:"
       +:+ nl +:+ nl +:+ String.concat (nl +:+ nl) found +:+ nl +:+ nl
       +:+ "Please try again in a few moments for a more detailed response.").

Definition streamResponse `{Env} (query : string) (context : list VectorStore.hit)
    (chatHistory : list turn) (onChunk : option (string -> M World unit)) : M World string :=
  let contents := contents_of query context chatHistory in
  try_catch
    (n <- next_serial ;;
     log_call contents ;;;
     let result := generateContentStream n contents in
     fullResponse <- consume onChunk (chunks result) "" ;;
     match failure result with
     | None => ret fullResponse
     | Some status => throw (ApiError status)
     end)
    (fun error =>
       match error with
       | ApiError (Some 429) =>
           fallback <- fallbackResponse context ;;
           match onChunk with
           | Some f => f fallback
           | None => ret tt
           end ;;;
           ret fallback
       | _ => throw (Error "Failed to stream response from Gemini API")
       end).

End GeminiService.

(** ** services/rag.js *)

Module RAGService.

(** What [processQuery] and [processQueryStream] resolve to. *)
Record source : Type := Source {
  source_text : string;
  source_score : string;
  source_metadata : option jsobject;
}.

Record reply : Type := Reply {
  answer : string;
  sources : list source;
}.

(** [config.rag.topK] *)
Definition topK : Z := 5.

Definition noDocsResponse : string :=
  "I don't have any news articles to search through yet. Please make sure the news corpus has been ingested.".

Definition initialize : M World unit :=
  VectorStore.initialize ;;;
  modify (with_isInitialized true).

Definition ensure_initialized : M World unit :=
  ready <- gets isInitialized ;;
  if ready then ret tt else initialize.

(** The world once [if (!this.isInitialized) await this.initialize()] has run. *)
Definition initialized (w : World) : World := state_of (ensure_initialized w).

(** [history.map(m => ({ role: m.role, content: m.content }))] *)
Definition turn_of (m : jsobject) : GeminiService.turn :=
  {| GeminiService.turn_role := m !! "role";
     GeminiService.turn_content := m !! "content" |}.

(** [relevantDocs.map(doc => ({text: ..., score: ..., metadata: ...}))] *)
Fixpoint sources_of `{Env} {St} (relevantDocs : list VectorStore.hit) : M St (list source) :=
  match relevantDocs with
  | [] => ret []
  | d :: rest =>
      t <- GeminiService.excerpt 200 (VectorStore.hit_text d) ;;
      more <- sources_of rest ;;
      ret ({| source_text := t;
              source_score := toFixed4 (VectorStore.hit_score d);
              source_metadata := VectorStore.hit_metadata d |} :: more)
  end.

Definition processQuery `{Env} (sessionId query : string) : M World reply :=
  ensure_initialized ;;;
  isValid <- SessionService.validateSession sessionId ;;
  if negb isValid then throw (Error "Invalid or expired session")
  else
    history <- SessionService.getHistory sessionId 10 ;;
    relevantDocs <- VectorStore.search query topK ;;
    if Nat.eqb (length relevantDocs) 0 then
      SessionService.addMessage sessionId "user" query ;;;
      SessionService.addMessage sessionId "assistant" noDocsResponse ;;;
      ret {| answer := noDocsResponse; sources := [] |}
    else
      SessionService.addMessage sessionId "user" query ;;;
      answer <- GeminiService.generateResponse query relevantDocs (map turn_of history) ;;
      SessionService.addMessage sessionId "assistant" answer ;;;
      srcs <- sources_of relevantDocs ;;
      ret {| answer := answer; sources := srcs |}.

(** [onChunk] is called without a test on the empty-corpus path: a missing
    callback is a [TypeError] there. *)
Definition call (onChunk : option (string -> M World unit)) (delta : string) : M World unit :=
  match onChunk with
  | Some f => f delta
  | None => throw (TypeError "onChunk is not a function")
  end.

Definition processQueryStream `{Env} (sessionId query : string)
    (onChunk : option (string -> M World unit)) : M World reply :=
  ensure_initialized ;;;
  isValid <- SessionService.validateSession sessionId ;;
  if negb isValid then throw (Error "Invalid or expired session")
  else
    history <- SessionService.getHistory sessionId 10 ;;
    relevantDocs <- VectorStore.search query topK ;;
    if Nat.eqb (length relevantDocs) 0 then
      SessionService.addMessage sessionId "user" query ;;;
      SessionService.addMessage sessionId "assistant" noDocsResponse ;;;
      call onChunk noDocsResponse ;;;
      ret {| answer := noDocsResponse; sources := [] |}
    else
      SessionService.addMessage sessionId "user" query ;;;
      answer <- GeminiService.streamResponse query relevantDocs (map turn_of history) onChunk ;;
      SessionService.addMessage sessionId "assistant" answer ;;;
      srcs <- sources_of relevantDocs ;;
      ret {| answer := answer; sources := srcs |}.

Definition getDocumentCount : M World nat := VectorStore.getDocumentCount.

End RAGService.

(** ** A concrete environment

    The properties below are stated for every environment.  To run the
    services on examples we fix one: no Jina key (local embeddings), a model
    whose stream yields one chunk and is then rate limited, and a text codec
    for flat objects that is self-delimiting (lengths in unary), so that it
    can be inverted. *)

Module Demo.

Fixpoint enc_nat (n : nat) : string :=
  match n with
  | O => "0"
  | S k => String "1" (enc_nat k)
  end.

Fixpoint dec_nat (s : string) : option (nat * string) :=
  match s with
  | String "0" rest => Some (O, rest)
  | String "1" rest =>
      match dec_nat rest with
      | Some (n, rest') => Some (S n, rest')
      | None => None
      end
  | _ => None
  end.

Fixpoint take_chars (n : nat) (s : string) : option (string * string) :=
  match n with
  | O => Some (EmptyString, s)
  | S k =>
      match s with
      | String c rest =>
          match take_chars k rest with
          | Some (a, b) => Some (String c a, b)
          | None => None
          end
      | EmptyString => None
      end
  end.

Definition enc_str (s : string) : string := enc_nat (String.length s) +:+ s.

Definition dec_str (s : string) : option (string * string) :=
  match dec_nat s with
  | Some (n, rest) => take_chars n rest
  | None => None
  end.

Definition enc_prim (v : jsprim) : string :=
  match v with
  | JNull => "n"
  | JBool true => "t"
  | JBool false => "f"
  | JNum n => if n <? 0 then "-" +:+ enc_nat (Z.to_nat (- n)) else "+" +:+ enc_nat (Z.to_nat n)
  | JStr s => "s" +:+ enc_str s
  end.

Definition dec_prim (s : string) : option (jsprim * string) :=
  match s with
  | String "n" rest => Some (JNull, rest)
  | String "t" rest => Some (JBool true, rest)
  | String "f" rest => Some (JBool false, rest)
  | String "-" rest =>
      match dec_nat rest with
      | Some (n, rest') => Some (JNum (- Z.of_nat n), rest')
      | None => None
      end
  | String "+" rest =>
      match dec_nat rest with
      | Some (n, rest') => Some (JNum (Z.of_nat n), rest')
      | None => None
      end
  | String "s" rest =>
      match dec_str rest with
      | Some (t, rest') => Some (JStr t, rest')
      | None => None
      end
  | _ => None
  end.

Fixpoint enc_fields (l : list (string * jsprim)) : string :=
  match l with
  | [] => EmptyString
  | (k, v) :: rest => enc_str k +:+ enc_prim v +:+ enc_fields rest
  end.

Fixpoint dec_fields (n : nat) (s : string) : option (list (string * jsprim) * string) :=
  match n with
  | O => Some ([], s)
  | S m =>
      match dec_str s with
      | Some (k, s1) =>
          match dec_prim s1 with
          | Some (v, s2) =>
              match dec_fields m s2 with
              | Some (l, s3) => Some ((k, v) :: l, s3)
              | None => None
              end
          | None => None
          end
      | None => None
      end
  end.

Definition stringify (o : jsobject) : string :=
  let l := map_to_list o in
  enc_nat (length l) +:+ enc_fields l.

Definition parse (s : string) : option jsobject :=
  match dec_nat s with
  | Some (n, rest) =>
      match dec_fields n rest with
      | Some (l, EmptyString) => Some (list_to_map l)
      | _ => None
      end
  | None => None
  end.

(** Three models: one whose stream yields a chunk and is then rate limited
    (HTTP 429), one that is unavailable (HTTP 503), one that answers. *)
Definition rate_limited_stream : generation_stream :=
  {| chunks := ["Hel"%string]; failure := Some (Some 429) |}.

Definition unavailable_stream : generation_stream :=
  {| chunks := []; failure := Some (Some 503) |}.

Definition complete_stream : generation_stream :=
  {| chunks := ["Hel"%string; "lo"%string]; failure := None |}.

(** The environment of the examples around a given model: no Jina key, a
    local embedding with two directions (texts about the weather, and the
    rest). *)
Definition env_with (blocking : generation) (streaming : generation_stream) : Env := {|
  JSON_stringify := stringify;
  JSON_parse := parse;
  uuidv4 := fun n => "id-" +:+ pretty n;
  toISOString := fun t => pretty t;
  toFixed4 := fun _ => "0.0000"%string;
  engineRank := fun _ i => i;
  sessionTTL := 86400;
  jinaApiKey := None;
  jinaPost := fun _ _ => None;
  localEmbedding := fun t => match t with
                            | String "w" _ => [1%float; 0%float]
                            | _ => [0%float; 1%float]
                            end;
  generateContent := fun _ _ => blocking;
  generateContentStream := fun _ _ => streaming;
|}.

#[local] Instance env : Env := env_with (GenerationFailed (Some 429)) rate_limited_stream.

Definition env_unavailable : Env := env_with (GenerationFailed (Some 503)) unavailable_stream.

Definition env_answering : Env := env_with (Generated "Hello") complete_stream.

(** An empty world at instant 1000 ms, and the one reached from it by
    creating a session and indexing three chunks. *)
Definition blank : World :=
  {| redis := InMemoryStore.empty;
     vectors := VectorStore.empty;
     disk := None;
     diskWritable := true;
     isInitialized := true;
     now := 1000;
     serial := 0;
     generationCalls := [];
     delivered := [] |}.

Definition chunks3 : list VectorStore.doc :=
  [ {| VectorStore.doc_text := Some "weather: rain is forecast for today"%string;
       VectorStore.doc_metadata := None |};
    {| VectorStore.doc_text := Some "sports: the cup final ended in a draw"%string;
       VectorStore.doc_metadata := None |};
    {| VectorStore.doc_text := Some "finance: markets closed higher"%string;
       VectorStore.doc_metadata := None |} ].

Definition session_id : string := "id-0".

Definition with_session : World := state_of (SessionService.createSession blank).

(** The record [createSession] stored and returned. *)
Definition session_record : jsobject :=
  <["messageCount" := JNum 0]>
    (<["createdAt" := JStr "1000"]> {["id" := JStr session_id]}).

Definition world : World := state_of (VectorStore.addDocuments chunks3 with_session).

(** The session after two messages. *)
Definition chatted : World :=
  state_of (SessionService.addMessage session_id "assistant" "hi"
              (state_of (SessionService.addMessage session_id "user" "hello" world))).



Definition chunk (t : string) : VectorStore.doc :=
  {| VectorStore.doc_text := Some t; VectorStore.doc_metadata := None |}.


End Demo.


(** ** services/embedding.js: the local embedding

    [_localEmbed] and [_simpleHash] as they are written.  A text is a
    sequence of UTF-16 code units; the strings of this file hold one code
    unit below 256 per character. *)

Module LocalEmbedding.

(** [ToInt32]: the signed 32-bit integer congruent to [n] modulo 2^32. *)
Definition toInt32 (n : Z) : Z := (n + 2147483648) mod 4294967296 - 2147483648.

(** [a << k] and [a & b]: the operands go through [ToInt32], the shift
    count is taken modulo 32, and the result is a signed 32-bit integer. *)
Definition shl (a k : Z) : Z := toInt32 (Z.shiftl (toInt32 a) (k mod 32)).
Definition and (a b : Z) : Z := toInt32 (Z.land (toInt32 a) (toInt32 b)).

(** [str.charCodeAt(i)] *)
Definition code (c : ascii) : Z := Z.of_N (N_of_ascii c).

(** [hash = ((hash << 5) - hash) + char; hash = hash & hash] for each
    code unit, from 0. *)
Definition _simpleHash (str : string) : Z :=
  fold_left (fun hash c =>
               let char := code c in
               let hash := shl hash 5 - hash + char in
               and hash hash)
            (list_ascii_of_string str) 0.

(** The white space of [\s] below 256: tab to carriage return, space and
    the no-break space. *)
Definition is_space (c : ascii) : bool :=
  let n := code c in
  (9 <=? n) && (n <=? 13) || (n =? 32) || (n =? 160).

(** [toLowerCase] below 256: A-Z and the capital letters of Latin-1 (all of
    192..222 but the multiplication sign) move up by 32. *)
Definition lower (c : ascii) : ascii :=
  let n := code c in
  if (65 <=? n) && (n <=? 90) || (192 <=? n) && (n <=? 222) && negb (n =? 215)
  then ascii_of_N (Z.to_N (n + 32))
  else c.

Definition toLowerCase (s : string) : string :=
  string_of_list_ascii (map lower (list_ascii_of_string s)).

(** [split(/\s+/)]: the pieces between the runs of white space, the empty
    piece before a leading run and after a trailing one included; [word] is
    the piece being read, last character first, [gap] tells whether the
    previous character was white space. *)
Fixpoint split_from (cs : list ascii) (word : list ascii) (gap : bool) : list string :=
  match cs with
  | [] => [string_of_list_ascii (rev word)]
  | c :: rest =>
      if is_space c then
        if gap then split_from rest [] true
        else string_of_list_ascii (rev word) :: split_from rest [] true
      else split_from rest (c :: word) false
  end.

Definition split_spaces (s : string) : list string :=
  split_from (list_ascii_of_string s) [] false.

Definition DIMENSION : nat := 384.

(** [embedding[i] += x] on an array whose elements are numbers or holes
    ([None]).  A negative [i] names a property that is not an element: the
    elements are left as they are.  A hole or an index past the end reads
    as [undefined], the sum is NaN, and writing past the end extends the
    array with holes. *)
Definition add_at (a : list (option float)) (i : Z) (x : float) : list (option float) :=
  if i <? 0 then a
  else
    let n := Z.to_nat i in
    match a !! n with
    | Some (Some v) => <[n := Some (v + x)%float]> a
    | Some None => <[n := Some nan]> a
    | None => a ++ replicate (n - length a) None ++ [Some nan]
    end.

(** A length as a number. *)
Definition of_length (n : nat) : float :=
  PrimFloat.of_uint63 (Stdlib.Numbers.Cyclic.Int63.Uint63.of_Z (Z.of_nat n)).

(** One turn of [words.forEach((word, idx) => ...)]; [%] is the remainder
    that has the sign of the dividend. *)
Definition embed_word (count : nat) (a : list (option float)) (entry : nat * string)
  : list (option float) :=
  let '(idx, word) := entry in
  let hash := _simpleHash word in
  let position := Z.rem (Z.abs hash) (Z.of_nat DIMENSION) in
  let a := add_at a position (1 / PrimFloat.sqrt (of_length count))%float in
  let posHash := Z.rem (hash + Z.of_nat idx) (Z.of_nat DIMENSION) in
  add_at a posHash (0.1 / PrimFloat.sqrt (of_length count))%float.

(** The body of [texts.map(text => ...)]; [reduce] skips the holes and [map]
    keeps them. *)
Definition embed (text : string) : list (option float) :=
  let words := split_spaces (toLowerCase text) in
  let embedding :=
    fold_left (embed_word (length words)) (zip (seq 0 (length words)) words)
              (replicate DIMENSION (Some 0%float)) in
  let norm :=
    PrimFloat.sqrt
      (fold_left (fun sum v => match v with
                               | Some val => (sum + val * val)%float
                               | None => sum
                               end) embedding 0%float) in
  map (fun v => match v with
                | Some val => Some (if (0 <? norm)%float then (val / norm)%float else 0%float)
                | None => None
                end) embedding.

End LocalEmbedding.

Module LE := LocalEmbedding.

(** ** scripts/ingestNews.js: from articles to the index

    [chunkText], [processArticles] and the part of [ingestNews] that stores
    the documents.  Fetching and cleaning the feeds is outside the model. *)

Module Ingest.

(** [text.lastIndexOf(c, position)] for a single character: the position
    is clamped to the string, and the answer is the last occurrence at or
    before it, -1 when there is none ([last_index] reads the characters up
    to the position from the first on and keeps the last match). *)
Fixpoint last_index (c : ascii) (cs : list ascii) (i : Z) (found : Z) : Z :=
  match cs with
  | [] => found
  | x :: rest => last_index c rest (i + 1) (if Ascii.eqb x c then i else found)
  end.

Definition lastIndexOf (c : ascii) (cs : list ascii) (position : Z) : Z :=
  let len := Z.of_nat (length cs) in
  if len =? 0 then -1
  else
    let from := Z.min (Z.max position 0) (len - 1) in
    last_index c (take (Z.to_nat (from + 1)) cs) 0 (-1).

(** [String.prototype.trim] *)
Fixpoint strip_spaces (cs : list ascii) : list ascii :=
  match cs with
  | c :: rest => if LocalEmbedding.is_space c then strip_spaces rest else cs
  | [] => []
  end.

Definition trim (cs : list ascii) : list ascii :=
  rev (strip_spaces (rev (strip_spaces cs))).

(** The [while] loop of [chunkText]; it need not end, so the number of
    turns is bounded by [fuel] and [None] says that the bound was reached.
    [lastPeriod > start + chunkSize / 2] compares with a half that is not
    rounded. *)
Fixpoint chunk_loop (fuel : nat) (text : list ascii) (chunkSize overlap : Z)
    (start : Z) (chunks : list string) : option (list string) :=
  match fuel with
  | O => None
  | S fuel =>
      let len := Z.of_nat (length text) in
      if start <? len then
        let end_ := start + chunkSize in
        let end_ :=
          if end_ <? len then
            let lastPeriod := lastIndexOf "." text end_ in
            if 2 * start + chunkSize <? 2 * lastPeriod then lastPeriod + 1 else end_
          else end_ in
        chunk_loop fuel text chunkSize overlap (end_ - overlap)
          (chunks ++ [string_of_list_ascii (trim (slice text start end_))])
      else Some chunks
  end.

(** [chunks.filter(chunk => chunk.length > 20)] *)
Definition long_enough (chunk : string) : bool := (20 <? String.length chunk)%nat.

Definition chunkText (fuel : nat) (text : string) (chunkSize overlap : Z)
  : option (list string) :=
  match chunk_loop fuel (list_ascii_of_string text) chunkSize overlap 0 [] with
  | Some chunks => Some (filter (fun chunk => long_enough chunk = true) chunks)
  | None => None
  end.

(** [config.rag.chunkSize] and [config.rag.chunkOverlap] *)
Definition chunkSize : Z := 500.
Definition chunkOverlap : Z := 100.

(** An article; a field may be missing. *)
Record article : Type := Article {
  title : option string;
  content : option string;
  source : option string;
  pubDate : option string;
  link : option string;
}.

(** [{title, source, pubDate, link, chunkIndex: i, totalChunks}]; a field
    whose value is [undefined] reads like a missing one. *)
Definition with_field (k : string) (v : option string) (o : jsobject) : jsobject :=
  match v with
  | Some s => <[k := JStr s]> o
  | None => o
  end.

Definition chunk_metadata (a : article) (i : nat) (totalChunks : nat) : jsobject :=
  with_field "title" (title a)
    (with_field "source" (source a)
       (with_field "pubDate" (pubDate a)
          (with_field "link" (link a)
             (<["chunkIndex" := JNum (Z.of_nat i)]>
                {["totalChunks" := JNum (Z.of_nat totalChunks)]})))).

(** The text an article is chunked from: the title, an empty line, the
    content. *)
Definition fullText (a : article) : string :=
  GeminiService.render (title a) +:+ GeminiService.nl +:+ GeminiService.nl
  +:+ GeminiService.render (content a).

(** The documents of one article, given the turns its chunking may take. *)
Definition article_documents (fuel : nat) (a : article) : option (list VectorStore.doc) :=
  match chunkText fuel (fullText a) chunkSize chunkOverlap with
  | Some chunks =>
      Some (imap (fun i chunk =>
                    {| VectorStore.doc_text := Some chunk;
                       VectorStore.doc_metadata :=
                         Some (chunk_metadata a i (length chunks)) |}) chunks)
  | None => None
  end.

Fixpoint processArticles (fuel : nat) (articles : list article)
  : option (list VectorStore.doc) :=
  match articles with
  | [] => Some []
  | a :: rest =>
      match article_documents fuel a, processArticles fuel rest with
      | Some docs, Some more => Some (docs ++ more)
      | _, _ => None
      end
  end.

(** [for (let i = 0; i < documents.length; i += batchSize)]: the batches
    [documents.slice(i, i + batchSize)], each handed to [addDocuments].
    The loop takes one turn per batch; [turns] is a number of turns that is
    enough (the number of documents is). *)
Fixpoint store_batches `{Env} (turns : nat) (batchSize : nat)
    (documents : list VectorStore.doc) (i : nat) : M World unit :=
  match turns with
  | O => ret tt
  | S turns =>
      if (i <? length documents)%nat then
        VectorStore.addDocuments
          (slice documents (Z.of_nat i) (Z.of_nat (i + batchSize))) ;;;
        store_batches turns batchSize documents (i + batchSize)
      else ret tt
  end.

(** [ingestNews] from the documents on: the index is loaded, cleared, and
    filled ten documents at a time. *)
Definition store_documents `{Env} (documents : list VectorStore.doc) : M World unit :=
  VectorStore.initialize ;;;
  VectorStore.clear ;;;
  store_batches (length documents) 10 documents 0.

End Ingest.

Module IN := Ingest.

(** ** The chat route and socket/handlers.js: the callers

    The handler of [POST /api/chat] (the second router of
    [routes/session.js]) and the [join_session] handler of a socket, with
    what they send back as their result.  The fields of the request are
    strings or missing. *)

Module Callers.


(** [!value] for a string that may be missing. *)
Definition blank (value : option string) : bool :=
  match value with
  | Some s => String.eqb s ""
  | None => true
  end.





(** What the socket emits in answer to [join_session]. *)
Inductive emitted : Type :=
| session_joined (session : jsobject) (history : list jsobject)
| error_event (message : string).

(** A connection: the services and the [currentSessionId] of its closure. *)
Definition connection : Type := World * option string.

Definition on_world {A} (c : M World A) : M connection A :=
  zoom fst (fun w s => (w, snd s)) c.

Definition set_current (sessionId : string) : M connection unit :=
  modify (fun s => (fst s, Some sessionId)).

(** [session.id], as the text it is in a key built with a template
    literal. *)
Definition id_of (session : jsobject) : string :=
  match session !! "id" with
  | Some (JStr s) => s
  | Some (JNum n) => pretty n
  | Some (JBool true) => "true"
  | Some (JBool false) => "false"
  | Some JNull => "null"
  | None => "undefined"
  end.

(** [socket.on('join_session', ...)]; [None] is [data] without a
    [sessionId]. *)
Definition join_session `{Env} (sessionId : option string) : M connection emitted :=
  try_catch
    (session <-
       (if blank sessionId then ret None
        else
          isValid <- on_world (SessionService.validateSession (default "" sessionId)) ;;
          if isValid then
            session <- on_world (SessionService.getSession (default "" sessionId)) ;;
            set_current (default "" sessionId) ;;;
            ret session
          else ret None) ;;
     session <-
       match session with
       | Some session => ret session
       | None =>
           session <- on_world SessionService.createSession ;;
           set_current (id_of session) ;;;
           ret session
       end ;;
     current <- gets snd ;;
     history <- on_world (SessionService.getHistory (default "undefined" current) 100) ;;
     ret (session_joined session history))
    (fun _ => ret (error_event "Failed to join session")).

End Callers.

Module CL := Callers.

(** * Properties

    From here on: what the code above does, claim by claim of the
    specification.  [KV] is the in-memory store. *)

Import EmbeddingService VectorStore SessionService.

(** ** The in-memory store *)

Lemma checkExpiry_live st key now :
  KV.expired st key now = false -> KV._checkExpiry key now st = st.
Proof. intros H. unfold KV._checkExpiry. now rewrite H. Qed.

Lemma checkExpiry_expired st key now :
  KV.expired st key now = true ->
  KV._checkExpiry key now st =
    {| KV.store := delete key (KV.store st); KV.ttls := delete key (KV.ttls st) |}.
Proof. intros H. unfold KV._checkExpiry. now rewrite H. Qed.

Lemma checkExpiry_lookup_None r k t :
  KV.store r !! k = None -> KV.store (KV._checkExpiry k t r) !! k = None.
Proof.
  intros Hs. unfold KV._checkExpiry. destruct (KV.expired r k t); simpl; [|exact Hs].
  apply lookup_delete_eq.
Qed.

Lemma checkExpiry_other r k k' t :
  k <> k' ->
  KV.store (KV._checkExpiry k t r) !! k' = KV.store r !! k'
  /\ KV.expired (KV._checkExpiry k t r) k' t = KV.expired r k' t.
Proof.
  intros Hne. unfold KV._checkExpiry, KV.expired.
  destruct (KV.ttls r !! k) as [e|]; simpl; [|done].
  destruct (negb (e =? 0) && (e <? t)); simpl; [|done].
  by rewrite !lookup_delete_ne.
Qed.

Lemma expired_setex st key seconds v t0 now :
  KV.expired (state_of (KV.setex key seconds v t0 st)) key now
  = negb (t0 + seconds * 1000 =? 0) && (t0 + seconds * 1000 <? now).
Proof. unfold KV.expired, KV.setex. simpl. by rewrite lookup_insert_eq. Qed.

Lemma exists_present r k t v :
  KV.expired r k t = false -> KV.store r !! k = Some v -> KV.exists_ k t r = Ok 1 r.
Proof. intros He Hs. unfold KV.exists_. now rewrite (checkExpiry_live _ _ _ He), Hs. Qed.

Lemma expire_present r k s t v :
  KV.store r !! k = Some v ->
  KV.expire k s t r
  = Ok 1 {| KV.store := KV.store r; KV.ttls := <[k := t + s * 1000]> (KV.ttls r) |}.
Proof. intros Hs. unfold KV.expire. now rewrite Hs. Qed.

Lemma expire_absent r k s t :
  KV.store r !! k = None -> KV.expire k s t r = Ok 0 r.
Proof. intros Hs. unfold KV.expire. now rewrite Hs. Qed.

Lemma get_present r k t s :
  KV.expired r k t = false -> KV.store r !! k = Some (KV.VStr s) -> s <> ""%string ->
  KV.get k t r = Ok (Some (KV.VStr s)) r.
Proof.
  intros He Hs Hne. unfold KV.get. rewrite (checkExpiry_live _ _ _ He), Hs. simpl.
  now destruct (String.eqb_spec s "").
Qed.

Lemma rpush_list r k l values :
  KV.store r !! k = Some (KV.VList l) ->
  KV.rpush k values r
  = Ok (Z.of_nat (length (l ++ values)))
       {| KV.store := <[k := KV.VList (l ++ values)]> (KV.store r); KV.ttls := KV.ttls r |}.
Proof. intros Hs. unfold KV.rpush, KV.list_or_new. now rewrite Hs. Qed.

Lemma rpush_new r k values :
  KV.store r !! k = None ->
  KV.rpush k values r
  = Ok (Z.of_nat (length values))
       {| KV.store := <[k := KV.VList values]> (KV.store r); KV.ttls := KV.ttls r |}.
Proof. intros Hs. unfold KV.rpush, KV.list_or_new. now rewrite Hs. Qed.

Lemma lrange_list r k a b t l :
  KV.store r !! k = Some (KV.VList l) -> KV.expired r k t = false ->
  KV.lrange k a b t r
  = Ok (KV.VList (slice l a (KV.range_end (Z.of_nat (length l)) b))) r.
Proof.
  intros Hs He. unfold KV.lrange, KV.list_or_new.
  now rewrite (checkExpiry_live _ _ _ He), Hs.
Qed.

Lemma lrange_absent r k a b t :
  KV.store r !! k = None ->
  KV.lrange k a b t r = Ok (KV.VList []) (KV._checkExpiry k t r).
Proof.
  intros Hs. unfold KV.lrange, KV.list_or_new.
  rewrite (checkExpiry_lookup_None _ _ _ Hs). unfold KV.slice_value.
  do 2 f_equal. unfold slice. rewrite drop_nil. apply take_nil.
Qed.

(** The reads do evict: a key whose expiry has passed is absent for [get],
    [exists] and [lrange], and gone from the store afterwards. *)
Lemma expired_key_reads_absent st key now :
  KV.expired st key now = true ->
  value_of (KV.get key now st) = Some None
  /\ value_of (KV.exists_ key now st) = Some 0
  /\ value_of (KV.lrange key 0 (-1) now st) = Some (KV.VList [])
  /\ KV.store (state_of (KV.get key now st)) !! key = None.
Proof.
  intros H. unfold KV.get, KV.exists_, KV.lrange, KV.list_or_new.
  rewrite (checkExpiry_expired _ _ _ H). simpl.
  rewrite !lookup_delete_eq. auto.
Qed.

(** C2, at the failing input.  A key written at instant 0 with a TTL of one
    second has expired at 5000 ms; [expire] there still answers 1 and gives
    the key ten more seconds, and the [get] that follows returns the value
    that had expired. *)
Theorem expire_revives_expired_key :
  let st0 := state_of (KV.setex "k" 1 (KV.VStr "v") 0 KV.empty) in
  KV.expired st0 "k" 5000 = true
  /\ value_of (KV.expire "k" 10 5000 st0) = Some 1
  /\ value_of (KV.get "k" 6000 (state_of (KV.expire "k" 10 5000 st0)))
     = Some (Some (KV.VStr "v")).
Proof. vm_compute. auto. Qed.

(** [expire] never looks at the expiry: on any key that is still in the map,
    expired or not, it answers 1 and the key is live afterwards for a
    positive TTL. *)
Lemma expire_ignores_expiry st key seconds now v :
  KV.store st !! key = Some v -> 0 <= seconds -> 
  value_of (KV.expire key seconds now st) = Some 1
  /\ KV.expired (state_of (KV.expire key seconds now st)) key now = false.
Proof.
  intros Hs Hpos. rewrite (expire_present _ _ _ _ _ Hs). simpl. split; [reflexivity|].
  unfold KV.expired. simpl. rewrite lookup_insert_eq.
  destruct (Z.ltb_spec (now + seconds * 1000) now); [lia|]. apply andb_false_r.
Qed.

(** C10.  A key that holds the empty string and has not expired: [exists]
    answers 1 while [get] answers null. *)
Theorem exists_and_get_disagree_on_empty_string st key now :
  KV.store st !! key = Some (KV.VStr "") ->
  KV.expired st key now = false ->
  value_of (KV.exists_ key now st) = Some 1
  /\ value_of (KV.get key now st) = Some None.
Proof.
  intros Hs He. unfold KV.exists_, KV.get.
  rewrite (checkExpiry_live _ _ _ He). simpl. rewrite Hs. auto.
Qed.

Lemma exists_and_get_disagree_witness :
  let st := state_of (KV.setex "k" 60 (KV.VStr "") 0 KV.empty) in
  value_of (KV.exists_ "k" 1000 st) = Some 1 /\ value_of (KV.get "k" 1000 st) = Some None.
Proof.
  apply exists_and_get_disagree_on_empty_string; reflexivity.
Defined.

(** ** Double arithmetic

    What is used of IEEE 754 below, from the specification of the primitive
    operations. *)

Lemma Prim2SF_zero : Prim2SF 0 = S754_zero false.
Proof. reflexivity. Qed.

(** Rounding keeps the sign it is given: a positive integer rounds to
    something above zero exactly when its opposite rounds to something below,
    and never the other way round. *)
Lemma binary_round_signs m e :
  SFltb (S754_zero false) (binary_round prec emax false m e)
  = SFltb (binary_round prec emax true m e) (S754_zero false)
  /\ SFltb (S754_zero false) (binary_round prec emax true m e) = false
  /\ SFltb (binary_round prec emax false m e) (S754_zero false) = false.
Proof.
  unfold binary_round.
  destruct (shl_align m e _) as [mz ez].
  unfold binary_round_aux.
  destruct (shr_fexp prec emax (Z.pos mz) ez loc_Exact) as [mrs' e'].
  destruct (shr_fexp prec emax _ e' loc_Exact) as [mrs'' e''].
  destruct (shr_m mrs''); try (repeat split; reflexivity).
  destruct (IntDef.Z.leb _ _); repeat split; reflexivity.
Qed.

Lemma SFsub_antisym_sign X Y :
  SFltb (S754_zero false) (SF64sub Y X) = SFltb (SF64sub X Y) (S754_zero false).
Proof.
  destruct X as [sx|sx| |sx mx ex], Y as [sy|sy| |sy my ey];
    try reflexivity;
    try (destruct sx; try destruct sy; reflexivity);
    try (destruct sy; reflexivity).
  unfold SF64sub, SFsub.
  change IntDef.Z.min with Z.min. change IntDef.Z.sub with Z.sub.
  rewrite (Z.min_comm ey ex).
  set (ez := Z.min ex ey).
  set (a := cond_Zopp sx _). set (b := cond_Zopp sy _).
  replace (b - a)%Z with (- (a - b))%Z by lia.
  destruct (a - b)%Z as [|p|p]; simpl.
  - reflexivity.
  - destruct (binary_round_signs p ez) as (_ & -> & ->). reflexivity.
  - apply binary_round_signs.
Qed.

(** [y - x > 0] exactly when [x - y < 0]. *)
Lemma sub_antisym_sign x y : (0 <? y - x)%float = (x - y <? 0)%float.
Proof.
  rewrite !ltb_spec, !sub_spec, Prim2SF_zero. apply SFsub_antisym_sign.
Qed.

Lemma ltb_zero_asym z : (z <? 0)%float = true -> (0 <? z)%float = false.
Proof.
  rewrite !ltb_spec, Prim2SF_zero.
  destruct (Prim2SF z) as [s|s| |s m e]; try destruct s; simpl; intros H;
    try discriminate; reflexivity.
Qed.

Lemma SFcompare_Eq_finite s1 m1 e1 s2 m2 e2 :
  SFcompare (S754_finite s1 m1 e1) (S754_finite s2 m2 e2) = Some Eq ->
  s1 = s2 /\ m1 = m2 /\ e1 = e2.
Proof.
  simpl. destruct s1, s2; try discriminate.
  - destruct (Z.compare_spec e1 e2); try discriminate.
    intros [= H1]. destruct (Pos.compare_cont Eq m1 m2) eqn:E; try discriminate.
    apply Pos.compare_eq in E. auto.
  - destruct (Z.compare_spec e1 e2); try discriminate.
    intros [= H1]. apply Pos.compare_eq in H1. auto.
Qed.

Lemma SFsub_of_equal X Y :
  SFeqb X Y = true ->
  SFltb (SF64sub X Y) (S754_zero false) = false /\
  SFltb (SF64sub Y X) (S754_zero false) = false.
Proof.
  unfold SFeqb.
  destruct X as [sx|sx| |sx mx ex], Y as [sy|sy| |sy my ey];
    try (simpl; discriminate);
    try (destruct sx; try destruct sy; simpl; (discriminate || (split; reflexivity))).
  destruct (SFcompare _ _) as [[]|] eqn:E; try discriminate. intros _.
  apply SFcompare_Eq_finite in E as (-> & -> & ->).
  unfold SF64sub, SFsub. change IntDef.Z.sub with Z.sub.
  rewrite Z.sub_diag. split; reflexivity.
Qed.

(** The difference of two equal numbers is not negative, either way round. *)
Lemma sub_of_equal x y :
  (x =? y)%float = true -> (x - y <? 0)%float = false /\ (y - x <? 0)%float = false.
Proof.
  rewrite FloatAxioms.eqb_spec, !ltb_spec, !sub_spec, Prim2SF_zero. apply SFsub_of_equal.
Qed.

Lemma SF_is_finite y :
  is_finite y = true ->
  (exists s, Prim2SF y = S754_zero s) \/ (exists s m e, Prim2SF y = S754_finite s m e).
Proof.
  unfold is_finite, is_nan, is_infinity.
  rewrite !FloatAxioms.eqb_spec, abs_spec.
  destruct (Prim2SF y) as [s|s| |s m e]; eauto; try destruct s;
    intros H; vm_compute in H; discriminate.
Qed.

Lemma SF_is_zero x : (x =? 0)%float = true -> exists s, Prim2SF x = S754_zero s.
Proof.
  rewrite FloatAxioms.eqb_spec, Prim2SF_zero.
  destruct (Prim2SF x) as [s|s| |s m e]; eauto; simpl; try discriminate; destruct s; discriminate.
Qed.

(** A zero times a finite number is a zero. *)
Lemma zero_times_finite x y :
  (x =? 0)%float = true -> is_finite y = true ->
  (x * y =? 0)%float = true /\ (y * x =? 0)%float = true.
Proof.
  intros Hx Hy. apply SF_is_zero in Hx as [s Hx].
  rewrite !FloatAxioms.eqb_spec, !mul_spec, Prim2SF_zero, Hx.
  apply SF_is_finite in Hy as [[s' ->]|(s' & m & e & ->)]; split; reflexivity.
Qed.

(** ** Cosine similarity *)

Lemma cosine_step_shift x a y b n k acc :
  fold_left (cosine_step (x :: a) (y :: b)) (seq (S k) n) acc
  = fold_left (cosine_step a b) (seq k n) acc.
Proof.
  revert k acc. induction n as [|n IH]; intros k acc; [reflexivity|].
  simpl. rewrite IH. reflexivity.
Qed.

Lemma cosine_loop_from a : forall b d na nb,
  length a = length b ->
  fold_left (cosine_step a b) (seq 0 (length a)) (d, na, nb)
  = (fold_left (fun acc xy => (acc + fst xy * snd xy)%float) (combine a b) d,
     fold_left (fun acc x => (acc + x * x)%float) a na,
     fold_left (fun acc x => (acc + x * x)%float) b nb).
Proof.
  induction a as [|x a IH]; intros [|y b] d na nb Hlen; try discriminate.
  - reflexivity.
  - simpl length. rewrite <- cons_seq. simpl fold_left at 1.
    rewrite cosine_step_shift. rewrite IH by (simpl in Hlen; lia).
    reflexivity.
Qed.

(** On vectors of one length the loop computes the three sums. *)
Lemma cosine_loop_spec a b :
  length a = length b -> cosine_loop a b = (dot a b, sum_squares a, sum_squares b).
Proof. intros H. unfold cosine_loop. now rewrite cosine_loop_from. Qed.

Lemma cosineSimilarity_unfold a b :
  length a = length b ->
  cosineSimilarity a b =
    if (norm a * norm b =? 0)%float then 0%float
    else (dot a b / (norm a * norm b))%float.
Proof.
  intros H. unfold cosineSimilarity. rewrite cosine_loop_spec by exact H. reflexivity.
Qed.

(** Where the guard of [cosineSimilarity] does what it is there for.  For
    vectors of one length the result is the quotient of the dot product by
    the product of the norms whenever that product is not zero, and it is
    exactly 0 when one of the norms is zero and both are finite. *)
Lemma cosineSimilarity_guarded a b :
  length a = length b ->
  ((norm a * norm b =? 0)%float = false ->
   cosineSimilarity a b = (dot a b / (norm a * norm b))%float)
  /\ ((norm a =? 0)%float = true \/ (norm b =? 0)%float = true ->
      is_finite (norm a) = true -> is_finite (norm b) = true ->
      cosineSimilarity a b = 0%float).
Proof.
  intros Hlen. rewrite (cosineSimilarity_unfold _ _ Hlen). split.
  - intros ->. reflexivity.
  - intros [Hz|Hz] Ha Hb.
    + destruct (zero_times_finite _ _ Hz Hb) as [-> _]. reflexivity.
    + destruct (zero_times_finite _ _ Hz Ha) as [_ ->]. reflexivity.
Qed.

Example cosineSimilarity_guarded_at_work :
  cosineSimilarity [3; 4]%float [4; 3]%float
  = (dot [3; 4] [4; 3] / (norm [3; 4] * norm [4; 3]))%float
  /\ cosineSimilarity [3; 4]%float [0; 0]%float = 0%float.
Proof.
  split.
  - apply (cosineSimilarity_guarded [3; 4]%float [4; 3]%float); reflexivity.
  - apply (cosineSimilarity_guarded [3; 4]%float [0; 0]%float);
      [reflexivity | right | |]; reflexivity.
Qed.

(** C8, at the failing input [a = [1e200]], [b = [0]].  The norm of [b] is
    zero, so that the result is specified to be 0.  The sum of squares of
    [a] overflows to Infinity, the denominator [Infinity * 0] is NaN, which
    is not [=== 0]: the guard does not fire and the result [0 / NaN] is
    NaN. *)
Theorem cosineSimilarity_nan_on_overflow :
  let a := [1e200%float] in
  let b := [0%float] in
  length a = length b
  /\ (norm b =? 0)%float = true
  /\ norm a = infinity
  /\ is_nan (norm a * norm b) = true
  /\ is_nan (cosineSimilarity a b) = true
  /\ ~ cosine_as_specified a b.
Proof.
  cbv zeta. repeat split; try reflexivity.
  intros [_ H].
  assert (Hz : (norm [1e200%float] =? 0)%float = true
               \/ (norm [0%float] =? 0)%float = true) by (right; reflexivity).
  apply H in Hz. apply (f_equal is_nan) in Hz. vm_compute in Hz. discriminate.
Qed.

(** ** The vector index: ranking *)

(** [place] puts [x] after a prefix of elements that go strictly before it,
    and in front of the first one that does not. *)
Lemma place_split {A} (before : A -> A -> bool) x s :
  exists s1 s2,
    s = s1 ++ s2 /\ place before x s = s1 ++ x :: s2
    /\ Forall (fun y => before y x = true) s1
    /\ match s2 with [] => True | y :: _ => before y x = false end.
Proof.
  induction s as [|y s IH]; simpl.
  - exists [], []. repeat split; auto.
  - destruct (before y x) eqn:E.
    + destruct IH as (s1 & s2 & -> & -> & Hall & Hnext).
      exists (y :: s1), s2. repeat split; auto.
    + exists [], (y :: s). repeat split; auto.
Qed.

Lemma place_length {A} (before : A -> A -> bool) x s :
  length (place before x s) = S (length s).
Proof.
  destruct (place_split before x s) as (s1 & s2 & -> & -> & _).
  rewrite !length_app. simpl. lia.
Qed.

Lemma stable_sort_length {A} (before : A -> A -> bool) l :
  length (stable_sort before l) = length l.
Proof.
  induction l as [|x l IH]; simpl; [reflexivity|].
  now rewrite place_length, IH.
Qed.

Lemma place_elements {A} (before : A -> A -> bool) x s y :
  y ∈ place before x s <-> y = x \/ y ∈ s.
Proof.
  destruct (place_split before x s) as (s1 & s2 & -> & -> & _).
  rewrite !elem_of_app, elem_of_cons. tauto.
Qed.

Lemma stable_sort_elements {A} (before : A -> A -> bool) l y :
  y ∈ stable_sort before l <-> y ∈ l.
Proof.
  induction l as [|x l IH]; simpl; [tauto|].
  now rewrite place_elements, IH, elem_of_cons.
Qed.


(** So does [sort], whatever the engine does with a comparator that is not
    consistent. *)
Lemma sort_length `{Env} l : length (sort l) = length l.
Proof. unfold sort. destruct (consistent l); apply stable_sort_length. Qed.

Lemma sort_elements `{Env} l y : y ∈ sort l <-> y ∈ l.
Proof. unfold sort. destruct (consistent l); apply stable_sort_elements. Qed.


Lemma place_sorted x s :
  Sorted in_rank_order s -> Sorted in_rank_order (place precedes x s).
Proof.
  induction 1 as [|y s Hs IH Hhd]; simpl.
  - repeat constructor.
  - unfold precedes at 1. destruct (comparefn y x <? 0)%float eqn:E.
    + constructor; [exact IH|].
      destruct s as [|z s]; simpl.
      * constructor. unfold in_rank_order, outranks. now apply ltb_zero_asym.
      * destruct (precedes z x).
        -- constructor. now inversion Hhd.
        -- constructor. unfold in_rank_order, outranks. now apply ltb_zero_asym.
    + constructor; [now constructor|].
      constructor. unfold in_rank_order, outranks.
      unfold comparefn in E. now rewrite sub_antisym_sign.
Qed.

Lemma stable_sort_sorted l : Sorted in_rank_order (stable_sort precedes l).
Proof.
  induction l as [|x l IH]; simpl; [constructor|]. now apply place_sorted.
Qed.

Lemma ForallOrdPairs_app_cons {A} (R : A -> A -> Prop) s1 x s2 :
  ForallOrdPairs R (s1 ++ s2) ->
  Forall (fun y => R y x) s1 -> Forall (R x) s2 ->
  ForallOrdPairs R (s1 ++ x :: s2).
Proof.
  induction s1 as [|y s1 IH]; simpl; intros Hp H1 H2.
  - now constructor.
  - inversion Hp as [|? ? Hy Hrest]; subst. inversion H1; subst.
    constructor.
    + rewrite Forall_app in *. destruct Hy. split; auto.
    + apply IH; auto.
Qed.

(** An entry never passes one it is tied with. *)
Lemma place_stable x s :
  Forall (fun y => (index x < index y)%nat) s ->
  ForallOrdPairs tie_in_order s ->
  ForallOrdPairs tie_in_order (place precedes x s).
Proof.
  intros Hlt Hs.
  destruct (place_split precedes x s) as (s1 & s2 & -> & -> & Hall & _).
  apply ForallOrdPairs_app_cons; auto.
  - eapply Forall_impl; [exact Hall|]. intros y Hy Htie. exfalso.
    unfold tied in Htie. apply sub_of_equal in Htie as [_ Htie].
    unfold precedes, comparefn in Hy. congruence.
  - rewrite Forall_app in Hlt. destruct Hlt as [_ Hlt].
    eapply Forall_impl; [exact Hlt|]. intros y Hy _. exact Hy.
Qed.

Lemma stable_sort_stable l :
  StronglySorted (fun a b => (index a < index b)%nat) l ->
  ForallOrdPairs tie_in_order (stable_sort precedes l).
Proof.
  induction 1 as [|x l Hl IH Hx]; simpl; [constructor|].
  apply place_stable; auto.
  rewrite Forall_forall in *. intros y Hy. apply Hx.
  now apply (stable_sort_elements precedes l y).
Qed.

Lemma similarities_defined {St} q es i (s : St) :
  similarities (Some q) (map Some es) i s = Ok (scores_from q es i) s.
Proof.
  revert i. induction es as [|e es IH]; intros i; [reflexivity|].
  simpl. unfold bind, ret. rewrite IH. reflexivity.
Qed.

Lemma scores_from_length q es i : length (scores_from q es i) = length es.
Proof. revert i. induction es; intros; simpl; auto. Qed.

Lemma scores_from_lookup q es i r :
  r ∈ scores_from q es i ->
  (i <= index r)%nat
  /\ exists e, es !! (index r - i)%nat = Some e /\ score r = cosineSimilarity q e.
Proof.
  revert i. induction es as [|e es IH]; intros i; simpl.
  - intros H. inversion H.
  - rewrite elem_of_cons. intros [->|H].
    + simpl. split; [lia|]. exists e. now rewrite Nat.sub_diag.
    + apply IH in H as (Hi & e' & He & Hs). split; [lia|]. exists e'. split; [|exact Hs].
      replace (index r - i)%nat with (S (index r - S i)) by lia. exact He.
Qed.

Lemma scores_from_increasing q es i :
  StronglySorted (fun a b => (index a < index b)%nat) (scores_from q es i).
Proof.
  revert i. induction es as [|e es IH]; intros i; simpl; constructor; [apply IH|].
  rewrite Forall_forall. intros r Hr. apply scores_from_lookup in Hr as [Hi _]. simpl. lia.
Qed.

(** [slice(0, k)] for a count [k]: the first [k] elements. *)
Lemma slice_top {A} (l : list A) k : 0 <= k -> slice l 0 k = take (Z.to_nat k) l.
Proof.
  intros Hk. unfold slice, rel_index. simpl.
  destruct (Z.ltb_spec k 0); [lia|].
  rewrite (Z.min_l 0) by lia. rewrite Z.sub_0_r. simpl.
  destruct (Z.le_ge_cases k (Z.of_nat (length l))).
  - now rewrite Z.min_l by lia.
  - rewrite Z.min_r by lia. rewrite Nat2Z.id.
    rewrite !take_ge; auto; lia.
Qed.

Lemma slice_map {A B} (f : A -> B) (l : list A) a b :
  slice (map f l) a b = map f (slice l a b).
Proof. unfold slice. rewrite length_map. now rewrite <- fmap_drop, <- fmap_take. Qed.

Lemma Sorted_take {A} (R : A -> A -> Prop) n l : Sorted R l -> Sorted R (take n l).
Proof.
  intros H. revert n. induction H as [|x l Hl IH Hhd]; intros [|n]; simpl; try constructor.
  - apply IH.
  - destruct Hhd; destruct n; simpl; constructor; auto.
Qed.

Lemma ForallOrdPairs_take {A} (R : A -> A -> Prop) n l :
  ForallOrdPairs R l -> ForallOrdPairs R (take n l).
Proof.
  intros H. revert n. induction H as [|x l Hx Hl IH]; intros [|n]; simpl; try constructor.
  - now apply Forall_take.
  - apply IH.
Qed.

Lemma all_defined {A} (l : list (option A)) :
  Forall is_Some l -> exists xs, l = map Some xs.
Proof.
  induction 1 as [|o l [x ->] _ [xs ->]]; [now exists []|]. now exists (x :: xs).
Qed.

Section Index.
Context `{Env}.

Lemma localEmbed_strings {St} (ts : list string) (s : St) :
  _localEmbed (map Some ts) s = Ok (map (fun t => Some (localEmbedding t)) ts) s.
Proof.
  induction ts as [|t ts IH]; [reflexivity|].
  simpl. unfold bind. now rewrite IH.
Qed.

Lemma localEmbed_state {St} texts (s : St) : state_of (_localEmbed texts s) = s.
Proof.
  induction texts as [|[t|] texts IH]; try reflexivity.
  simpl. unfold bind. destruct (_localEmbed texts s); simpl in *; now subst.
Qed.

Lemma localEmbed_result {St} texts (s : St) embs s' :
  _localEmbed texts s = Ok embs s' ->
  length embs = length texts /\ Forall is_Some embs.
Proof.
  revert embs s'. induction texts as [|[t|] texts IH]; intros embs s'; simpl.
  - intros [= <- _]. auto.
  - unfold bind. destruct (_localEmbed texts s) as [vs s1|]; [|discriminate].
    intros [= <- _]. destruct (IH vs s1 eq_refl) as [Hl Hs]. simpl. split; [lia|].
    constructor; eauto.
  - discriminate.
Qed.

(** The embedding of a query: one vector, and nothing changed but the count
    of external calls. *)
Lemma generateEmbeddings_query (query : string) (w : World) :
  embedding_contract ->
  exists q n, generateEmbeddings [Some query] w = Ok [Some q] (with_serial n w).
Proof.
  intros Hc. unfold generateEmbeddings, try_catch.
  destruct has_api_key.
  - unfold _jinaEmbed, bind, next_serial.
    destruct (jinaPost (serial w) [Some query]) as [vs|] eqn:E.
    + apply Hc in E as [Hlen Hall].
      destruct vs as [|[q|] [|? ?]]; try discriminate.
      * exists q, (S (serial w)). reflexivity.
      * inversion Hall as [|? ? [? Hq]]; discriminate.
    + unfold throw. exists (localEmbedding query), (S (serial w)).
      apply (localEmbed_strings [query]).
  - exists (localEmbedding query), (serial w).
    rewrite (localEmbed_strings [query]). now destruct w.
Qed.

(** The embedding call changes nothing but the count of external calls. *)
Lemma generateEmbeddings_state texts w :
  exists n, state_of (generateEmbeddings texts w) = with_serial n w.
Proof.
  unfold generateEmbeddings, try_catch.
  destruct has_api_key.
  - unfold _jinaEmbed, bind, next_serial.
    destruct (jinaPost (serial w) texts); simpl.
    + now exists (S (serial w)).
    + exists (S (serial w)). apply localEmbed_state.
  - exists (serial w).
    pose proof (localEmbed_state texts w) as Hs.
    destruct (_localEmbed texts w) as [vs s|e s]; simpl in *; subst.
    + now destruct w.
    + rewrite localEmbed_state. now destruct w.
Qed.

Lemma generateEmbeddings_result texts w embs w' :
  embedding_contract ->
  generateEmbeddings texts w = Ok embs w' ->
  length embs = length texts /\ Forall is_Some embs.
Proof.
  intros Hc. unfold generateEmbeddings, try_catch.
  destruct has_api_key.
  - unfold _jinaEmbed, bind, next_serial.
    destruct (jinaPost (serial w) texts) as [vs|] eqn:E; simpl.
    + intros [= <- _]. now apply Hc in E.
    + apply localEmbed_result.
  - destruct (_localEmbed texts w) as [vs s|e s] eqn:E.
    + intros [= <- _]. now apply localEmbed_result in E.
    + apply localEmbed_result.
Qed.

Lemma search_empty (query : string) (k : Z) (w : World) :
  documents (vectors w) = [] -> search query k w = Ok [] w.
Proof. intros Hd. unfold search, bind, gets. now rewrite Hd. Qed.

(** What [search] computes on a well-formed index, with the world it
    leaves. *)
Lemma search_ranked (query : string) (k : Z) (w : World) :
  well_formed (vectors w) -> embedding_contract -> 0 <= k ->
  documents (vectors w) <> [] ->
  exists q es n,
    embeddings (vectors w) = map Some es
    /\ search query k w
       = Ok (map (result_of (vectors w)) (take (Z.to_nat k) (sort (scores_from q es 0))))
            (with_serial n w).
Proof.
  intros (Hlen & _ & Hdef) Hc Hk Hne.
  unfold search, bind, gets.
  destruct (documents (vectors w)) as [|d ds] eqn:Hdocs; [congruence|].
  change (length (d :: ds) =? 0)%nat with false. cbv iota.
  destruct (generateEmbeddings_query query w Hc) as (q & n & ->).
  apply all_defined in Hdef as [es Hes].
  change (mjoin (head [Some q])) with (Some q).
  exists q, es, n. split; [exact Hes|].
  rewrite Hes, similarities_defined. unfold ret.
  now rewrite slice_top by exact Hk.
Qed.

(** Where the comparator is consistent because no score is NaN, the results
    are ranked: each is a stored chunk with its cosine similarity to the
    embedding of the query, none is outranked by the one that follows it,
    and results with equal scores stand in insertion order. *)
Lemma consistent_numbers l :
  Forall (fun a => is_nan (score a) = false) l -> consistent l = true.
Proof.
  intros Hall. unfold consistent. apply orb_true_iff. left.
  apply forallb_forall. intros a Ha. apply list_elem_of_In in Ha.
  rewrite Forall_forall in Hall. now rewrite (Hall a Ha).
Qed.

Lemma search_ranks_numbers (query : string) (k : Z) (w : World) q es w0 :
  generateEmbeddings [Some query] w = Ok [Some q] w0 ->
  embeddings (vectors w) = map Some es ->
  documents (vectors w) <> [] -> 0 <= k ->
  Forall (fun e => is_nan (cosineSimilarity q e) = false) es ->
  exists ranked,
    search query k w = Ok (map (result_of (vectors w)) ranked) w0
    /\ Z.of_nat (length ranked) <= k
    /\ Forall (fun r => exists e, es !! index r = Some e
                        /\ score r = cosineSimilarity q e) ranked
    /\ Sorted in_rank_order ranked
    /\ ForallOrdPairs tie_in_order ranked.
Proof.
  intros Hq Hes Hne Hk Hnum.
  assert (Hc : consistent (scores_from q es 0) = true).
  { apply consistent_numbers, Forall_forall. intros r Hr.
    apply scores_from_lookup in Hr as (_ & e & He & ->).
    rewrite Forall_forall in Hnum. apply Hnum.
    eapply list_elem_of_lookup_2; eauto. }
  exists (take (Z.to_nat k) (stable_sort precedes (scores_from q es 0))).
  split; [|split; [|split; [|split]]].
  - unfold search, bind, gets.
    destruct (documents (vectors w)) as [|d ds]; [congruence|].
    change (length (d :: ds) =? 0)%nat with false. cbv iota beta.
    rewrite Hq. change (mjoin (head [Some q])) with (Some q).
    rewrite Hes, similarities_defined. unfold ret, sort. rewrite Hc.
    now rewrite slice_top by exact Hk.
  - rewrite length_take. lia.
  - apply Forall_take. rewrite Forall_forall. intros r Hr.
    apply stable_sort_elements, scores_from_lookup in Hr as (_ & e & He & Hs).
    exists e. now rewrite Nat.sub_0_r in He.
  - apply Sorted_take, stable_sort_sorted.
  - apply ForallOrdPairs_take, stable_sort_stable, scores_from_increasing.
Qed.

(** ** The vector index: adding documents *)

Lemma push_all embs docs : forall i v,
  let v' := fold_left (push_doc embs) (zip (seq i (length docs)) docs) v in
  documents v' = documents v ++ map doc_text docs
  /\ embeddings v' = embeddings v ++ map (fun j => mjoin (embs !! j)) (seq i (length docs))
  /\ metadata v' = metadata v ++ map (fun d => default ∅ (doc_metadata d)) docs
  /\ isLoaded v' = isLoaded v.
Proof.
  induction docs as [|d docs IH]; intros i v; simpl.
  - now rewrite !app_nil_r.
  - destruct (IH (S i) (push_doc embs v (i, d))) as (Hd & He & Hm & Hl).
    simpl in Hd, He, Hm, Hl.
    rewrite Hd, He, Hm, Hl. now rewrite <- !app_assoc.
Qed.

(** C4.  When the embedding call for the batch fails, [addDocuments] fails
    with the same error before it touches the index: the three arrays, hence
    [size()], and the snapshot file are what they were. *)
Theorem addDocuments_all_or_nothing (docs : list doc) (w : World) e w' :
  generateEmbeddings (map doc_text docs) w = Throw e w' ->
  addDocuments docs w = Throw e w'
  /\ vectors w' = vectors w
  /\ length (documents (vectors w')) = length (documents (vectors w))
  /\ disk w' = disk w.
Proof.
  intros Hfail.
  destruct (generateEmbeddings_state (map doc_text docs) w) as [n Hn].
  rewrite Hfail in Hn. simpl in Hn. subst w'.
  unfold addDocuments, bind. rewrite Hfail. auto.
Qed.

(** The other half: once the embeddings are there, the whole batch is
    appended, whatever becomes of the write to disk. *)
Lemma addDocuments_commits (docs : list doc) (w : World) embs w1 :
  generateEmbeddings (map doc_text docs) w = Ok embs w1 ->
  let v' := vectors (state_of (addDocuments docs w)) in
  documents v' = documents (vectors w) ++ map doc_text docs
  /\ embeddings v' = embeddings (vectors w)
                     ++ map (fun j => mjoin (embs !! j)) (seq 0 (length docs))
  /\ metadata v' = metadata (vectors w) ++ map (fun d => default ∅ (doc_metadata d)) docs.
Proof.
  intros Hok.
  destruct (generateEmbeddings_state (map doc_text docs) w) as [n Hn].
  rewrite Hok in Hn. simpl in Hn. subst w1.
  unfold addDocuments, bind. rewrite Hok.
  unfold on_vectors, modify, save. cbn [vectors with_vectors with_serial diskWritable].
  destruct (push_all embs docs 0 (vectors w)) as (Hd & He & Hm & _).
  destruct (diskWritable w); cbn; auto.
Qed.

Lemma lookup_all_defined {A} (embs : list (option A)) :
  Forall is_Some embs ->
  map (fun j => mjoin (embs !! j)) (seq 0 (length embs)) = embs.
Proof.
  intros Hall. apply list_eq. intros i.
  rewrite list_lookup_fmap.
  destruct (decide (i < length embs)%nat) as [Hi|Hi].
  - rewrite lookup_seq_lt by exact Hi. simpl.
    destruct (embs !! i) as [o|] eqn:E; [|apply lookup_ge_None in E; lia].
    simpl. rewrite Forall_forall in Hall.
    destruct (Hall o) as [x ->]; [|reflexivity].
    eapply list_elem_of_lookup_2; eauto.
  - rewrite lookup_seq_ge by lia. simpl. symmetry. apply lookup_ge_None. lia.
Qed.

(** Well-formedness is an invariant of [addDocuments]. *)
Lemma addDocuments_well_formed (docs : list doc) (w : World) :
  embedding_contract -> well_formed (vectors w) ->
  well_formed (vectors (state_of (addDocuments docs w))).
Proof.
  intros Hc (Hle & Hlm & Hall).
  destruct (generateEmbeddings (map doc_text docs) w) as [embs w1|e w1] eqn:E.
  - destruct (addDocuments_commits docs w embs w1 E) as (Hd & He & Hm).
    destruct (generateEmbeddings_result _ _ _ _ Hc E) as [Hlen Hsome].
    rewrite length_map in Hlen. rewrite <- Hlen, (lookup_all_defined _ Hsome) in He.
    unfold well_formed. rewrite Hd, He, Hm, !length_app, !length_map.
    repeat split; try lia. apply Forall_app; auto.
  - destruct (generateEmbeddings_state (map doc_text docs) w) as [n Hn].
    rewrite E in Hn. simpl in Hn. subst w1.
    unfold addDocuments, bind. rewrite E. simpl. repeat split; assumption.
Qed.

End Index.

(** ** Sessions and history *)

Lemma on_redis_ok {A} (c : Z -> M KV.t A) w a r :
  c (now w) (redis w) = Ok a r -> on_redis c w = Ok a (with_redis r w).
Proof. intros E. unfold on_redis, zoom. now rewrite E. Qed.

Lemma with_redis_same w : with_redis (redis w) w = w.
Proof. now destruct w. Qed.

Lemma keys_differ sid : session_key sid <> history_key sid.
Proof. unfold session_key, history_key. simpl. discriminate. Qed.

(** [slice(-n)] for a count [n >= 1]: the last [n] elements, all of them
    when there are fewer. *)
Lemma slice_last {A} (l : list A) n :
  1 <= n -> slice l (- n) (Z.of_nat (length l)) = drop (length l - Z.to_nat n) l.
Proof.
  intros Hn. unfold slice, rel_index.
  destruct (Z.ltb_spec (- n) 0); [|lia].
  destruct (Z.ltb_spec (Z.of_nat (length l)) 0); [lia|].
  rewrite Z.min_id.
  replace (Z.to_nat (Z.max (Z.of_nat (length l) + - n) 0))
    with (length l - Z.to_nat n)%nat by lia.
  apply take_ge. rewrite length_drop. lia.
Qed.

(** [slice(-0)] is [slice(0)]: everything. *)
Lemma slice_minus_zero {A} (l : list A) : slice l (- 0) (Z.of_nat (length l)) = l.
Proof.
  unfold slice, rel_index. simpl.
  destruct (Z.ltb_spec (Z.of_nat (length l)) 0); [lia|].
  rewrite Z.min_id, (Z.min_l 0) by lia. rewrite Z.sub_0_r, Nat2Z.id. simpl.
  now apply take_ge.
Qed.

Section Sessions.
Context `{Env}.
Hypothesis codec : json_codec.
Hypothesis ttl_nonneg : 0 <= sessionTTL.

Lemma refreshed_not_expired t dt :
  0 <= dt <= sessionTTL * 1000 ->
  negb (t + sessionTTL * 1000 =? 0) && (t + sessionTTL * 1000 <? t + dt) = false.
Proof.
  intros Hdt. destruct (Z.ltb_spec (t + sessionTTL * 1000) (t + dt)); [lia|].
  now rewrite andb_false_r.
Qed.

Lemma refreshed_now t :
  negb (t + sessionTTL * 1000 =? 0) && (t + sessionTTL * 1000 <? t) = false.
Proof.
  destruct (Z.ltb_spec (t + sessionTTL * 1000) t); [lia|]. now rewrite andb_false_r.
Qed.

Lemma parse_all_stringified {St} (ms : list jsobject) (s : St) :
  parse_all (map JSON_stringify ms) s = Ok ms s.
Proof.
  destruct codec as [Hrt _].
  induction ms as [|m ms IH]; [reflexivity|].
  simpl. unfold bind, parse. rewrite Hrt. unfold ret. now rewrite IH.
Qed.

Lemma parsed_nonempty s (sd : jsobject) : JSON_parse s = Some sd -> s <> ""%string.
Proof. destruct codec as [_ He]. intros Hp ->. congruence. Qed.

Lemma getSession_live sid sd w :
  live_in (redis w) (now w) sid sd -> getSession sid w = Ok (Some sd) w.
Proof.
  intros (s & Hs & Hp & He).
  unfold getSession, bind.
  rewrite (on_redis_ok _ _ _ _ (get_present _ _ _ _ He Hs (parsed_nonempty _ _ Hp))).
  simpl. unfold parse. rewrite Hp. unfold ret. now rewrite with_redis_same.
Qed.

(** [validateSession] on a live session: true, both expiries pushed back. *)
Lemma validateSession_live sid sd ms w :
  live_in (redis w) (now w) sid sd ->
  history_in (redis w) sid (map JSON_stringify ms) ->
  exists r', validateSession sid w = Ok true (with_redis r' w)
             /\ session_ok r' (now w) sid sd ms.
Proof.
  intros (s & Hs & Hp & He) Hh.
  pose proof (keys_differ sid) as Hne.
  unfold validateSession, bind.
  rewrite (on_redis_ok _ _ _ _ (exists_present _ _ _ _ He Hs)). simpl.
  rewrite with_redis_same.
  rewrite (on_redis_ok _ _ _ _ (expire_present _ _ sessionTTL (now w) _ Hs)).
  set (r1 := {| KV.store := _ |}).
  destruct (KV.store (redis w) !! history_key sid) as [v|] eqn:Ehk.
  - rewrite (on_redis_ok _ (with_redis r1 w) _ _ (expire_present r1 _ sessionTTL (now w) v Ehk)).
    eexists. split; [reflexivity|]. repeat split.
    + exists s. simpl. repeat split; auto.
      unfold KV.expired. simpl.
      rewrite lookup_insert_ne by congruence. rewrite lookup_insert_eq.
      apply refreshed_now.
    + destruct Hh as [Hh|[Hh _]]; [left|congruence]. simpl. congruence.
    + right. unfold KV.expired. simpl. rewrite lookup_insert_eq.
      apply refreshed_now.
  - rewrite (on_redis_ok _ (with_redis r1 w) _ _ (expire_absent r1 _ sessionTTL (now w) Ehk)).
    eexists. split; [reflexivity|]. repeat split.
    + exists s. simpl. repeat split; auto.
      unfold KV.expired. simpl. rewrite lookup_insert_eq.
      apply refreshed_now.
    + destruct Hh as [Hh|[_ Hh]]; [congruence|right]. simpl. auto.
    + left. simpl. exact Ehk.
Qed.

Lemma checkExpiry_session_ok r t sid sd ms :
  session_ok r t sid sd ms ->
  session_ok (KV._checkExpiry (history_key sid) t r) t sid sd ms.
Proof.
  intros Hok. pose proof Hok as ((s & Hs & Hp & He) & Hh & Hf).
  destruct Hf as [Hnone|Hlive]; [|rewrite (checkExpiry_live _ _ _ Hlive); exact Hok].
  assert (Hne : history_key sid <> session_key sid) by (intros E; now apply (keys_differ sid)).
  destruct (checkExpiry_other r _ _ t Hne) as [Hst Hex].
  repeat split.
  - exists s. rewrite Hst, Hex. auto.
  - right. split; [now apply checkExpiry_lookup_None|].
    destruct Hh as [Hh|[_ Hh]]; [congruence|exact Hh].
  - left. now apply checkExpiry_lookup_None.
Qed.

(** [getHistory] slices the stored messages and leaves the session as it is. *)
Lemma getHistory_ok sid sd ms limit w :
  session_ok (redis w) (now w) sid sd ms ->
  exists r', getHistory sid limit w
             = Ok (slice ms (- limit) (Z.of_nat (length ms))) (with_redis r' w)
             /\ session_ok r' (now w) sid sd ms.
Proof.
  intros Hok. pose proof Hok as (Hl & Hh & Hf).
  unfold getHistory, bind.
  destruct Hh as [Hh|[Hh Hnil]].
  - destruct Hf as [Hf|Hf]; [congruence|].
    rewrite (on_redis_ok _ _ _ _ (lrange_list _ _ (- limit) (-1) _ _ Hh Hf)).
    exists (redis w). split; [|exact Hok].
    change (KV.range_end ?n (-1)) with n.
    rewrite slice_map, length_map. apply parse_all_stringified.
  - rewrite (on_redis_ok _ _ _ _ (lrange_absent _ _ (- limit) (-1) (now w) Hh)).
    exists (KV._checkExpiry (history_key sid) (now w) (redis w)).
    split; [|now apply checkExpiry_session_ok].
    destruct ms; [|discriminate]. simpl. unfold ret, slice.
    rewrite drop_nil, take_nil. reflexivity.
Qed.

(** For a limit of at least one, [getHistory] returns the most recent
    [min(limit, k)] of the [k] messages of a session, oldest first. *)
Theorem getHistory_returns_most_recent sid sd ms limit w :
  session_ok (redis w) (now w) sid sd ms -> 1 <= limit ->
  exists recent,
    value_of (getHistory sid limit w) = Some recent
    /\ recent = drop (length ms - Z.to_nat limit) ms
    /\ Z.of_nat (length recent) = Z.min limit (Z.of_nat (length ms)).
Proof.
  intros Hok Hlim.
  destruct (getHistory_ok sid sd ms limit w Hok) as (r' & -> & _).
  rewrite slice_last by exact Hlim.
  eexists. split; [reflexivity|]. split; [reflexivity|].
  rewrite length_drop. lia.
Qed.

(** C7, where it fails.  With limit 0 the range asked of the store is
    [lrange(key, -0, -1)], which is the whole list: [getHistory] returns
    every message of the session, not the most recent [min(0, k) = 0]. *)
Theorem getHistory_zero_returns_everything sid sd ms w :
  session_ok (redis w) (now w) sid sd ms ->
  value_of (getHistory sid 0 w) = Some ms.
Proof.
  intros Hok.
  destruct (getHistory_ok sid sd ms 0 w Hok) as (r' & -> & _).
  simpl value_of. now rewrite slice_minus_zero.
Qed.

(** [addMessage] on a live session: the message is appended, the count
    goes up, both expiries are pushed back. *)
Lemma addMessage_ok sid sd ms role content w :
  live_in (redis w) (now w) sid sd ->
  history_in (redis w) sid (map JSON_stringify ms) ->
  let m := message_of (serial w) (now w) role content in
  exists r', addMessage sid role content w
             = Ok m (with_redis r' (with_serial (S (serial w)) w))
             /\ session_ok r' (now w) sid (counted sd) (ms ++ [m]).
Proof.
  intros Hl Hh m. pose proof Hl as (s & Hs & Hp & He).
  pose proof (keys_differ sid) as Hne.
  destruct codec as [Hrt _].
  unfold addMessage, bind, next_serial, gets. fold m.
  set (w1 := with_serial (S (serial w)) w).
  set (r1 := {| KV.store := <[history_key sid := KV.VList (map JSON_stringify (ms ++ [m]))]>
                              (KV.store (redis w));
                KV.ttls := KV.ttls (redis w) |}).
  assert (Hpush : on_redis (fun _ => KV.rpush (history_key sid) [JSON_stringify m]) w1
                  = Ok (Z.of_nat (length (ms ++ [m]))) (with_redis r1 w1)).
  { apply on_redis_ok. change (redis w1) with (redis w).
    destruct Hh as [Hh|[Hh Hnil]].
    - rewrite (rpush_list _ _ _ _ Hh). unfold r1.
      now rewrite map_app, !length_app, length_map.
    - rewrite (rpush_new _ _ _ Hh). destruct ms; [|discriminate]. reflexivity. }
  change (now w1) with (now w). fold m. rewrite Hpush.
  assert (Hl1 : live_in (redis (with_redis r1 w1)) (now (with_redis r1 w1)) sid sd).
  { exists s. simpl. rewrite lookup_insert_ne by congruence. auto. }
  rewrite (getSession_live _ _ _ Hl1).
  unfold store_session, bind.
  erewrite on_redis_ok by reflexivity. unfold ret at 1.
  set (r2 := {| KV.store := <[session_key sid := _]> _ |}).
  assert (Hh2 : KV.store r2 !! history_key sid
                = Some (KV.VList (map JSON_stringify (ms ++ [m])))).
  { simpl. rewrite lookup_insert_ne by congruence. apply lookup_insert_eq. }
  rewrite (on_redis_ok _ (with_redis r2 (with_redis r1 w1)) _ _
             (expire_present r2 _ sessionTTL (now w) _ Hh2)).
  eexists. split; [reflexivity|]. repeat split.
  - exists (JSON_stringify (counted sd)). simpl. repeat split.
    + apply lookup_insert_eq.
    + apply Hrt.
    + unfold KV.expired. simpl.
      rewrite lookup_insert_ne by congruence. rewrite lookup_insert_eq.
      apply refreshed_now.
  - left. exact Hh2.
  - right. unfold KV.expired. simpl. rewrite lookup_insert_eq. apply refreshed_now.
Qed.

(** [clearHistory] on a live session: the history key is gone, the record is
    rewritten with a count of 0 and a fresh expiry. *)
Lemma clearHistory_ok sid sd w :
  live_in (redis w) (now w) sid sd ->
  exists r', clearHistory sid w = Ok tt (with_redis r' w)
             /\ KV.store r' !! history_key sid = None
             /\ KV.store r' !! session_key sid
                = Some (KV.VStr (JSON_stringify (<["messageCount" := JNum 0]> sd)))
             /\ KV.ttls r' !! session_key sid = Some (now w + sessionTTL * 1000).
Proof.
  intros (s & Hs & Hp & He).
  pose proof (keys_differ sid) as Hne.
  unfold clearHistory, bind.
  erewrite on_redis_ok by reflexivity.
  set (r1 := {| KV.store := delete _ _ |}).
  assert (Hl1 : live_in (redis (with_redis r1 w)) (now (with_redis r1 w)) sid sd).
  { exists s. simpl. rewrite lookup_delete_ne by congruence. repeat split; auto.
    unfold KV.expired in *. simpl. now rewrite lookup_delete_ne by congruence. }
  rewrite (getSession_live _ _ _ Hl1).
  unfold store_session, bind.
  erewrite on_redis_ok by reflexivity. unfold ret.
  eexists. split; [reflexivity|]. simpl. repeat split.
  - rewrite lookup_insert_ne by congruence. apply lookup_delete_eq.
  - apply lookup_insert_eq.
  - apply lookup_insert_eq.
Qed.

(** C9.  On an existing session [clearHistory] succeeds; from then on
    [getHistory] returns the empty array, and as long as the TTL has not run
    out [getSession] returns the record it had with [messageCount] set to 0
    and every other field as it was. *)
Theorem clearHistory_keeps_the_session sid sd w :
  live_in (redis w) (now w) sid sd ->
  exists w',
    clearHistory sid w = Ok tt w'
    /\ (forall limit dt, value_of (getHistory sid limit (later dt w')) = Some [])
    /\ (forall dt, 0 <= dt <= sessionTTL * 1000 ->
          value_of (getSession sid (later dt w'))
          = Some (Some (<["messageCount" := JNum 0]> sd)))
    /\ (<["messageCount" := JNum 0]> sd) !! "messageCount" = Some (JNum 0)
    /\ (forall field, field <> "messageCount"%string ->
          (<["messageCount" := JNum 0]> sd) !! field = sd !! field).
Proof.
  intros Hl.
  destruct (clearHistory_ok sid sd w Hl) as (r' & -> & Hh & Hs & Ht).
  destruct codec as [Hrt _].
  exists (with_redis r' w). split; [reflexivity|]. repeat split.
  - intros limit dt. unfold getHistory, bind.
    rewrite (on_redis_ok _ (later dt (with_redis r' w)) _ _
               (lrange_absent r' _ (- limit) (-1) _ Hh)).
    reflexivity.
  - intros dt Hdt.
    rewrite (getSession_live sid (<["messageCount" := JNum 0]> sd)); [reflexivity|].
    eexists. simpl. split; [exact Hs|]. split; [apply Hrt|].
    unfold KV.expired. rewrite Ht. now apply refreshed_not_expired.
  - apply lookup_insert_eq.
  - intros field Hf. now apply lookup_insert_ne.
Qed.

End Sessions.

Import GeminiService RAGService.

(** ** Retrieval and the pipeline up to it

    Concatenation of strings first. *)

Lemma append_cons c (a b : string) : String c a +:+ b = String c (a +:+ b).
Proof. reflexivity. Qed.

Lemma append_nil (b : string) : "" +:+ b = b.
Proof. reflexivity. Qed.

Lemma append_assoc (a b c : string) : (a +:+ b) +:+ c = a +:+ (b +:+ c).
Proof.
  induction a as [|ch a IH]; [reflexivity|]. rewrite !append_cons. now f_equal.
Qed.

Lemma append_empty (a : string) : a +:+ "" = a.
Proof. induction a as [|ch a IH]; [reflexivity|]. rewrite append_cons. now f_equal. Qed.

Section Retrieval.
Context `{Env}.

(** Functions that never look at the state give the same outcome in any. *)
Lemma localEmbed_any {St T} texts (s : St) (t : T) :
  _localEmbed texts t = map_state (fun _ => t) (_localEmbed texts s).
Proof.
  induction texts as [|[x|] texts IH]; try reflexivity.
  simpl. unfold bind. rewrite IH. now destruct (_localEmbed texts s).
Qed.

Lemma similarities_any {St T} q embs i (s : St) (t : T) :
  similarities q embs i t = map_state (fun _ => t) (similarities q embs i s).
Proof.
  revert i s. induction embs as [|e embs IH]; intros i s; [reflexivity|].
  simpl. unfold bind.
  assert (He : cosineSimilarity_js q e t = map_state (fun _ => t) (cosineSimilarity_js q e s)).
  { unfold cosineSimilarity_js. destruct q as [[|? ?]|], e; reflexivity. }
  rewrite He. destruct (cosineSimilarity_js q e s) as [a s0|]; simpl; [|reflexivity].
  rewrite (IH (S i) s0). destruct (similarities q embs (S i) s0); reflexivity.
Qed.

Lemma generateEmbeddings_frame texts r w :
  generateEmbeddings texts (with_redis r w)
  = map_state (with_redis r) (generateEmbeddings texts w).
Proof.
  unfold generateEmbeddings, try_catch.
  destruct has_api_key.
  - unfold _jinaEmbed, bind, next_serial. simpl.
    destruct (jinaPost (serial w) texts); simpl; [reflexivity|].
    rewrite (localEmbed_any texts tt (with_serial (S (serial w)) (with_redis r w))).
    rewrite (localEmbed_any texts tt (with_serial (S (serial w)) w)).
    now destruct (_localEmbed texts tt).
  - rewrite (localEmbed_any texts tt (with_redis r w)).
    rewrite (localEmbed_any texts tt w).
    destruct (_localEmbed texts tt) as [a s|e s] eqn:E; simpl; [reflexivity|].
    rewrite (localEmbed_any texts tt (with_redis r w)).
    rewrite (localEmbed_any texts tt w).
    rewrite E. reflexivity.
Qed.

(** Retrieval does not look at the store. *)
Lemma search_frame query k r w :
  search query k (with_redis r w) = map_state (with_redis r) (search query k w).
Proof.
  unfold search, bind, gets.
  change (vectors (with_redis r w)) with (vectors w).
  destruct (length (documents (vectors w)) =? 0)%nat; [reflexivity|].
  rewrite generateEmbeddings_frame.
  destruct (generateEmbeddings [Some query] w) as [embs w1|e w1] eqn:E; simpl; [|reflexivity].
  rewrite (similarities_any _ _ _ tt (with_redis r w1)).
  rewrite (similarities_any _ _ _ tt w1).
  now destruct (similarities _ _ _ tt).
Qed.

(** ... and changes nothing but the count of external calls. *)
Lemma search_state query k w :
  exists n, state_of (search query k w) = with_serial n w.
Proof.
  unfold search, bind, gets.
  destruct (length (documents (vectors w)) =? 0)%nat.
  - exists (serial w). now destruct w.
  - destruct (generateEmbeddings_state [Some query] w) as [n Hn].
    destruct (generateEmbeddings [Some query] w) as [embs w1|e w1]; simpl in Hn; subst.
    + exists n.
      rewrite (similarities_any _ _ _ tt (with_serial n w)).
      now destruct (similarities _ _ _ tt).
    + now exists n.
Qed.

End Retrieval.

Lemma ensure_initialized_ok w :
  ensure_initialized w = Ok tt (initialized w)
  /\ redis (initialized w) = redis w
  /\ now (initialized w) = now w
  /\ serial (initialized w) = serial w
  /\ generationCalls (initialized w) = generationCalls w
  /\ delivered (initialized w) = delivered w.
Proof.
  unfold initialized, ensure_initialized, bind, gets.
  destruct (isInitialized w) eqn:Ei; [simpl; auto 10|].
  unfold RAGService.initialize, VectorStore.initialize, bind, try_catch, load, on_vectors, modify.
  destruct (disk w); simpl; auto 10.
Qed.

Section Pipeline.
Context `{Env}.
Hypothesis codec : json_codec.
Hypothesis ttl_nonneg : 0 <= sessionTTL.

(** The steps up to retrieval, on a live session. *)
Lemma pipeline_prefix sid sd ms w :
  live_in (redis w) (now w) sid sd ->
  history_in (redis w) sid (map JSON_stringify ms) ->
  exists r1 r2,
    ensure_initialized w = Ok tt (initialized w)
    /\ validateSession sid (initialized w) = Ok true (with_redis r1 (initialized w))
    /\ getHistory sid 10 (with_redis r1 (initialized w))
       = Ok (slice ms (- 10) (Z.of_nat (length ms))) (with_redis r2 (initialized w))
    /\ session_ok r2 (now w) sid sd ms.
Proof.
  intros Hl Hh.
  destruct (ensure_initialized_ok w) as (Hinit & Hr & Hn & _).
  rewrite <- Hr, <- Hn in Hl. rewrite <- Hr in Hh.
  destruct (validateSession_live ttl_nonneg sid sd ms _ Hl Hh) as (r1 & Hv & Hok1).
  destruct (getHistory_ok codec sid sd ms 10 (with_redis r1 (initialized w)) Hok1)
    as (r2 & Hg & Hok2).
  exists r1, r2. rewrite <- Hn. auto.
Qed.

(** C5.  On a live session and an empty corpus both entry points return the
    canned answer with no sources; the history gains the user turn and the
    canned answer as the assistant turn, the message count goes up by two,
    and no request is sent to the generation model.  The streaming entry
    point hands the canned answer to the sink, once. *)
Theorem empty_corpus_gets_canned_answer sid query sd ms w :
  live_in (redis w) (now w) sid sd ->
  history_in (redis w) sid (map JSON_stringify ms) ->
  documents (vectors (initialized w)) = [] ->
  let user := message_of (serial w) (now w) "user" query in
  let assistant := message_of (S (serial w)) (now w) "assistant" noDocsResponse in
  let canned := {| answer := noDocsResponse; sources := [] |} in
  (exists w',
     processQuery sid query w = Ok canned w'
     /\ session_ok (redis w') (now w') sid (counted (counted sd)) (ms ++ [user; assistant])
     /\ generationCalls w' = generationCalls w
     /\ delivered w' = delivered w)
  /\ (exists w',
        processQueryStream sid query (Some collect) w = Ok canned w'
        /\ session_ok (redis w') (now w') sid (counted (counted sd)) (ms ++ [user; assistant])
        /\ generationCalls w' = generationCalls w
        /\ delivered w' = delivered w ++ [noDocsResponse]).
Proof.
  intros Hl Hh Hempty user assistant canned.
  destruct (pipeline_prefix sid sd ms w Hl Hh) as (r1 & r2 & Hinit & Hv & Hg & Hok).
  destruct (ensure_initialized_ok w) as (_ & _ & Hn & Hser & Hgc & Hdl).
  set (w2 := with_redis r2 (initialized w)).
  assert (Hs : search query topK w2 = Ok [] w2) by now apply search_empty.
  destruct Hok as (Hl2 & Hh2 & _).
  destruct (addMessage_ok codec ttl_nonneg sid sd ms "user" query w2)
    as (r3 & Ha1 & (Hl3 & Hh3 & _));
    [unfold w2; simpl; rewrite Hn; exact Hl2 | exact Hh2 |].
  set (w3 := with_redis r3 (with_serial (S (serial w2)) w2)) in *.
  destruct (addMessage_ok codec ttl_nonneg sid (counted sd) (ms ++ [message_of (serial w2) (now w2) "user" query])
              "assistant" noDocsResponse w3)
    as (r4 & Ha2 & Hok4); [exact Hl3 | exact Hh3 |].
  assert (Hu : message_of (serial w2) (now w2) "user" query = user).
  { unfold user. simpl. now rewrite Hser, Hn. }
  assert (Has : message_of (serial w3) (now w3) "assistant" noDocsResponse = assistant).
  { unfold assistant. simpl. now rewrite Hser, Hn. }
  rewrite Hu in *. rewrite Has in *.
  rewrite <- app_assoc in Hok4. simpl in Hok4.
  split.
  - eexists. split.
    + unfold processQuery, bind. rewrite Hinit, Hv. cbn beta iota delta [negb].
      rewrite Hg. fold w2. rewrite Hs. cbn beta iota delta [Nat.eqb length].
      rewrite Ha1. rewrite Ha2. reflexivity.
    + simpl. rewrite Hgc, Hdl. auto.
  - eexists. split.
    + unfold processQueryStream, bind. rewrite Hinit, Hv. cbn beta iota delta [negb].
      rewrite Hg. fold w2. rewrite Hs. cbn beta iota delta [Nat.eqb length].
      rewrite Ha1. rewrite Ha2. reflexivity.
    + simpl. rewrite Hgc, Hdl. auto.
Qed.

End Pipeline.
(** ** Generation *)

Lemma with_delivered_same w : with_delivered (delivered w) w = w.
Proof. now destruct w. Qed.

Lemma concat_cons c cs : String.concat "" (c :: cs) = c +:+ String.concat "" cs.
Proof. destruct cs as [|c' cs]; [symmetry; apply append_empty | reflexivity]. Qed.

(** The collecting sink receives every chunk, in order, and the text built
    up is their concatenation. *)
Lemma consume_collect cs : forall acc w,
  consume (Some collect) cs acc w
  = Ok (acc +:+ String.concat "" cs) (with_delivered (delivered w ++ cs) w).
Proof.
  induction cs as [|c cs IH]; intros acc w.
  - cbn [consume String.concat]. unfold ret.
    now rewrite append_empty, app_nil_r, with_delivered_same.
  - cbn [consume]. unfold bind, collect, modify. rewrite IH.
    rewrite concat_cons, append_assoc. f_equal.
    cbn [delivered with_delivered]. now rewrite <- app_assoc.
Qed.

(** The texts derived from the retrieved passages are defined as soon as
    every passage has a text, and do not depend on the state. *)
Lemma fallback_sources_defined docs : forall i,
  Forall (fun d => is_Some (hit_text d)) docs ->
  exists l, forall St (s : St), fallback_sources docs i s = Ok l s.
Proof.
  induction docs as [|d docs IH]; intros i Hall.
  - now exists [].
  - inversion Hall as [|? ? [t Ht] Hrest]; subst.
    destruct (IH (S i) Hrest) as [l Hl].
    eexists. intros St s. cbn [fallback_sources]. unfold bind, excerpt.
    rewrite Ht. unfold ret at 1. rewrite Hl. reflexivity.
Qed.

Lemma Forall_slice {A} (P : A -> Prop) (l : list A) a b :
  Forall P l -> Forall P (slice l a b).
Proof. intros Hl. unfold slice. now apply Forall_take, Forall_drop. Qed.

Lemma fallbackResponse_defined docs :
  Forall (fun d => is_Some (hit_text d)) docs ->
  exists fb, forall St (s : St), fallbackResponse docs s = Ok fb s.
Proof.
  intros Hall.
  destruct (fallback_sources_defined (slice docs 0 3) 0 (Forall_slice _ _ _ _ Hall))
    as [l Hl].
  eexists. intros St s. unfold fallbackResponse, bind. rewrite Hl. reflexivity.
Qed.

Section Generation.
Context `{Env}.

Lemma sources_of_defined docs :
  Forall (fun d => is_Some (hit_text d)) docs ->
  exists srcs, length srcs = length docs
               /\ forall St (s : St), sources_of docs s = Ok srcs s.
Proof.
  induction docs as [|d docs IH]; intros Hall.
  - now exists [].
  - inversion Hall as [|? ? [t Ht] Hrest]; subst.
    destruct (IH Hrest) as (l & Hlen & Hl).
    eexists. split; [|intros St s; cbn [sources_of]; unfold bind, excerpt;
                      rewrite Ht; unfold ret at 1; rewrite Hl; reflexivity].
    simpl. now rewrite Hlen.
Qed.

Lemma generateResponse_outcome query docs hist w :
  let contents := contents_of query docs hist in
  generateResponse query docs hist w
  = match generateContent (serial w) contents with
    | Generated a => Ok a (requested contents w)
    | GenerationFailed _ =>
        Throw (Error "Failed to generate response from Gemini API") (requested contents w)
    end.
Proof.
  intros contents. unfold generateResponse, try_catch, bind, next_serial, log_call, modify.
  fold contents. cbn [serial with_serial].
  now destruct (generateContent (serial w) contents).
Qed.

Lemma streamResponse_complete query docs hist w :
  let contents := contents_of query docs hist in
  let result := generateContentStream (serial w) contents in
  failure result = None ->
  streamResponse query docs hist (Some collect) w
  = Ok (String.concat "" (chunks result))
       (with_delivered (delivered w ++ chunks result) (requested contents w)).
Proof.
  intros contents result Hf.
  unfold streamResponse, try_catch, bind, next_serial, log_call, modify.
  fold contents. cbn [serial with_serial]. fold result.
  rewrite consume_collect, Hf. reflexivity.
Qed.

Lemma streamResponse_rate_limited query docs hist w fb :
  let contents := contents_of query docs hist in
  let result := generateContentStream (serial w) contents in
  failure result = Some (Some 429) ->
  (forall St (s : St), fallbackResponse docs s = Ok fb s) ->
  streamResponse query docs hist (Some collect) w
  = Ok fb (with_delivered (delivered w ++ chunks result ++ [fb]) (requested contents w)).
Proof.
  intros contents result Hf Hfb.
  unfold streamResponse, try_catch, bind, next_serial, log_call, modify.
  fold contents. cbn [serial with_serial]. fold result.
  rewrite consume_collect, Hf. unfold throw. cbn iota beta.
  rewrite Hfb. unfold collect, modify, ret.
  cbn [delivered with_delivered]. now rewrite <- app_assoc.
Qed.

Lemma streamResponse_failed query docs hist w status :
  let contents := contents_of query docs hist in
  let result := generateContentStream (serial w) contents in
  failure result = Some status -> status <> Some 429 ->
  streamResponse query docs hist (Some collect) w
  = Throw (Error "Failed to stream response from Gemini API")
          (with_delivered (delivered w ++ chunks result) (requested contents w)).
Proof.
  intros contents result Hf Hs.
  unfold streamResponse, try_catch, bind, next_serial, log_call, modify.
  fold contents. cbn [serial with_serial]. fold result.
  rewrite consume_collect, Hf. unfold throw.
  destruct status as [z|]; [|reflexivity].
  destruct z as [|p|p]; try reflexivity.
  do 9 (destruct p as [p|p|]; try reflexivity).
  congruence.
Qed.

End Generation.

Section Answering.
Context `{Env}.
Hypothesis codec : json_codec.
Hypothesis ttl_nonneg : 0 <= sessionTTL.
Hypothesis contract : embedding_contract.

(** On a corpus of texts retrieval returns passages, each with its text. *)
Lemma search_hits query w :
  well_formed (vectors w) ->
  documents (vectors w) <> [] ->
  Forall is_Some (documents (vectors w)) ->
  exists docs n,
    search query topK w = Ok docs (with_serial n w)
    /\ docs <> []
    /\ Forall (fun d => is_Some (hit_text d)) docs.
Proof.
  intros Hwf Hne Htexts.
  destruct (search_ranked query topK w Hwf contract) as (q & es & n & Hes & Hs);
    [unfold topK; lia | exact Hne |].
  destruct Hwf as (Hlen & _ & _).
  rewrite Hes, length_map in Hlen.
  eexists. exists n. split; [exact Hs|]. split.
  - intros Hnil. apply (f_equal length) in Hnil.
    rewrite length_map, length_take, sort_length, scores_from_length in Hnil.
    destruct (documents (vectors w)); [congruence|].
    cbn [length] in Hlen, Hnil. unfold topK in Hnil.
    change (Z.to_nat 5) with 5%nat in Hnil. lia.
  - apply Forall_map, Forall_take. rewrite Forall_forall. intros r Hr.
    apply sort_elements, scores_from_lookup in Hr as (_ & e & He & _).
    apply lookup_lt_Some in He. rewrite Nat.sub_0_r, Hlen in He.
    destruct (lookup_lt_is_Some_2 _ _ He) as [t Ht].
    unfold result_of. cbn [hit_text]. rewrite Ht.
    rewrite Forall_forall in Htexts.
    destruct (Htexts t (list_elem_of_lookup_2 _ _ _ Ht)) as [s ->].
    now exists s.
Qed.

(** The steps both entry points share up to the request to the model, on a
    live session and a corpus of texts: the user turn is stored, and what
    is left to run is generation, the assistant turn and the sources. *)
Lemma answering_prefix sid query sd ms w :
  live_in (redis w) (now w) sid sd ->
  history_in (redis w) sid (map JSON_stringify ms) ->
  well_formed (vectors (initialized w)) ->
  documents (vectors (initialized w)) <> [] ->
  Forall is_Some (documents (vectors (initialized w))) ->
  exists docs n r,
    search query topK (initialized w) = Ok docs (with_serial n (initialized w))
    /\ Forall (fun d => is_Some (hit_text d)) docs
    /\ session_ok r (now w) sid (counted sd) (ms ++ [message_of n (now w) "user" query])
    /\ let w' := with_redis r (with_serial (S n) (initialized w)) in
       let hist := map turn_of (slice ms (- 10) (Z.of_nat (length ms))) in
       processQuery sid query w
       = (answer <- generateResponse query docs hist ;;
          addMessage sid "assistant" answer ;;;
          srcs <- sources_of docs ;;
          ret {| answer := answer; sources := srcs |}) w'
       /\ forall onChunk,
            processQueryStream sid query onChunk w
            = (answer <- streamResponse query docs hist onChunk ;;
               addMessage sid "assistant" answer ;;;
               srcs <- sources_of docs ;;
               ret {| answer := answer; sources := srcs |}) w'.
Proof.
  intros Hl Hh Hwf Hne Htexts.
  destruct (pipeline_prefix codec ttl_nonneg sid sd ms w Hl Hh)
    as (r1 & r2 & Hinit & Hv & Hg & Hok).
  destruct (ensure_initialized_ok w) as (_ & _ & Hn & _).
  destruct (search_hits query (initialized w) Hwf Hne Htexts)
    as (docs & n & Hs & Hdocs & Hall).
  set (w2 := with_redis r2 (initialized w)).
  assert (Hs2 : search query topK w2 = Ok docs (with_serial n w2)).
  { unfold w2. rewrite search_frame, Hs. reflexivity. }
  destruct Hok as (Hl2 & Hh2 & _).
  destruct (addMessage_ok codec ttl_nonneg sid sd ms "user" query (with_serial n w2))
    as (r3 & Ha & Hok3);
    [cbn [redis now with_serial with_redis w2]; rewrite Hn; exact Hl2 | exact Hh2 |].
  cbn [serial now with_serial with_redis w2] in Ha, Hok3. rewrite Hn in Ha, Hok3.
  exists docs, n, r3.
  split; [exact Hs|]. split; [exact Hall|]. split; [exact Hok3|].
  destruct docs as [|d docs]; [congruence|].
  split; [|intros onChunk].
  - unfold processQuery. unfold bind at 1 2 3 4. rewrite Hinit, Hv.
    cbn beta iota delta [negb]. rewrite Hg. fold w2. rewrite Hs2.
    cbn beta iota delta [Nat.eqb length]. unfold bind at 1. rewrite Ha. reflexivity.
  - unfold processQueryStream. unfold bind at 1 2 3 4. rewrite Hinit, Hv.
    cbn beta iota delta [negb]. rewrite Hg. fold w2. rewrite Hs2.
    cbn beta iota delta [Nat.eqb length]. unfold bind at 1. rewrite Ha. reflexivity.
Qed.

(** C1 (amended).  On a live session and a corpus of texts, a failure of
    generation is survived in one case only.  When the model's stream fails
    with an error whose status is 429 (rate limiting), the streaming entry
    point does not abort: the answer is the summary [fallbackResponse] makes
    of the retrieved passages, it is stored as the assistant turn after the
    user turn, and it is returned with the sources.  When the stream fails
    in any other way, and when the blocking call of [processQuery] fails,
    whatever the status, the entry point throws after the user turn has been
    stored, and no assistant turn is. *)
Theorem only_a_rate_limited_stream_falls_back sid query sd ms w :
  live_in (redis w) (now w) sid sd ->
  history_in (redis w) sid (map JSON_stringify ms) ->
  well_formed (vectors (initialized w)) ->
  documents (vectors (initialized w)) <> [] ->
  Forall is_Some (documents (vectors (initialized w))) ->
  exists docs w0 fallback srcs,
    search query topK (initialized w) = Ok docs w0
    /\ fallbackResponse docs w0 = Ok fallback w0
    /\ sources_of docs w0 = Ok srcs w0
    /\ let request :=
         contents_of query docs (map turn_of (slice ms (- 10) (Z.of_nat (length ms)))) in
       let n := S (serial w0) in
       let user := message_of (serial w0) (now w) "user" query in
       let assistant := message_of (S n) (now w) "assistant" fallback in
       (failure (generateContentStream n request) = Some (Some 429) ->
          exists w',
            processQueryStream sid query (Some collect) w
            = Ok {| answer := fallback; sources := srcs |} w'
            /\ session_ok (redis w') (now w') sid (counted (counted sd))
                          (ms ++ [user; assistant])
            /\ generationCalls w' = generationCalls w ++ [request])
       /\ (forall status,
             failure (generateContentStream n request) = Some status ->
             status <> Some 429 ->
             exists w',
               processQueryStream sid query (Some collect) w
               = Throw (Error "Failed to stream response from Gemini API") w'
               /\ session_ok (redis w') (now w') sid (counted sd) (ms ++ [user]))
       /\ (forall status,
             generateContent n request = GenerationFailed status ->
             exists w',
               processQuery sid query w
               = Throw (Error "Failed to generate response from Gemini API") w'
               /\ session_ok (redis w') (now w') sid (counted sd) (ms ++ [user])).
Proof.
  intros Hl Hh Hwf Hne Htexts.
  destruct (answering_prefix sid query sd ms w Hl Hh Hwf Hne Htexts)
    as (docs & n & r & Hs & Hall & Hok & Hblocking & Hstream).
  destruct (ensure_initialized_ok w) as (_ & _ & Hn & _ & Hgc & Hdl).
  destruct (fallbackResponse_defined docs Hall) as [fb Hfb].
  destruct (sources_of_defined docs Hall) as (srcs & _ & Hsrcs).
  exists docs, (with_serial n (initialized w)), fb, srcs.
  split; [exact Hs|]. split; [apply Hfb|]. split; [apply Hsrcs|].
  cbv zeta. cbn [serial with_serial].
  set (hist := map turn_of (slice ms (- 10) (Z.of_nat (length ms)))) in *.
  set (w3 := with_redis r (with_serial (S n) (initialized w))) in *.
  split; [|split].
  - intros Hlimited.
    pose proof (streamResponse_rate_limited query docs hist w3 fb Hlimited Hfb) as Hsr.
    cbv zeta in Hsr.
    set (w4 := with_delivered _ (requested _ w3)) in Hsr.
    destruct Hok as (Hl3 & Hh3 & _).
    destruct (addMessage_ok codec ttl_nonneg sid (counted sd)
                (ms ++ [message_of n (now w) "user" query]) "assistant" fb w4)
      as (r4 & Ha & Hok4);
      [cbn [redis now w4 w3 with_delivered requested with_generationCalls with_serial
              with_redis];
       rewrite Hn; exact Hl3 | exact Hh3 |].
    eexists. split; [|split].
    + rewrite Hstream. unfold bind. rewrite Hsr, Ha, Hsrcs. reflexivity.
    + cbn [serial now redis w4 w3 with_delivered requested with_generationCalls
             with_serial with_redis] in Hok4 |- *.
      rewrite Hn in Hok4 |- *. now rewrite <- app_assoc in Hok4.
    + cbn [generationCalls w4 w3 with_delivered requested with_generationCalls
             with_serial with_redis].
      now rewrite Hgc.
  - intros status Hf Hstatus.
    eexists. split.
    + rewrite Hstream. unfold bind.
      rewrite (streamResponse_failed query docs hist w3 status Hf Hstatus). reflexivity.
    + cbn [redis now w3 requested with_generationCalls with_serial with_redis
             with_delivered].
      now rewrite Hn.
  - intros status Hf.
    eexists. split.
    + rewrite Hblocking. unfold bind. rewrite generateResponse_outcome.
      fold hist. change (serial w3) with (S n). rewrite Hf. reflexivity.
    + cbn [redis now w3 requested with_generationCalls with_serial with_redis].
      now rewrite Hn.
Qed.

(** A failure of the blocking model call aborts [processQuery], whatever the
    status: the user turn is stored, no assistant turn is. *)
Theorem blocking_generation_failure_aborts sid query sd ms w :
  live_in (redis w) (now w) sid sd ->
  history_in (redis w) sid (map JSON_stringify ms) ->
  well_formed (vectors (initialized w)) ->
  documents (vectors (initialized w)) <> [] ->
  Forall is_Some (documents (vectors (initialized w))) ->
  (forall n contents, exists status, generateContent n contents = GenerationFailed status) ->
  exists n w',
    processQuery sid query w
    = Throw (Error "Failed to generate response from Gemini API") w'
    /\ session_ok (redis w') (now w') sid (counted sd)
                  (ms ++ [message_of n (now w) "user" query]).
Proof.
  intros Hl Hh Hwf Hne Htexts Hfail.
  destruct (answering_prefix sid query sd ms w Hl Hh Hwf Hne Htexts)
    as (docs & n & r & _ & _ & Hok & Hblocking & _).
  destruct (ensure_initialized_ok w) as (_ & _ & Hn & _).
  exists n. eexists. split.
  - rewrite Hblocking. unfold bind. rewrite generateResponse_outcome.
    destruct (Hfail (serial (with_redis r (with_serial (S n) (initialized w))))
                (contents_of query docs
                   (map turn_of (slice ms (- 10) (Z.of_nat (length ms))))))
      as [status ->].
    reflexivity.
  - cbn [redis now requested with_generationCalls with_serial with_redis].
    now rewrite Hn.
Qed.

(** A failure of the stream with a status other than 429 aborts
    [processQueryStream] in the same way. *)
Theorem stream_failure_aborts_unless_rate_limited sid query sd ms w :
  live_in (redis w) (now w) sid sd ->
  history_in (redis w) sid (map JSON_stringify ms) ->
  well_formed (vectors (initialized w)) ->
  documents (vectors (initialized w)) <> [] ->
  Forall is_Some (documents (vectors (initialized w))) ->
  (forall n contents, exists status,
      failure (generateContentStream n contents) = Some status /\ status <> Some 429) ->
  exists n w',
    processQueryStream sid query (Some collect) w
    = Throw (Error "Failed to stream response from Gemini API") w'
    /\ session_ok (redis w') (now w') sid (counted sd)
                  (ms ++ [message_of n (now w) "user" query]).
Proof.
  intros Hl Hh Hwf Hne Htexts Hfail.
  destruct (answering_prefix sid query sd ms w Hl Hh Hwf Hne Htexts)
    as (docs & n & r & _ & _ & Hok & _ & Hstream).
  destruct (ensure_initialized_ok w) as (_ & _ & Hn & _).
  exists n. eexists. split.
  - rewrite Hstream. unfold bind.
    destruct (Hfail (serial (with_redis r (with_serial (S n) (initialized w))))
                (contents_of query docs
                   (map turn_of (slice ms (- 10) (Z.of_nat (length ms))))))
      as (status & Hf & Hs).
    rewrite (streamResponse_failed _ _ _ _ status Hf Hs). reflexivity.
  - cbn [redis now requested with_generationCalls with_serial with_redis with_delivered].
    now rewrite Hn.
Qed.

(** When the stream runs to its end, the sink has received the chunks of
    the stream, each as it came and in the order in which they came, by the
    time the call returns; the answer returned is their concatenation, and
    it is what is stored as the assistant turn. *)
Theorem complete_stream_is_the_answer sid query sd ms w :
  live_in (redis w) (now w) sid sd ->
  history_in (redis w) sid (map JSON_stringify ms) ->
  well_formed (vectors (initialized w)) ->
  documents (vectors (initialized w)) <> [] ->
  Forall is_Some (documents (vectors (initialized w))) ->
  exists docs w0 srcs,
    search query topK (initialized w) = Ok docs w0
    /\ sources_of docs w0 = Ok srcs w0
    /\ let request :=
         contents_of query docs (map turn_of (slice ms (- 10) (Z.of_nat (length ms)))) in
       let stream := generateContentStream (S (serial w0)) request in
       let answer := String.concat "" (chunks stream) in
       failure stream = None ->
       exists w',
         processQueryStream sid query (Some collect) w
         = Ok {| answer := answer; sources := srcs |} w'
         /\ delivered w' = delivered w ++ chunks stream
         /\ generationCalls w' = generationCalls w ++ [request]
         /\ session_ok (redis w') (now w') sid (counted (counted sd))
              (ms ++ [message_of (serial w0) (now w) "user" query;
                      message_of (S (S (serial w0))) (now w) "assistant" answer]).
Proof.
  intros Hl Hh Hwf Hne Htexts.
  destruct (answering_prefix sid query sd ms w Hl Hh Hwf Hne Htexts)
    as (docs & n & r & Hs & Hall & Hok & _ & Hstream).
  destruct (ensure_initialized_ok w) as (_ & _ & Hn & _ & Hgc & Hdl).
  destruct (sources_of_defined docs Hall) as (srcs & _ & Hsrcs).
  exists docs, (with_serial n (initialized w)), srcs.
  split; [exact Hs|]. split; [apply Hsrcs|].
  cbv zeta. cbn [serial with_serial]. intros Hdone.
  set (hist := map turn_of (slice ms (- 10) (Z.of_nat (length ms)))) in *.
  set (w3 := with_redis r (with_serial (S n) (initialized w))) in *.
  pose proof (streamResponse_complete query docs hist w3 Hdone) as Hsr.
  cbv zeta in Hsr.
  set (w4 := with_delivered _ (requested _ w3)) in Hsr.
  destruct Hok as (Hl3 & Hh3 & _).
  destruct (addMessage_ok codec ttl_nonneg sid (counted sd)
              (ms ++ [message_of n (now w) "user" query]) "assistant"
              (String.concat "" (chunks (generateContentStream (serial w3)
                                           (contents_of query docs hist)))) w4)
    as (r4 & Ha & Hok4);
    [cbn [redis now w4 w3 with_delivered requested with_generationCalls with_serial with_redis];
     rewrite Hn; exact Hl3 | exact Hh3 |].
  eexists. split; [|split; [|split]].
  - rewrite Hstream. unfold bind. rewrite Hsr, Ha, Hsrcs. reflexivity.
  - cbn [delivered w4 w3 with_delivered requested with_generationCalls with_serial
           with_redis].
    now rewrite Hdl.
  - cbn [generationCalls w4 w3 with_delivered requested with_generationCalls with_serial
           with_redis].
    now rewrite Hgc.
  - cbn [serial now redis w4 w3 with_delivered requested with_generationCalls
           with_serial with_redis] in Hok4 |- *.
    rewrite Hn in Hok4 |- *. now rewrite <- app_assoc in Hok4.
Qed.

End Answering.

(** ** The examples

    The hypotheses of the theorems above hold in the concrete environment:
    its codec can be inverted, its sessions are live, its corpus is a
    corpus of texts.  The codec first. *)

Lemma dec_enc_nat n rest : Demo.dec_nat (Demo.enc_nat n +:+ rest) = Some (n, rest).
Proof.
  induction n as [|n IH]; [reflexivity|].
  cbn [Demo.enc_nat]. rewrite append_cons. cbn [Demo.dec_nat]. now rewrite IH.
Qed.

Lemma take_chars_append s rest :
  Demo.take_chars (String.length s) (s +:+ rest) = Some (s, rest).
Proof.
  induction s as [|c s IH]; [reflexivity|].
  rewrite append_cons. cbn [String.length Demo.take_chars]. now rewrite IH.
Qed.

Lemma dec_enc_str s rest : Demo.dec_str (Demo.enc_str s +:+ rest) = Some (s, rest).
Proof.
  unfold Demo.dec_str, Demo.enc_str.
  rewrite append_assoc, dec_enc_nat. apply take_chars_append.
Qed.

Lemma dec_enc_prim v rest : Demo.dec_prim (Demo.enc_prim v +:+ rest) = Some (v, rest).
Proof.
  destruct v as [|[|]|n|s]; try reflexivity.
  - unfold Demo.enc_prim.
    destruct (Z.ltb_spec n 0); rewrite append_assoc, append_cons, append_nil;
      cbn [Demo.dec_prim]; rewrite dec_enc_nat; repeat f_equal; lia.
  - unfold Demo.enc_prim. rewrite append_assoc, append_cons, append_nil.
    cbn [Demo.dec_prim]. now rewrite dec_enc_str.
Qed.

Lemma dec_enc_fields l rest :
  Demo.dec_fields (length l) (Demo.enc_fields l +:+ rest) = Some (l, rest).
Proof.
  induction l as [|[k v] l IH]; [reflexivity|].
  cbn [length Demo.enc_fields Demo.dec_fields].
  rewrite !append_assoc, dec_enc_str, dec_enc_prim, IH. reflexivity.
Qed.

Lemma demo_codec blocking streaming : json_codec (H := Demo.env_with blocking streaming).
Proof.
  split; [|reflexivity].
  intros o. cbn [JSON_parse JSON_stringify Demo.env_with]. unfold Demo.parse, Demo.stringify.
  rewrite dec_enc_nat.
  rewrite <- (append_empty (Demo.enc_fields _)), dec_enc_fields.
  now rewrite list_to_map_to_list.
Qed.

Lemma demo_contract blocking streaming :
  embedding_contract (H := Demo.env_with blocking streaming).
Proof. intros n texts vs. discriminate. Qed.

(** The session and the corpus of the examples. *)

Lemma demo_ttl blocking streaming : 0 <= sessionTTL (Env := Demo.env_with blocking streaming).
Proof. cbn. lia. Qed.

Lemma demo_session_live blocking streaming :
  live_in (H := Demo.env_with blocking streaming)
    (redis Demo.world) (now Demo.world) Demo.session_id Demo.session_record.
Proof.
  eexists. split; [vm_compute; reflexivity|]. split; vm_compute; reflexivity.
Qed.

Lemma demo_history_empty : history_in (redis Demo.world) Demo.session_id [].
Proof. right. split; reflexivity. Qed.

Lemma demo_corpus_well_formed : well_formed (vectors (initialized Demo.world)).
Proof.
  repeat split; try reflexivity. vm_compute. repeat constructor; eexists; reflexivity.
Qed.

Lemma demo_corpus_nonempty : documents (vectors (initialized Demo.world)) <> [].
Proof. vm_compute. discriminate. Qed.

Lemma demo_corpus_texts : Forall is_Some (documents (vectors (initialized Demo.world))).
Proof. vm_compute. repeat constructor; eexists; reflexivity. Qed.

Lemma demo_chatted_ok :
  session_ok (H := Demo.env) (redis Demo.chatted) (now Demo.chatted) Demo.session_id
    (counted (counted Demo.session_record))
    [message_of (H := Demo.env) 1 1000 "user" "hello";
     message_of (H := Demo.env) 2 1000 "assistant" "hi"].
Proof.
  split; [|split].
  - eexists. split; [vm_compute; reflexivity|]. split; vm_compute; reflexivity.
  - left. vm_compute. reflexivity.
  - right. vm_compute. reflexivity.
Qed.

Ltac demo :=
  first [ apply demo_session_live | apply demo_history_empty
        | apply demo_corpus_well_formed | apply demo_corpus_nonempty
        | apply demo_corpus_texts | apply demo_chatted_ok ].




(** C4 at work: a chunk without a text makes the embedding step throw. *)
Lemma addDocuments_all_or_nothing_witness :
  exists e w',
    addDocuments (H := Demo.env) [Doc None None] Demo.world = Throw e w'
    /\ vectors w' = vectors Demo.world.
Proof.
  exists (TypeError "Cannot read properties of undefined (reading 'toLowerCase')"), Demo.world.
  destruct (addDocuments_all_or_nothing (H := Demo.env) [Doc None None] Demo.world
              (TypeError "Cannot read properties of undefined (reading 'toLowerCase')")
              Demo.world) as (Ha & Hv & _).
  - reflexivity.
  - split; [exact Ha | exact Hv].
Defined.

(** C5 at work, on the session just created and no corpus. *)
Lemma empty_corpus_gets_canned_answer_witness :
  exists w',
    processQuery (H := Demo.env) Demo.session_id "will it rain today" Demo.with_session
    = Ok {| answer := noDocsResponse; sources := [] |} w'.
Proof.
  destruct (empty_corpus_gets_canned_answer (H := Demo.env)
              (demo_codec _ _) (demo_ttl _ _)
              Demo.session_id "will it rain today" Demo.session_record [] Demo.with_session)
    as ((w' & Hq & _) & _).
  - eexists. split; [vm_compute; reflexivity|]. split; vm_compute; reflexivity.
  - right. split; reflexivity.
  - reflexivity.
  - exists w'. exact Hq.
Defined.

(** C9 at work, on the session with two messages. *)
Lemma clearHistory_keeps_the_session_witness :
  exists w',
    clearHistory (H := Demo.env) Demo.session_id Demo.chatted = Ok tt w'
    /\ value_of (getHistory (H := Demo.env) Demo.session_id 10 (later 0 w')) = Some [].
Proof.
  destruct (clearHistory_keeps_the_session (H := Demo.env) (demo_codec _ _)
              Demo.session_id (counted (counted Demo.session_record)) Demo.chatted)
    as (w' & Hc & Hh & _).
  - demo.
  - exists w'. split; [exact Hc | apply Hh].
Defined.

(** C1 at work.  With the model of the examples, whose stream is rate
    limited after a chunk, the streaming entry point answers and the
    blocking one throws; with the model that is unavailable the streaming
    entry point throws. *)
Lemma only_a_rate_limited_stream_falls_back_witness :
  (exists fallback srcs w',
     processQueryStream (H := Demo.env) Demo.session_id "will it rain today"
       (Some collect) Demo.world
     = Ok {| answer := fallback; sources := srcs |} w')
  /\ (exists w',
        processQuery (H := Demo.env) Demo.session_id "will it rain today" Demo.world
        = Throw (Error "Failed to generate response from Gemini API") w')
  /\ (exists w',
        processQueryStream (H := Demo.env_unavailable) Demo.session_id
          "will it rain today" (Some collect) Demo.world
        = Throw (Error "Failed to stream response from Gemini API") w').
Proof.
  destruct (only_a_rate_limited_stream_falls_back (H := Demo.env)
              (demo_codec _ _) (demo_ttl _ _) (demo_contract _ _)
              Demo.session_id "will it rain today" Demo.session_record [] Demo.world)
    as (docs & w0 & fb & srcs & _ & _ & _ & Hstream & _ & Hblocking);
    [demo | demo | demo | demo | demo |].
  destruct (only_a_rate_limited_stream_falls_back (H := Demo.env_unavailable)
              (demo_codec _ _) (demo_ttl _ _) (demo_contract _ _)
              Demo.session_id "will it rain today" Demo.session_record [] Demo.world)
    as (docs' & w0' & fb' & srcs' & _ & _ & _ & _ & Hfailed & _);
    [demo | demo | demo | demo | demo |].
  split; [|split].
  - destruct Hstream as (w' & Hp & _); [reflexivity|]. exists fb, srcs, w'. exact Hp.
  - destruct (Hblocking (Some 429)) as (w' & Hp & _); [reflexivity|]. exists w'. exact Hp.
  - destruct (Hfailed (Some 503)) as (w' & Hp & _); [reflexivity | discriminate|].
    exists w'. exact Hp.
Defined.

(** C1, as stated, fails: with the same rate-limited model the blocking
    entry point throws, and with a model that is unavailable (status 503)
    the streaming one does. *)
Lemma generation_failure_aborts_the_pipeline :
  (exists w',
     processQuery (H := Demo.env) Demo.session_id "will it rain today" Demo.world
     = Throw (Error "Failed to generate response from Gemini API") w')
  /\ (exists w',
        processQueryStream (H := Demo.env_unavailable) Demo.session_id
          "will it rain today" (Some collect) Demo.world
        = Throw (Error "Failed to stream response from Gemini API") w').
Proof. split; eexists; vm_compute; reflexivity. Qed.

(** C6, at the failing input.  The stream yields the chunk [Hel] and is
    then rate limited: the sink has received [Hel] and then the whole
    fallback text, while the answer returned is the fallback text alone. *)
Theorem sink_receives_more_than_the_answer :
  exists a srcs w',
    processQueryStream (H := Demo.env) Demo.session_id "will it rain today"
      (Some collect) Demo.world
    = Ok {| answer := a; sources := srcs |} w'
    /\ delivered w' = ["Hel"%string; a]
    /\ String.concat "" (delivered w') <> a.
Proof.
  eexists. eexists. eexists. split; [vm_compute; reflexivity|].
  split; [reflexivity|]. vm_compute. discriminate.
Qed.

Lemma getHistory_zero_returns_everything_witness :
  value_of (getHistory (H := Demo.env) Demo.session_id 0 Demo.chatted)
  = Some [message_of (H := Demo.env) 1 1000 "user" "hello";
          message_of (H := Demo.env) 2 1000 "assistant" "hi"].
Proof.
  apply (getHistory_zero_returns_everything (H := Demo.env) (demo_codec _ _)
           Demo.session_id (counted (counted Demo.session_record))).
  apply demo_chatted_ok.
Defined.

Lemma getHistory_returns_most_recent_witness :
  exists recent,
    value_of (getHistory (H := Demo.env) Demo.session_id 1 Demo.chatted) = Some recent
    /\ length recent = 1%nat.
Proof.
  destruct (getHistory_returns_most_recent (H := Demo.env) (demo_codec _ _)
              Demo.session_id (counted (counted Demo.session_record))
              [message_of (H := Demo.env) 1 1000 "user" "hello";
               message_of (H := Demo.env) 2 1000 "assistant" "hi"] 1 Demo.chatted)
    as (recent & Hv & _ & Hlen).
  - demo.
  - lia.
  - exists recent. split; [exact Hv|]. cbn in Hlen. lia.
Defined.

Lemma complete_stream_is_the_answer_witness :
  exists srcs w',
    processQueryStream (H := Demo.env_answering) Demo.session_id "will it rain today"
      (Some collect) Demo.world
    = Ok {| answer := "Hello"; sources := srcs |} w'
    /\ delivered w' = ["Hel"; "lo"]%string.
Proof.
  destruct (complete_stream_is_the_answer (H := Demo.env_answering)
              (demo_codec _ _) (demo_ttl _ _) (demo_contract _ _)
              Demo.session_id "will it rain today" Demo.session_record [] Demo.world)
    as (docs & w0 & srcs & _ & _ & Hrun); [demo | demo | demo | demo | demo |].
  destruct Hrun as (w' & Hp & Hd & _); [reflexivity|].
  exists srcs, w'. split; [exact Hp | exact Hd].
Defined.

Lemma blocking_generation_failure_aborts_witness :
  exists n w',
    processQuery (H := Demo.env) Demo.session_id "will it rain today" Demo.world
    = Throw (Error "Failed to generate response from Gemini API") w'
    /\ session_ok (H := Demo.env) (redis w') (now w') Demo.session_id
         (counted Demo.session_record)
         ([] ++ [message_of (H := Demo.env) n (now Demo.world) "user" "will it rain today"]).
Proof.
  apply (blocking_generation_failure_aborts (H := Demo.env)
           (demo_codec _ _) (demo_ttl _ _) (demo_contract _ _)).
  - demo.
  - demo.
  - demo.
  - demo.
  - demo.
  - intros n contents. now exists (Some 429).
Defined.

Lemma stream_failure_aborts_unless_rate_limited_witness :
  exists n w',
    processQueryStream (H := Demo.env_unavailable) Demo.session_id "will it rain today"
      (Some collect) Demo.world
    = Throw (Error "Failed to stream response from Gemini API") w'
    /\ session_ok (H := Demo.env_unavailable) (redis w') (now w') Demo.session_id
         (counted Demo.session_record)
         ([] ++ [message_of (H := Demo.env_unavailable) n (now Demo.world) "user"
                   "will it rain today"]).
Proof.
  apply (stream_failure_aborts_unless_rate_limited (H := Demo.env_unavailable)
           (demo_codec _ _) (demo_ttl _ _) (demo_contract _ _)).
  - demo.
  - demo.
  - demo.
  - demo.
  - demo.
  - intros n contents. exists (Some 503). split; [reflexivity | discriminate].
Defined.

Lemma expired_key_reads_absent_witness :
  let st := state_of (KV.setex "k" 1 (KV.VStr "v") 0 KV.empty) in
  value_of (KV.get "k" 5000 st) = Some None
  /\ value_of (KV.exists_ "k" 5000 st) = Some 0
  /\ value_of (KV.lrange "k" 0 (-1) 5000 st) = Some (KV.VList [])
  /\ KV.store (state_of (KV.get "k" 5000 st)) !! "k" = None.
Proof. apply expired_key_reads_absent. reflexivity. Defined.

Lemma expire_ignores_expiry_witness :
  let st := state_of (KV.setex "k" 1 (KV.VStr "v") 0 KV.empty) in
  value_of (KV.expire "k" 10 5000 st) = Some 1
  /\ KV.expired (state_of (KV.expire "k" 10 5000 st)) "k" 5000 = false.
Proof. apply (expire_ignores_expiry _ "k" 10 5000 (KV.VStr "v")); [reflexivity | lia]. Defined.

(** * Further properties of the services

    ** The in-memory store: writes and reads *)

(** A truthy value written with [setex] is read back by [get] up to and
    including the instant of its expiry, and is absent after it. *)
Theorem setex_then_get st key seconds v t dt :
  KV.truthy v = true -> 0 < t -> 0 <= seconds -> 0 <= dt ->
  let st' := state_of (KV.setex key seconds v t st) in
  (dt <= seconds * 1000 ->
     value_of (KV.get key (t + dt) st') = Some (Some v)
     /\ value_of (KV.exists_ key (t + dt) st') = Some 1)
  /\ (seconds * 1000 < dt ->
        value_of (KV.get key (t + dt) st') = Some None
        /\ value_of (KV.exists_ key (t + dt) st') = Some 0).
Proof.
  intros Hv Ht Hs Hdt st'.
  assert (Hx : KV.expired st' key (t + dt) = (seconds * 1000 <? dt)).
  { unfold st'. rewrite expired_setex.
    destruct (Z.eqb_spec (t + seconds * 1000) 0) as [E|_]; [lia|]. simpl.
    destruct (Z.ltb_spec (t + seconds * 1000) (t + dt)),
             (Z.ltb_spec (seconds * 1000) dt); auto; lia. }
  split; intros Hcmp.
  - assert (Hlive : KV.expired st' key (t + dt) = false).
    { rewrite Hx. destruct (Z.ltb_spec (seconds * 1000) dt); auto; lia. }
    unfold KV.get, KV.exists_. rewrite (checkExpiry_live _ _ _ Hlive).
    unfold st'. simpl. rewrite lookup_insert_eq, Hv. auto.
  - assert (Hgone : KV.expired st' key (t + dt) = true).
    { rewrite Hx. destruct (Z.ltb_spec (seconds * 1000) dt); auto; lia. }
    unfold KV.get, KV.exists_. rewrite (checkExpiry_expired _ _ _ Hgone).
    cbn [KV.store value_of]. now rewrite lookup_delete_eq.
Qed.

(** What [rpush] and [lpush] leave is what [lrange 0 -1] reads: [rpush]
    appends its values in order, [lpush] puts them in front, in the order
    given; both answer the new length.  A key that holds nothing starts
    from the empty list. *)
Theorem push_then_lrange st key l values now :
  KV.list_or_new st key = KV.VList l ->
  KV.expired st key now = false ->
  (value_of (KV.rpush key values st) = Some (Z.of_nat (length l + length values))
   /\ value_of (KV.lrange key 0 (-1) now (state_of (KV.rpush key values st)))
      = Some (KV.VList (l ++ values)))
  /\ (value_of (KV.lpush key values st) = Some (Z.of_nat (length values + length l))
      /\ value_of (KV.lrange key 0 (-1) now (state_of (KV.lpush key values st)))
         = Some (KV.VList (values ++ l))).
Proof.
  intros Hl Hlive.
  assert (Hread : forall l',
    value_of (KV.lrange key 0 (-1) now
                {| KV.store := <[key := KV.VList l']> (KV.store st); KV.ttls := KV.ttls st |})
    = Some (KV.VList l')).
  { intros l'. rewrite (lrange_list _ _ 0 (-1) now l').
    - simpl. do 2 f_equal. change (KV.range_end ?n (-1)) with n.
      apply (slice_minus_zero l').
    - simpl. apply lookup_insert_eq.
    - exact Hlive. }
  unfold KV.rpush, KV.lpush. rewrite Hl. simpl. rewrite !length_app.
  repeat split; apply Hread.
Qed.

(** [lrange] reads an inclusive range, as the Redis command does: with
    negative indices counted from the end, it returns the elements at the
    positions from [start] to [stop], both included. *)
Theorem lrange_is_inclusive st key l start stop now :
  KV.store st !! key = Some (KV.VList l) ->
  KV.expired st key now = false ->
  let len := Z.of_nat (length l) in
  let position i := if i <? 0 then len + i else i in
  let first := Z.max 0 (position start) in
  let last := Z.min (len - 1) (position stop) in
  value_of (KV.lrange key start stop now st)
  = Some (KV.VList (take (Z.to_nat (last + 1 - first)) (drop (Z.to_nat first) l))).
Proof.
  intros Hs Hlive len position first last.
  rewrite (lrange_list _ _ start stop now l Hs Hlive). simpl. do 2 f_equal.
  unfold slice, rel_index, KV.range_end. fold len.
  subst first last position. cbv beta.
  assert (Hlen : 0 <= len) by lia.
  destruct (Z.le_gt_cases start len) as [Hin|Hout].
  - repeat match goal with
           | |- context [?a =? ?b] => destruct (Z.eqb_spec a b)
           | |- context [?a <? ?b] => destruct (Z.ltb_spec a b)
           end; try lia; (f_equal; [|f_equal]; lia).
  - rewrite !drop_ge; [now rewrite !take_nil | |].
    + destruct (Z.ltb_spec start 0); lia.
    + destruct (Z.ltb_spec start 0); lia.
Qed.

(** ** Sessions: creation, expiry, deletion *)

Lemma get_absent r k t :
  KV.store r !! k = None -> KV.get k t r = Ok None (KV._checkExpiry k t r).
Proof.
  intros Hs. unfold KV.get. now rewrite (checkExpiry_lookup_None _ _ _ Hs).
Qed.

Lemma exists_absent r k t :
  KV.store r !! k = None -> KV.exists_ k t r = Ok 0 (KV._checkExpiry k t r).
Proof.
  intros Hs. unfold KV.exists_. now rewrite (checkExpiry_lookup_None _ _ _ Hs).
Qed.

Lemma on_redis_later {A} (c : Z -> M KV.t A) dt w a r :
  c (now w + dt) (redis w) = Ok a r -> on_redis c (later dt w) = Ok a (with_redis r (later dt w)).
Proof. intros E. now apply on_redis_ok. Qed.

(** Rewrite the store operation the goal runs next with its outcome [E]. *)
Ltac redis_step E :=
  match goal with
  | |- context [on_redis ?c ?w1] => rewrite (on_redis_ok c w1 _ _ E)
  end.

Section SessionLife.
Context `{Env}.
Hypothesis codec : json_codec.
Hypothesis ttl_nonneg : 0 <= sessionTTL.

(** No session under the key: [getSession] answers null, [validateSession]
    false, and neither writes anything under it. *)
Lemma session_absent sid w :
  KV.store (redis w) !! session_key sid = None ->
  value_of (getSession sid w) = Some None
  /\ value_of (validateSession sid w) = Some false.
Proof.
  intros Hs. unfold getSession, validateSession, bind.
  rewrite (on_redis_ok _ _ _ _ (get_absent _ _ (now w) Hs)).
  rewrite (on_redis_ok _ _ _ _ (exists_absent _ _ (now w) Hs)).
  split; reflexivity.
Qed.

(** A session whose expiry has passed reads as absent. *)
Lemma session_expired sid w :
  KV.expired (redis w) (session_key sid) (now w) = true ->
  value_of (getSession sid w) = Some None
  /\ value_of (validateSession sid w) = Some false.
Proof.
  intros Hx. unfold getSession, validateSession, bind, on_redis, zoom.
  unfold KV.get, KV.exists_. rewrite (checkExpiry_expired _ _ _ Hx). simpl.
  rewrite lookup_delete_eq. split; reflexivity.
Qed.

(** [validateSession] on a live session answers true, whatever the history
    key holds. *)
Lemma validateSession_true sid sd w :
  live_in (redis w) (now w) sid sd ->
  exists r', validateSession sid w = Ok true (with_redis r' w)
             /\ KV.store r' = KV.store (redis w)
             /\ KV.ttls r' !! session_key sid = Some (now w + sessionTTL * 1000).
Proof.
  intros (s & Hs & Hp & He).
  pose proof (keys_differ sid) as Hne.
  unfold validateSession, bind.
  rewrite (on_redis_ok _ _ _ _ (exists_present _ _ _ _ He Hs)). simpl.
  rewrite with_redis_same.
  rewrite (on_redis_ok _ _ _ _ (expire_present _ _ sessionTTL (now w) _ Hs)).
  set (r1 := {| KV.store := _ |}).
  destruct (KV.store (redis w) !! history_key sid) as [v|] eqn:Ehk.
  - rewrite (on_redis_ok _ (with_redis r1 w) _ _
               (expire_present r1 _ sessionTTL (now w) v Ehk)).
    eexists. split; [reflexivity|]. simpl. split; [reflexivity|].
    rewrite lookup_insert_ne by congruence. apply lookup_insert_eq.
  - rewrite (on_redis_ok _ (with_redis r1 w) _ _
               (expire_absent r1 _ sessionTTL (now w) Ehk)).
    eexists. split; [reflexivity|]. simpl. split; [reflexivity|].
    apply lookup_insert_eq.
Qed.

(** A record stored under the session key with the expiry [t + TTL] is
    live up to that instant. *)
Lemma stored_session_live r t sid sd dt :
  KV.store r !! session_key sid = Some (KV.VStr (JSON_stringify sd)) ->
  KV.ttls r !! session_key sid = Some (t + sessionTTL * 1000) ->
  0 <= dt <= sessionTTL * 1000 ->
  live_in r (t + dt) sid sd.
Proof.
  intros Hs Ht Hdt. destruct codec as [Hrt _].
  exists (JSON_stringify sd). split; [exact Hs|]. split; [apply Hrt|].
  unfold KV.expired. rewrite Ht. now apply refreshed_not_expired.
Qed.

(** [createSession] stores a record with a fresh id and a count of zero.
    Until the TTL has run out the record is what [getSession] returns and
    the session validates; afterwards it reads as absent and does not
    validate.  Its history is empty when nothing is left under its history
    key. *)
Theorem createSession_starts_a_session w :
  0 < now w ->
  let sid := uuidv4 (serial w) in
  let sd : jsobject :=
    <["messageCount" := JNum 0]>
      (<["createdAt" := JStr (toISOString (now w))]> {["id" := JStr sid]}) in
  exists w',
    createSession w = Ok sd w'
    /\ (forall dt, 0 <= dt <= sessionTTL * 1000 ->
          value_of (getSession sid (later dt w')) = Some (Some sd)
          /\ value_of (validateSession sid (later dt w')) = Some true)
    /\ (forall dt, sessionTTL * 1000 < dt ->
          value_of (getSession sid (later dt w')) = Some None
          /\ value_of (validateSession sid (later dt w')) = Some false)
    /\ (KV.store (redis w) !! history_key sid = None ->
        forall limit dt, value_of (getHistory sid limit (later dt w')) = Some []).
Proof.
  intros Hnow sid sd.
  pose proof (keys_differ sid) as Hne.
  unfold createSession, bind, next_serial, gets.
  erewrite on_redis_ok by reflexivity. unfold ret.
  eexists. split; [reflexivity|].
  set (r' := {| KV.store := _ |}).
  assert (Hs : KV.store r' !! session_key sid = Some (KV.VStr (JSON_stringify sd)))
    by apply lookup_insert_eq.
  assert (Ht : KV.ttls r' !! session_key sid = Some (now w + sessionTTL * 1000))
    by apply lookup_insert_eq.
  split; [|split].
  - intros dt Hdt.
    pose proof (stored_session_live r' (now w) sid sd dt Hs Ht Hdt) as Hl.
    split.
    + rewrite (getSession_live codec sid sd); [reflexivity | exact Hl].
    + match goal with |- value_of (validateSession _ ?w1) = _ =>
        destruct (validateSession_true sid sd w1 Hl) as (r2 & -> & _) end.
      reflexivity.
  - intros dt Hdt. apply session_expired.
    unfold KV.expired. cbn [redis now later with_now with_redis with_serial].
    rewrite Ht.
    destruct (Z.eqb_spec (now w + sessionTTL * 1000) 0); [lia|].
    destruct (Z.ltb_spec (now w + sessionTTL * 1000) (now w + dt)); [reflexivity|lia].
  - intros Hh limit dt. unfold getHistory, bind.
    assert (Hh' : KV.store r' !! history_key sid = None).
    { unfold r'. cbn [KV.store]. fold sid.
      rewrite lookup_insert_ne by exact Hne. exact Hh. }
    redis_step (lrange_absent r' _ (- limit) (-1) (now w + dt) Hh').
    reflexivity.
Qed.

(** [validateSession] on a live session gives it a full TTL from now on,
    however little was left, and leaves what is stored as it is. *)
Theorem validateSession_extends_life sid sd w :
  live_in (redis w) (now w) sid sd ->
  exists w',
    validateSession sid w = Ok true w'
    /\ KV.store (redis w') = KV.store (redis w)
    /\ forall dt, 0 <= dt <= sessionTTL * 1000 ->
         value_of (getSession sid (later dt w')) = Some (Some sd).
Proof.
  intros Hl. pose proof Hl as (s & Hs & Hp & He).
  destruct (validateSession_true _ _ _ Hl) as (r' & -> & Hst & Ht).
  eexists. split; [reflexivity|]. split; [exact Hst|].
  intros dt Hdt. rewrite (getSession_live codec sid sd); [reflexivity|].
  exists s. cbn [redis now later with_now with_redis].
  rewrite Hst. split; [exact Hs|]. split; [exact Hp|].
  unfold KV.expired. rewrite Ht. now apply refreshed_not_expired.
Qed.

(** After [deleteSession] nothing is left of the session: [getSession]
    answers null, [validateSession] false and [getHistory] the empty array,
    at any later instant. *)
Theorem deleteSession_forgets sid w :
  exists w',
    deleteSession sid w = Ok tt w'
    /\ forall dt limit,
         value_of (getSession sid (later dt w')) = Some None
         /\ value_of (validateSession sid (later dt w')) = Some false
         /\ value_of (getHistory sid limit (later dt w')) = Some [].
Proof.
  pose proof (keys_differ sid) as Hne.
  unfold deleteSession, bind.
  erewrite on_redis_ok by reflexivity.
  erewrite on_redis_ok by reflexivity.
  eexists. split; [reflexivity|].
  set (r' := {| KV.store := delete (history_key sid) _ |}).
  assert (Hs : KV.store r' !! session_key sid = None).
  { unfold r'. simpl. rewrite lookup_delete_ne by congruence. apply lookup_delete_eq. }
  assert (Hh : KV.store r' !! history_key sid = None) by apply lookup_delete_eq.
  intros dt limit.
  destruct (session_absent sid (later dt (with_redis r' w)) Hs) as [Hg Hv].
  split; [exact Hg|]. split; [exact Hv|].
  unfold getHistory, bind.
  redis_step (lrange_absent r' _ (- limit) (-1) (now w + dt) Hh).
  reflexivity.
Qed.

(** [addMessage] keeps [messageCount] in step with the history: on a live
    session whose count is the number of its messages, the message built
    from the role and the content is appended, the count goes up by one,
    no other field of the record changes, and [getHistory] ends with the
    new message. *)
Theorem addMessage_counts_and_appends sid sd ms role content w :
  live_in (redis w) (now w) sid sd ->
  history_in (redis w) sid (map JSON_stringify ms) ->
  sd !! "messageCount" = Some (JNum (Z.of_nat (length ms))) ->
  exists m sd' w',
    addMessage sid role content w = Ok m w'
    /\ m !! "role" = Some (JStr role)
    /\ m !! "content" = Some (JStr content)
    /\ value_of (getSession sid w') = Some (Some sd')
    /\ sd' !! "messageCount" = Some (JNum (Z.of_nat (length (ms ++ [m]))))
    /\ (forall field, field <> "messageCount"%string -> sd' !! field = sd !! field)
    /\ (forall limit, Z.of_nat (length ms) < limit ->
          value_of (getHistory sid limit w') = Some (ms ++ [m])).
Proof.
  intros Hl Hh Hcount.
  destruct (addMessage_ok codec ttl_nonneg sid sd ms role content w Hl Hh)
    as (r' & Ha & Hok).
  cbv zeta in Ha, Hok.
  set (m := message_of (serial w) (now w) role content) in *.
  exists m, (counted sd). eexists. split; [exact Ha|].
  split; [reflexivity|]. split; [reflexivity|].
  pose proof Hok as (Hl' & _).
  split; [now rewrite (getSession_live codec sid (counted sd))|].
  split.
  { unfold counted. rewrite lookup_insert_eq, Hcount. cbn [next_count].
    rewrite length_app. cbn [length]. do 2 f_equal. lia. }
  split.
  { intros field Hf. unfold counted. now rewrite lookup_insert_ne. }
  intros limit Hlim.
  destruct (getHistory_ok codec sid (counted sd) (ms ++ [m]) limit
              (with_redis r' (with_serial (S (serial w)) w)) Hok) as (r2 & -> & _).
  cbn [value_of]. f_equal.
  rewrite slice_last by lia.
  replace (length (ms ++ [m]) - Z.to_nat limit)%nat with 0%nat; [reflexivity|].
  rewrite length_app. cbn [length]. lia.
Qed.

(** [addMessage] does not look for the session: with no record under the
    session key it still appends the message to the history list and
    returns it, and no record is created, so that the session does not
    validate afterwards. *)
Theorem addMessage_without_session sid l role content w :
  KV.store (redis w) !! session_key sid = None ->
  KV.list_or_new (redis w) (history_key sid) = KV.VList l ->
  let m := message_of (serial w) (now w) role content in
  exists w',
    addMessage sid role content w = Ok m w'
    /\ KV.store (redis w') !! history_key sid = Some (KV.VList (l ++ [JSON_stringify m]))
    /\ KV.store (redis w') !! session_key sid = None
    /\ value_of (validateSession sid w') = Some false.
Proof.
  intros Hs Hl m.
  pose proof (keys_differ sid) as Hne.
  unfold addMessage, bind, next_serial, gets. fold m.
  set (w1 := with_serial (S (serial w)) w).
  set (r1 := {| KV.store := <[history_key sid := KV.VList (l ++ [JSON_stringify m])]>
                              (KV.store (redis w));
                KV.ttls := KV.ttls (redis w) |}).
  assert (Hpush : on_redis (fun _ => KV.rpush (history_key sid) [JSON_stringify m]) w1
                  = Ok (Z.of_nat (length (l ++ [JSON_stringify m]))) (with_redis r1 w1)).
  { apply on_redis_ok. change (redis w1) with (redis w).
    unfold KV.rpush. now rewrite Hl. }
  change (now w1) with (now w). fold m. rewrite Hpush.
  assert (Hs1 : KV.store r1 !! session_key sid = None).
  { unfold r1. simpl. now rewrite lookup_insert_ne by congruence. }
  unfold getSession, bind.
  rewrite (on_redis_ok _ (with_redis r1 w1) _ _ (get_absent r1 _ (now w) Hs1)).
  unfold ret at 1 2.
  set (r2 := KV._checkExpiry (session_key sid) (now w) r1).
  assert (Hne' : session_key sid <> history_key sid) by exact Hne.
  destruct (checkExpiry_other r1 _ _ (now w) Hne') as [Hsame _].
  assert (Hh2 : KV.store r2 !! history_key sid = Some (KV.VList (l ++ [JSON_stringify m]))).
  { unfold r2. rewrite Hsame. apply lookup_insert_eq. }
  rewrite (on_redis_ok _ (with_redis r2 (with_redis r1 w1)) _ _
             (expire_present r2 _ sessionTTL (now w) _ Hh2)).
  eexists. split; [reflexivity|].
  assert (Hs2 : KV.store r2 !! session_key sid = None)
    by (unfold r2; now apply checkExpiry_lookup_None).
  split; [exact Hh2|]. split; [exact Hs2|].
  apply session_absent. exact Hs2.
Qed.

End SessionLife.

(** ** The pipeline: rejection, the blocking answer, the request *)

Section Answers.
Context `{Env}.
Hypothesis codec : json_codec.
Hypothesis ttl_nonneg : 0 <= sessionTTL.
Hypothesis contract : embedding_contract.

(** [validateSession] without a live session: false, and the only thing
    done to the store is the eviction of the session key. *)
Lemma validateSession_false sid w :
  KV.store (redis w) !! session_key sid = None
  \/ KV.expired (redis w) (session_key sid) (now w) = true ->
  validateSession sid w
  = Ok false (with_redis (KV._checkExpiry (session_key sid) (now w) (redis w)) w).
Proof.
  intros Hgone. unfold validateSession, bind.
  assert (He : KV.exists_ (session_key sid) (now w) (redis w)
               = Ok 0 (KV._checkExpiry (session_key sid) (now w) (redis w))).
  { destruct Hgone as [Hs|Hx]; [now apply exists_absent|].
    unfold KV.exists_. rewrite (checkExpiry_expired _ _ _ Hx). simpl.
    now rewrite lookup_delete_eq. }
  now rewrite (on_redis_ok _ _ _ _ He).
Qed.

(** Without a live session both entry points throw
    [Invalid or expired session] before anything else happens: no message
    is stored, no embedding or model request is made, nothing reaches the
    sink. *)
Theorem unknown_session_is_rejected sid query onChunk w :
  KV.store (redis w) !! session_key sid = None
  \/ KV.expired (redis w) (session_key sid) (now w) = true ->
  exists w',
    processQuery sid query w = Throw (Error "Invalid or expired session") w'
    /\ processQueryStream sid query onChunk w
       = Throw (Error "Invalid or expired session") w'
    /\ KV.store (redis w') !! history_key sid = KV.store (redis w) !! history_key sid
    /\ serial w' = serial w
    /\ generationCalls w' = generationCalls w
    /\ delivered w' = delivered w.
Proof.
  intros Hgone.
  destruct (ensure_initialized_ok w) as (Hinit & Hr & Hn & Hser & Hgc & Hdl).
  rewrite <- Hr, <- Hn in Hgone.
  pose proof (validateSession_false sid (initialized w) Hgone) as Hv.
  eexists. split; [|split].
  - unfold processQuery, bind. rewrite Hinit, Hv. reflexivity.
  - unfold processQueryStream, bind. rewrite Hinit, Hv. reflexivity.
  - cbn [redis serial generationCalls delivered with_redis].
    assert (Hne : session_key sid <> history_key sid) by apply keys_differ.
    destruct (checkExpiry_other (redis (initialized w)) _ _ (now (initialized w)) Hne)
      as [Hst _].
    rewrite Hst, Hr. auto.
Qed.

(** [search] never returns more than it is asked for. *)
Lemma search_bounded query k w docs w' :
  well_formed (vectors w) -> 0 <= k ->
  search query k w = Ok docs w' -> Z.of_nat (length docs) <= k.
Proof.
  intros Hwf Hk Hs.
  destruct (documents (vectors w)) as [|d ds] eqn:Hdocs.
  - rewrite (search_empty _ _ _ Hdocs) in Hs. injection Hs as <- _. simpl. lia.
  - destruct (search_ranked query k w Hwf contract Hk) as (q & es & n & _ & Hr);
      [congruence|].
    rewrite Hr in Hs. injection Hs as <- _.
    rewrite length_map, length_take. lia.
Qed.

(** What [sources_of] makes of passages that have a text: for each, the
    first 200 characters of the text followed by three dots, the score
    printed with four decimals, and the metadata. *)
Lemma sources_of_shape docs :
  Forall (fun d => is_Some (hit_text d)) docs ->
  exists srcs,
    (forall St (s : St), sources_of docs s = Ok srcs s)
    /\ Forall2 (fun d s =>
                  exists t, hit_text d = Some t
                            /\ source_text s = (substring0 200 t +:+ "...")%string
                            /\ source_score s = toFixed4 (hit_score d)
                            /\ source_metadata s = hit_metadata d) docs srcs.
Proof.
  induction docs as [|d docs IH]; intros Hall.
  - exists []. split; [reflexivity | constructor].
  - inversion Hall as [|? ? [t Ht] Hrest]; subst.
    destruct (IH Hrest) as (l & Hl & Hshape).
    eexists. split.
    + intros St s. cbn [sources_of]. unfold bind, excerpt.
      rewrite Ht. unfold ret at 1. rewrite Hl. reflexivity.
    + constructor; [|exact Hshape]. exists t. auto.
Qed.

(** The blocking entry point when the model answers: on a live session and
    a corpus of texts, [processQuery] returns the model's text with one
    source per retrieved passage, at most [topK] of them; the history
    gains the user turn and then the answer as the assistant turn, and one
    request has been sent to the model. *)
Theorem processQuery_answers sid query sd ms w :
  live_in (redis w) (now w) sid sd ->
  history_in (redis w) sid (map JSON_stringify ms) ->
  well_formed (vectors (initialized w)) ->
  documents (vectors (initialized w)) <> [] ->
  Forall is_Some (documents (vectors (initialized w))) ->
  (forall n contents, exists a, generateContent n contents = Generated a) ->
  exists docs w0 a srcs w',
    search query topK (initialized w) = Ok docs w0
    /\ (let request :=
          contents_of query docs (map turn_of (slice ms (- 10) (Z.of_nat (length ms)))) in
        generateContent (S (serial w0)) request = Generated a
        /\ generationCalls w' = generationCalls w ++ [request])
    /\ processQuery sid query w = Ok {| answer := a; sources := srcs |} w'
    /\ Z.of_nat (length srcs) <= topK
    /\ Forall2 (fun d s =>
                  exists t, hit_text d = Some t
                            /\ source_text s = (substring0 200 t +:+ "...")%string
                            /\ source_score s = toFixed4 (hit_score d)
                            /\ source_metadata s = hit_metadata d) docs srcs
    /\ session_ok (redis w') (now w') sid (counted (counted sd))
         (ms ++ [message_of (serial w0) (now w) "user" query;
                 message_of (S (S (serial w0))) (now w) "assistant" a]).
Proof.
  intros Hl Hh Hwf Hne Htexts Hanswers.
  destruct (answering_prefix codec ttl_nonneg contract sid query sd ms w Hl Hh Hwf Hne Htexts)
    as (docs & n & r & Hs & Hall & Hok & Hblocking & _).
  destruct (ensure_initialized_ok w) as (_ & _ & Hn & _ & Hgc & Hdl).
  destruct (sources_of_shape docs Hall) as (srcs & Hsrcs & Hshape).
  set (hist := map turn_of (slice ms (- 10) (Z.of_nat (length ms)))) in *.
  set (w3 := with_redis r (with_serial (S n) (initialized w))) in *.
  destruct (Hanswers (serial w3) (contents_of query docs hist)) as [a Ha].
  pose proof (generateResponse_outcome query docs hist w3) as Hg.
  cbv zeta in Hg. rewrite Ha in Hg.
  set (w4 := requested _ w3) in Hg.
  destruct Hok as (Hl3 & Hh3 & _).
  destruct (addMessage_ok codec ttl_nonneg sid (counted sd)
              (ms ++ [message_of n (now w) "user" query]) "assistant" a w4)
    as (r4 & Hadd & Hok4);
    [cbn [redis now w4 w3 requested with_generationCalls with_serial with_redis];
     rewrite Hn; exact Hl3 | exact Hh3 |].
  exists docs, (with_serial n (initialized w)), a, srcs,
         (with_redis r4 (with_serial (S (serial w4)) w4)).
  split; [exact Hs|]. split; [|split; [|split; [|split]]].
  - split; [exact Ha|].
    cbn [generationCalls w4 w3 requested with_generationCalls with_serial with_redis].
    now rewrite Hgc.
  - rewrite Hblocking. unfold bind. rewrite Hg, Hadd, Hsrcs. reflexivity.
  - rewrite <- (Forall2_length _ _ _ Hshape).
    eapply (search_bounded query topK (initialized w) docs); [exact Hwf | unfold topK; lia|].
    exact Hs.
  - exact Hshape.
  - cbn [serial now redis w4 w3 requested with_generationCalls with_serial with_redis]
      in Hok4 |- *.
    rewrite Hn in Hok4 |- *. now rewrite <- app_assoc in Hok4.
Qed.

End Answers.

(** ** The vector index: writing, clearing, restarting *)

Section IndexLife.
Context `{Env}.

(** The snapshot [save] writes of an index. *)
Lemma save_outcome w :
  save w
  = if diskWritable w
    then Ok tt (with_disk (Some {| snap_documents := Some (documents (vectors w));
                                   snap_embeddings := Some (embeddings (vectors w));
                                   snap_metadata := Some (metadata (vectors w));
                                   snap_timestamp := toISOString (now w) |}) w)
    else Throw (Error "EACCES") w.
Proof. reflexivity. Qed.

(** When the embeddings are obtained, [addDocuments] appends the batch to
    the index in memory, text by text in the order given, and then writes
    the snapshot.  When that write fails the call throws although the index
    in memory already holds the batch: memory and disk are then out of
    step. *)
Theorem addDocuments_appends_then_saves docs w embs w1 :
  generateEmbeddings (map doc_text docs) w = Ok embs w1 ->
  let out := addDocuments docs w in
  let v' := vectors (state_of out) in
  documents v' = documents (vectors w) ++ map doc_text docs
  /\ metadata v' = metadata (vectors w) ++ map (fun d => default ∅ (doc_metadata d)) docs
  /\ value_of (getDocumentCount (state_of out))
     = Some (length (documents (vectors w)) + length docs)%nat
  /\ (diskWritable w = true ->
        out = Ok tt (state_of out)
        /\ exists snapshot,
             disk (state_of out) = Some snapshot
             /\ snap_documents snapshot = Some (documents v')
             /\ snap_embeddings snapshot = Some (embeddings v')
             /\ snap_metadata snapshot = Some (metadata v'))
  /\ (diskWritable w = false ->
        value_of out = None /\ disk (state_of out) = disk w).
Proof.
  intros Hok out v'. subst v' out.
  destruct (addDocuments_commits docs w embs w1 Hok) as (Hd & He & Hm).
  split; [exact Hd|]. split; [exact Hm|]. split.
  { unfold RAGService.getDocumentCount, VectorStore.getDocumentCount, gets.
    cbn [value_of].
    now rewrite Hd, length_app, length_map. }
  clear Hd He Hm.
  destruct (generateEmbeddings_state (map doc_text docs) w) as [n Hn].
  rewrite Hok in Hn. simpl in Hn. subst w1.
  unfold addDocuments, bind. rewrite Hok.
  unfold on_vectors, modify. rewrite save_outcome.
  cbn [diskWritable with_vectors with_serial].
  split; intros Hdisk; rewrite Hdisk.
  - split; [reflexivity|]. eexists. split; [reflexivity|].
    cbn. auto.
  - split; reflexivity.
Qed.

(** [clear] empties the index in memory whether or not the snapshot can be
    written: the count is zero and [search] returns the empty array without
    asking for an embedding.  When the snapshot is written it holds three
    empty arrays. *)
Theorem clear_empties_the_index query k w :
  let out := clear w in
  let w' := state_of out in
  value_of (getDocumentCount w') = Some 0%nat
  /\ search query k w' = Ok [] w'
  /\ (diskWritable w = true ->
        out = Ok tt w'
        /\ exists snapshot,
             disk w' = Some snapshot
             /\ snap_documents snapshot = Some []
             /\ snap_embeddings snapshot = Some []
             /\ snap_metadata snapshot = Some [])
  /\ (diskWritable w = false -> value_of out = None /\ disk w' = disk w).
Proof.
  intros out w'. subst w' out.
  unfold clear, bind, on_vectors, modify. rewrite save_outcome.
  cbn [diskWritable with_vectors].
  destruct (diskWritable w); cbn [state_of].
  - split; [reflexivity|]. split; [now apply search_empty|].
    split; [|discriminate]. intros _. split; [reflexivity|].
    eexists. split; [reflexivity|]. cbn. auto.
  - split; [reflexivity|]. split; [now apply search_empty|].
    split; [discriminate|]. intros _. split; reflexivity.
Qed.

(** [JSON] keeps a finite number: what is read back is equal to it
    ([===]), and is the very same number unless it was a zero. *)
Lemma reread_finite x :
  is_finite x = true ->
  (reread_number x =? x)%float = true
  /\ ((x =? 0)%float = false -> reread_number x = x).
Proof.
  intros Hfin. unfold reread_number. rewrite Hfin.
  destruct (x =? 0)%float eqn:Hz; cbn [negb andb].
  - split; [|discriminate].
    apply SF_is_zero in Hz as [s Hz].
    rewrite FloatAxioms.eqb_spec, Prim2SF_zero, Hz. now destruct s.
  - split; [|reflexivity].
    rewrite FloatAxioms.eqb_spec.
    apply SF_is_finite in Hfin as [[s ->]|(s & m & e & ->)]; [now destruct s|].
    unfold SFeqb. cbn [SFcompare].
    destruct s; rewrite Z.compare_refl, ?Pos.compare_cont_refl, ?Pos.compare_refl;
      reflexivity.
Qed.

(** A process that starts on the snapshot [save] wrote gets the index back
    the first time it serves a request: as many entries in each of the
    three arrays, every text and every metadata object as it was saved, and
    of every embedding each finite component, equal ([===]) to the one
    saved and the very same number unless that was a zero (-0 comes back as
    0).  With no readable snapshot it starts from what it has and reports no
    error. *)
Theorem restart_restores_the_index w w' fresh :
  save w = Ok tt w' ->
  isInitialized fresh = false ->
  (disk fresh = disk w' ->
     let v := vectors w in
     let v' := vectors (initialized fresh) in
     ensure_initialized fresh = Ok tt (initialized fresh)
     /\ isInitialized (initialized fresh) = true
     /\ length (documents v') = length (documents v)
     /\ length (embeddings v') = length (embeddings v)
     /\ metadata v' = metadata v
     /\ (forall i t, documents v !! i = Some (Some t) -> documents v' !! i = Some (Some t))
     /\ (forall i e, embeddings v !! i = Some (Some e) ->
           exists e',
             embeddings v' !! i = Some (Some e')
             /\ length e' = length e
             /\ forall j x, e !! j = Some x -> is_finite x = true ->
                  exists y, e' !! j = Some y
                            /\ (y =? x)%float = true
                            /\ ((x =? 0)%float = false -> y = x)))
  /\ (disk fresh = None ->
        ensure_initialized fresh = Ok tt (initialized fresh)
        /\ documents (vectors (initialized fresh)) = documents (vectors fresh)
        /\ embeddings (vectors (initialized fresh)) = embeddings (vectors fresh)
        /\ metadata (vectors (initialized fresh)) = metadata (vectors fresh)
        /\ isInitialized (initialized fresh) = true).
Proof.
  intros Hsave Hfresh.
  rewrite save_outcome in Hsave.
  destruct (diskWritable w); [|discriminate].
  injection Hsave as <-. cbn [disk with_disk].
  destruct (ensure_initialized_ok fresh) as (Hinit & _).
  split; intros Hdisk.
  - assert (Hv : vectors (initialized fresh)
                 = {| documents := documents (vectors w);
                      embeddings := map (option_map (map reread_number))
                                      (embeddings (vectors w));
                      metadata := metadata (vectors w);
                      isLoaded := true |}).
    { unfold initialized, ensure_initialized, bind, gets. rewrite Hfresh.
      unfold RAGService.initialize, VectorStore.initialize, bind, try_catch, load,
             on_vectors, modify.
      rewrite Hdisk. reflexivity. }
    assert (Hi : isInitialized (initialized fresh) = true).
    { unfold initialized, ensure_initialized, bind, gets. rewrite Hfresh.
      unfold RAGService.initialize, VectorStore.initialize, bind, try_catch, load,
             on_vectors, modify.
      rewrite Hdisk. reflexivity. }
    cbv zeta. rewrite Hv. cbn [documents embeddings metadata].
    split; [exact Hinit|]. split; [exact Hi|]. split; [reflexivity|].
    split; [apply length_map|]. split; [reflexivity|]. split; [auto|].
    intros i e He. exists (map reread_number e).
    split; [|split; [apply length_map|]].
    + change (map (option_map (map reread_number)) (embeddings (vectors w)))
        with (option_map (map reread_number) <$> embeddings (vectors w)).
      rewrite list_lookup_fmap, He. reflexivity.
    + intros j x Hj Hfin. exists (reread_number x). split.
      * change (map reread_number e) with (reread_number <$> e).
        rewrite list_lookup_fmap, Hj. reflexivity.
      * now apply reread_finite.
  - split; [exact Hinit|].
    unfold initialized, ensure_initialized, bind, gets; rewrite Hfresh;
    unfold RAGService.initialize, VectorStore.initialize, bind, try_catch, load,
           on_vectors, modify; rewrite Hdisk; cbn; auto.
Qed.

(** [generateEmbeddings] on texts never throws: the vectors are those of
    the Jina service when a key is configured and the request succeeds,
    and the local ones otherwise, one per text in both cases under the
    service's contract.  Nothing but the count of requests changes. *)
Theorem generateEmbeddings_falls_back_to_local (texts : list string) w :
  embedding_contract ->
  exists embs n,
    generateEmbeddings (map Some texts) w = Ok embs (with_serial n w)
    /\ length embs = length texts
    /\ Forall is_Some embs
    /\ ((has_api_key = false \/ jinaPost (serial w) (map Some texts) = None) ->
          embs = map (fun t => Some (localEmbedding t)) texts)
    /\ (has_api_key = true ->
          forall vs, jinaPost (serial w) (map Some texts) = Some vs -> embs = vs).
Proof.
  intros Hc. unfold generateEmbeddings, try_catch.
  assert (Hlocal : length (map (fun t => Some (localEmbedding t)) texts) = length texts
                   /\ Forall is_Some (map (fun t => Some (localEmbedding t)) texts)).
  { split; [apply length_map|]. apply Forall_map, Forall_forall. intros t _. now eexists. }
  destruct Hlocal as [Hlen Hall].
  destruct has_api_key eqn:Hkey.
  - unfold _jinaEmbed, bind, next_serial.
    destruct (jinaPost (serial w) (map Some texts)) as [vs|] eqn:E.
    + destruct (Hc _ _ _ E) as [Hl Hs]. rewrite length_map in Hl.
      exists vs, (S (serial w)). split; [reflexivity|]. split; [exact Hl|].
      split; [exact Hs|]. split.
      * intros [?|?]; discriminate.
      * intros _ vs' [= <-]. reflexivity.
    + unfold throw. rewrite localEmbed_strings.
      eexists. exists (S (serial w)). split; [reflexivity|]. split; [exact Hlen|].
      split; [exact Hall|]. split; [reflexivity|]. intros _ vs' [=].
  - rewrite localEmbed_strings.
    eexists. exists (serial w). split; [now destruct w|]. split; [exact Hlen|].
    split; [exact Hall|]. split; [reflexivity|]. discriminate.
Qed.

End IndexLife.

(** ** Cosine similarity: symmetry, vectors of different lengths *)

Lemma SFmul_comm prec emax x y : SFmul prec emax x y = SFmul prec emax y x.
Proof.
  destruct x as [sx|sx| |sx mx ex], y as [sy|sy| |sy my ey]; simpl;
    try reflexivity; try (now rewrite xorb_comm).
  now rewrite xorb_comm, Pos.mul_comm, Z.add_comm.
Qed.

Lemma float_mul_comm x y : (x * y = y * x)%float.
Proof. apply Prim2SF_inj. rewrite !mul_spec. apply SFmul_comm. Qed.

Lemma dot_comm_from a : forall b acc,
  fold_left (fun acc xy => (acc + fst xy * snd xy)%float) (combine a b) acc
  = fold_left (fun acc xy => (acc + fst xy * snd xy)%float) (combine b a) acc.
Proof.
  induction a as [|x a IH]; intros [|y b] acc; try reflexivity.
  simpl. rewrite (float_mul_comm x y). apply IH.
Qed.

(** The similarity of two vectors of one length does not depend on their
    order. *)
Theorem cosineSimilarity_symmetric a b :
  length a = length b -> cosineSimilarity a b = cosineSimilarity b a.
Proof.
  intros Hlen.
  rewrite (cosineSimilarity_unfold a b Hlen), (cosineSimilarity_unfold b a (eq_sym Hlen)).
  unfold dot. rewrite (dot_comm_from a b), (float_mul_comm (norm a) (norm b)). reflexivity.
Qed.

(** NaN is absorbing. *)
Lemma add_nan_l x : (nan + x = nan)%float.
Proof. apply Prim2SF_inj. rewrite add_spec. reflexivity. Qed.

Lemma add_nan_r x : (x + nan = nan)%float.
Proof. apply Prim2SF_inj. rewrite add_spec. now destruct (Prim2SF x). Qed.

Lemma mul_nan_r x : (x * nan = nan)%float.
Proof. apply Prim2SF_inj. rewrite mul_spec. now destruct (Prim2SF x). Qed.

Lemma fold_left_agree {A B} (f g : A -> B -> A) l :
  (forall acc i, i ∈ l -> f acc i = g acc i) ->
  forall acc, fold_left f l acc = fold_left g l acc.
Proof.
  induction l as [|i l IH]; intros Hfg acc; [reflexivity|].
  simpl. rewrite (Hfg acc i) by (apply elem_of_cons; now left).
  apply IH. intros acc' j Hj. apply Hfg. apply elem_of_cons. now right.
Qed.

Lemma nth_take {A} (l : list A) n i d : (i < n)%nat -> nth i (take n l) d = nth i l d.
Proof.
  revert n i. induction l as [|x l IH]; intros [|n] [|i] Hi; try reflexivity; try lia.
  simpl. apply IH. lia.
Qed.

(** Once the dot product and the second sum of squares are NaN they stay
    NaN. *)
Lemma cosine_step_nan a b i na :
  exists na', cosine_step a b (nan, na, nan) i = (nan, na', nan).
Proof.
  unfold cosine_step. eexists. now rewrite !add_nan_l.
Qed.

Lemma cosine_loop_nan a b l : forall na,
  exists na', fold_left (cosine_step a b) l (nan, na, nan) = (nan, na', nan).
Proof.
  induction l as [|i l IH]; intros na; [now exists na|].
  cbn [fold_left]. destruct (cosine_step_nan a b i na) as [na' ->]. apply IH.
Qed.

(** The loop runs over the indices of the first vector and reads the second
    at each.  Components of the second vector beyond the length of the
    first are never read; when the second vector is the shorter one, a
    missing component reads as [undefined], and the result is NaN. *)
Theorem cosineSimilarity_on_unequal_lengths a b :
  ((length a <= length b)%nat ->
     cosineSimilarity a b = cosineSimilarity a (take (length a) b))
  /\ ((length b < length a)%nat -> cosineSimilarity a b = nan).
Proof.
  split; intros Hlen.
  - unfold cosineSimilarity, cosine_loop.
    rewrite (fold_left_agree (cosine_step a b) (cosine_step a (take (length a) b)));
      [reflexivity|].
    intros [[d na] nb] i Hi. apply elem_of_seq in Hi.
    unfold cosine_step. rewrite nth_take by lia. reflexivity.
  - unfold cosineSimilarity, cosine_loop.
    replace (length a) with (length b + S (length a - length b - 1))%nat by lia.
    rewrite seq_app, fold_left_app. cbn [seq fold_left].
    destruct (fold_left (cosine_step a b) (seq 0 (length b)) (0%float, 0%float, 0%float))
      as [[d na] nb].
    assert (Hstep : exists na', cosine_step a b (d, na, nb) (0 + length b) = (nan, na', nan)).
    { unfold cosine_step. rewrite (nth_overflow b) by lia.
      eexists. now rewrite !mul_nan_r, !add_nan_r. }
    destruct Hstep as [na' ->].
    destruct (cosine_loop_nan a b (seq (S (0 + length b)) (length a - length b - 1)) na')
      as [na'' ->].
    apply Prim2SF_inj. 
    assert (Hden : (PrimFloat.sqrt na'' * PrimFloat.sqrt nan)%float = nan).
    { change (PrimFloat.sqrt nan) with nan. apply mul_nan_r. }
    rewrite Hden. reflexivity.
Qed.

(** ** The local embedding *)


Lemma toInt32_shift a : exists q, LE.toInt32 a = a + q * 4294967296.
Proof.
  unfold LE.toInt32. exists (- ((a + 2147483648) / 4294967296)).
  pose proof (Z_div_mod_eq_full (a + 2147483648) 4294967296). lia.
Qed.

Lemma toInt32_congr a b q : a = b + q * 4294967296 -> LE.toInt32 a = LE.toInt32 b.
Proof.
  intros ->. unfold LE.toInt32.
  replace (b + q * 4294967296 + 2147483648) with (b + 2147483648 + q * 4294967296) by lia.
  now rewrite Z_mod_plus_full.
Qed.

Lemma toInt32_range a : -2147483648 <= LE.toInt32 a < 2147483648.
Proof.
  unfold LE.toInt32.
  pose proof (Z.mod_pos_bound (a + 2147483648) 4294967296 eq_refl). lia.
Qed.

Lemma toInt32_small a : -2147483648 <= a < 2147483648 -> LE.toInt32 a = a.
Proof.
  intros Ha. unfold LE.toInt32. rewrite Z.mod_small by lia. lia.
Qed.

(** One turn of the loop of [_simpleHash] multiplies by 31 and adds the code
    unit, modulo 2^32. *)
Lemma hash_step_congr h H0 c :
  h = LE.toInt32 H0 ->
  LE.and (LE.shl h 5 - h + c) (LE.shl h 5 - h + c) = LE.toInt32 (31 * H0 + c).
Proof.
  intros Hh. unfold LE.and. rewrite Z.land_diag.
  rewrite (toInt32_small (LE.toInt32 _)) by apply toInt32_range.
  unfold LE.shl. change (5 mod 32) with 5. rewrite Z.shiftl_mul_pow2 by lia.
  change (2 ^ 5) with 32.
  destruct (toInt32_shift h) as [q1 E1].
  destruct (toInt32_shift (LE.toInt32 h * 32)) as [q2 E2].
  destruct (toInt32_shift H0) as [q3 E3].
  apply (toInt32_congr _ _ (31 * q3 + 32 * q1 + q2)). lia.
Qed.

Lemma simpleHash_from cs : forall h H0,
  h = LE.toInt32 H0 ->
  fold_left (fun hash c => LE.and (LE.shl hash 5 - hash + LE.code c)
                                  (LE.shl hash 5 - hash + LE.code c)) cs h
  = LE.toInt32 (fold_left (fun acc c => 31 * acc + LE.code c) cs H0).
Proof.
  induction cs as [|c cs IH]; intros h H0 Hh; [exact Hh|].
  cbn [fold_left]. apply IH. now apply hash_step_congr.
Qed.

(** [_simpleHash] is the polynomial hash with multiplier 31 of the code
    units, reduced to a signed 32-bit integer: the wrap-arounds of the
    intermediate steps do not show in the result. *)
Theorem simpleHash_is_polynomial str :
  LE._simpleHash str
  = LE.toInt32 (fold_left (fun acc c => 31 * acc + LE.code c) (list_ascii_of_string str) 0)
  /\ -2147483648 <= LE._simpleHash str < 2147483648.
Proof.
  assert (E : LE._simpleHash str
              = LE.toInt32 (fold_left (fun acc c => 31 * acc + LE.code c)
                              (list_ascii_of_string str) 0)).
  { unfold LE._simpleHash. now apply simpleHash_from. }
  split; [exact E|]. rewrite E. apply toInt32_range.
Qed.

Lemma add_at_full (e : list float) i x :
  i < Z.of_nat (length e) ->
  exists e', LE.add_at (map Some e) i x = map Some e' /\ length e' = length e.
Proof.
  intros Hi. unfold LE.add_at.
  destruct (Z.ltb_spec i 0); [now exists e|].
  rewrite list_lookup_fmap.
  destruct (lookup_lt_is_Some_2 e (Z.to_nat i)) as [v Hv]; [lia|].
  rewrite Hv. cbn [fmap option_fmap option_map].
  exists (<[Z.to_nat i := (v + x)%float]> e). split.
  - now rewrite list_fmap_insert.
  - apply length_insert.
Qed.

Lemma embed_word_full count (e : list float) entry :
  length e = LE.DIMENSION ->
  exists e', LE.embed_word count (map Some e) entry = map Some e'
             /\ length e' = LE.DIMENSION.
Proof.
  intros Hlen. destruct entry as [idx word]. unfold LE.embed_word.
  assert (Hpos : Z.rem (Z.abs (LE._simpleHash word)) (Z.of_nat LE.DIMENSION)
                 < Z.of_nat (length e)).
  { rewrite Hlen. apply Z.rem_bound_pos; [lia | unfold LE.DIMENSION; lia]. }
  destruct (add_at_full e _ (1 / PrimFloat.sqrt (LE.of_length count))%float Hpos)
    as (e1 & -> & Hlen1).
  assert (Hpos2 : Z.rem (LE._simpleHash word + Z.of_nat idx) (Z.of_nat LE.DIMENSION)
                  < Z.of_nat (length e1)).
  { rewrite Hlen1, Hlen.
    pose proof (Z.rem_bound_abs (LE._simpleHash word + Z.of_nat idx)
                  (Z.of_nat LE.DIMENSION)) as Hb.
    unfold LE.DIMENSION in *. lia. }
  destruct (add_at_full e1 _ (0.1 / PrimFloat.sqrt (LE.of_length count))%float Hpos2)
    as (e2 & -> & Hlen2).
  exists e2. split; [reflexivity|]. congruence.
Qed.

Lemma embed_words_full count entries : forall e : list float,
  length e = LE.DIMENSION ->
  exists e', fold_left (LE.embed_word count) entries (map Some e) = map Some e'
             /\ length e' = LE.DIMENSION.
Proof.
  induction entries as [|entry entries IH]; intros e Hlen; [now exists e|].
  cbn [fold_left].
  destruct (embed_word_full count e entry Hlen) as (e1 & -> & Hlen1).
  now apply IH.
Qed.

(** The local embedding of any text is an array of 384 numbers without a
    hole: every position written lies inside the array, but for the
    positional index of a word whose hash plus index is negative, which is
    no element and leaves the array as it is. *)
Theorem local_embedding_has_384_components text :
  exists e : embedding,
    LE.embed text = map Some e /\ length e = 384%nat.
Proof.
  unfold LE.embed.
  set (words := LE.split_spaces (LE.toLowerCase text)).
  destruct (embed_words_full (length words) (zip (seq 0 (length words)) words)
              (replicate LE.DIMENSION 0%float)) as (e & He & Hlen).
  { apply length_replicate. }
  change (replicate LE.DIMENSION (Some 0%float))
    with (map Some (replicate LE.DIMENSION 0%float)).
  rewrite He. 
  set (norm := PrimFloat.sqrt _).
  exists (map (fun val => if (0 <? norm)%float then (val / norm)%float else 0%float) e).
  split.
  - rewrite <- !list_fmap_compose. reflexivity.
  - now rewrite length_map.
Qed.

(** ** Chunking *)


Lemma last_index_bounds c cs : forall i found,
  found < i ->
  found <= IN.last_index c cs i found < i + Z.of_nat (length cs)
  \/ (cs = [] /\ IN.last_index c cs i found = found).
Proof.
  induction cs as [|x cs IH]; intros i found Hlt; [now right|].
  left. cbn [IN.last_index length].
  destruct (Ascii.eqb x c).
  - destruct (IH (i + 1) i) as [Hb|[_ Hb]]; lia.
  - destruct (IH (i + 1) found) as [Hb|[_ Hb]]; lia.
Qed.

(** [lastIndexOf] answers -1 or a position at or before the one given. *)
Lemma lastIndexOf_bounds c cs position :
  -1 <= IN.lastIndexOf c cs position <= Z.max position 0.
Proof.
  unfold IN.lastIndexOf.
  destruct (Z.eqb_spec (Z.of_nat (length cs)) 0) as [E|E]; [lia|].
  set (from := Z.min (Z.max position 0) (Z.of_nat (length cs) - 1)).
  destruct (last_index_bounds c (take (Z.to_nat (from + 1)) cs) 0 (-1)) as [Hb|[_ ->]];
    [lia| |lia].
  rewrite length_take in Hb. subst from. lia.
Qed.

Lemma strip_spaces_length cs : (length (IN.strip_spaces cs) <= length cs)%nat.
Proof.
  induction cs as [|c cs IH]; [reflexivity|].
  cbn [IN.strip_spaces]. destruct (LE.is_space c); cbn [length]; lia.
Qed.

Lemma trim_length cs : (length (IN.trim cs) <= length cs)%nat.
Proof.
  unfold IN.trim. rewrite length_rev.
  etransitivity; [apply strip_spaces_length|]. rewrite length_rev.
  apply strip_spaces_length.
Qed.

Lemma length_string_of_list cs : String.length (string_of_list_ascii cs) = length cs.
Proof. induction cs as [|c cs IH]; [reflexivity|]. simpl. now rewrite IH. Qed.

Lemma length_list_of_string s : length (list_ascii_of_string s) = String.length s.
Proof. induction s as [|c s IH]; [reflexivity|]. simpl. now rewrite IH. Qed.

Lemma slice_length {A} (l : list A) a b :
  0 <= a -> 0 <= b ->
  Z.of_nat (length (slice l a b)) <= Z.max (b - a) 0
  /\ (length (slice l a b) <= length l)%nat.
Proof.
  intros Ha Hb. unfold slice, rel_index.
  destruct (Z.ltb_spec a 0), (Z.ltb_spec b 0); try lia.
  rewrite length_take, length_drop. lia.
Qed.

Section Chunks.
Variables (text : list ascii) (chunkSize overlap : Z).
Hypothesis overlap_nonneg : 0 <= overlap.
Hypothesis overlap_small : 2 * overlap <= chunkSize.
Hypothesis chunkSize_pos : 0 < chunkSize.

Let len := Z.of_nat (length text).
Let bounded (chunk : string) : Prop :=
  Z.of_nat (String.length chunk) <= chunkSize + 1
  /\ (String.length chunk <= length text)%nat.

(** With an overlap of at most half the chunk size every turn of the loop
    moves [start] forward, so the loop ends within as many turns as the
    text has characters, and the chunks it has pushed are bounded. *)
Lemma chunk_loop_ends fuel : forall start chunks,
  0 <= start -> Z.max (len - start) 0 < Z.of_nat fuel -> Forall bounded chunks ->
  exists chunks',
    IN.chunk_loop fuel text chunkSize overlap start chunks = Some chunks'
    /\ Forall bounded chunks'.
Proof.
  induction fuel as [|fuel IH]; intros start chunks Hstart Hfuel Hall; [lia|].
  cbn [IN.chunk_loop]. fold len.
  destruct (Z.ltb_spec start len) as [Hin|Hout]; [|now exists chunks].
  set (end_ := if start + chunkSize <? len
               then if 2 * start + chunkSize <? 2 * IN.lastIndexOf "." text (start + chunkSize)
                    then IN.lastIndexOf "." text (start + chunkSize) + 1
                    else start + chunkSize
               else start + chunkSize).
  assert (Hend : start + overlap < end_ <= start + chunkSize + 1).
  { subst end_. pose proof (lastIndexOf_bounds "." text (start + chunkSize)) as Hb.
    destruct (start + chunkSize <? len); [|lia].
    destruct (Z.ltb_spec (2 * start + chunkSize)
                (2 * IN.lastIndexOf "." text (start + chunkSize))); lia. }
  apply IH; [lia | lia |].
  apply Forall_app. split; [exact Hall|]. constructor; [|constructor].
  unfold bounded. rewrite length_string_of_list.
  pose proof (trim_length (slice text start end_)) as Ht.
  destruct (slice_length text start end_) as [Hs1 Hs2]; lia.
Qed.

(** More fuel does not change what the loop returns. *)
Lemma chunk_loop_more fuel : forall start chunks result,
  IN.chunk_loop fuel text chunkSize overlap start chunks = Some result ->
  forall extra,
    IN.chunk_loop (fuel + extra) text chunkSize overlap start chunks = Some result.
Proof.
  induction fuel as [|fuel IH]; intros start chunks result Hr extra; [discriminate|].
  cbn [IN.chunk_loop Nat.add] in *.
  destruct (start <? Z.of_nat (length text)); [|exact Hr].
  now apply IH.
Qed.

End Chunks.

(** What [chunkText] returns when the overlap is at most half the chunk
    size: the chunks the loop pushed, each no longer than the text and than
    the chunk size plus one, without the short ones. *)
Lemma chunkText_runs text chunkSize overlap :
  0 <= overlap -> 2 * overlap <= chunkSize -> 0 < chunkSize ->
  exists raw,
    (forall fuel, (String.length text < fuel)%nat ->
       IN.chunkText fuel text chunkSize overlap
       = Some (filter (fun chunk => IN.long_enough chunk = true) raw))
    /\ Forall (fun chunk => Z.of_nat (String.length chunk) <= chunkSize + 1
                            /\ (String.length chunk <= String.length text)%nat) raw.
Proof.
  intros Ho Hh Hc.
  set (cs := list_ascii_of_string text).
  assert (Hlen : length cs = String.length text) by apply length_list_of_string.
  destruct (chunk_loop_ends cs chunkSize overlap Ho Hh Hc (S (length cs)) 0 [])
    as (raw & Hraw & Hall); [lia | lia | constructor |].
  exists raw. split.
  - intros fuel Hfuel. unfold IN.chunkText. fold cs.
    replace fuel with (S (length cs) + (fuel - S (length cs)))%nat by lia.
    now rewrite (chunk_loop_more cs chunkSize overlap _ _ _ _ Hraw).
  - rewrite <- Hlen. exact Hall.
Qed.

(** For an overlap of at most half the chunk size (the configuration has
    100 and 500) [chunkText] ends on every text, within one turn per
    character; every chunk it returns has more than 20 characters and at
    most one more than the chunk size (the period a chunk ends on may be
    the character just past it); a text of 20 characters or fewer gives no
    chunk at all. *)
Theorem chunkText_ends_with_bounded_chunks text chunkSize overlap :
  0 <= overlap -> 2 * overlap <= chunkSize -> 0 < chunkSize ->
  exists chunks,
    (forall fuel, (String.length text < fuel)%nat ->
       IN.chunkText fuel text chunkSize overlap = Some chunks)
    /\ Forall (fun chunk => 20 < Z.of_nat (String.length chunk) <= chunkSize + 1) chunks
    /\ ((String.length text <= 20)%nat -> chunks = []).
Proof.
  intros Ho Hh Hc.
  destruct (chunkText_runs text chunkSize overlap Ho Hh Hc) as (raw & Hrun & Hall).
  exists (filter (fun chunk => IN.long_enough chunk = true) raw).
  split; [exact Hrun|]. rewrite Forall_forall in Hall. split.
  - apply Forall_forall. intros chunk Hin.
    apply list_elem_of_filter in Hin as [Hlong Hin].
    destruct (Hall chunk Hin) as [Hb _].
    unfold IN.long_enough in Hlong. apply Nat.ltb_lt in Hlong. lia.
  - intros Hshort.
    destruct (filter (fun chunk => IN.long_enough chunk = true) raw) as [|chunk rest] eqn:E;
      [reflexivity|].
    assert (Hin : chunk ∈ filter (fun chunk => IN.long_enough chunk = true) raw)
      by (rewrite E; apply elem_of_cons; now left).
    apply list_elem_of_filter in Hin as [Hlong Hin].
    destruct (Hall chunk Hin) as [_ Hb].
    unfold IN.long_enough in Hlong. apply Nat.ltb_lt in Hlong. lia.
Qed.

(** With an overlap larger than the chunk size [start] never moves forward:
    on a text that is not empty the loop does not end, whatever the number
    of turns it is given. *)
Theorem chunkText_never_ends_on_large_overlap text chunkSize overlap fuel :
  0 < chunkSize < overlap -> text <> ""%string ->
  IN.chunkText fuel text chunkSize overlap = None.
Proof.
  intros Hc Hne. unfold IN.chunkText.
  set (cs := list_ascii_of_string text).
  assert (Hlen : 0 < Z.of_nat (length cs)).
  { unfold cs. destruct text; [congruence|]. simpl. lia. }
  assert (Hloop : forall start chunks, start <= 0 ->
            IN.chunk_loop fuel cs chunkSize overlap start chunks = None).
  { induction fuel as [|fuel IH]; intros start chunks Hstart; [reflexivity|].
    cbn [IN.chunk_loop].
    destruct (Z.ltb_spec start (Z.of_nat (length cs))); [|lia].
    apply IH.
    pose proof (lastIndexOf_bounds "." cs (start + chunkSize)) as Hb.
    destruct (start + chunkSize <? Z.of_nat (length cs)); [|lia].
    destruct (Z.ltb_spec (2 * start + chunkSize)
                (2 * IN.lastIndexOf "." cs (start + chunkSize))); lia. }
  now rewrite Hloop.
Qed.

(** What the metadata of a chunk holds. *)
Lemma chunk_metadata_fields a i n :
  IN.chunk_metadata a i n !! "chunkIndex" = Some (JNum (Z.of_nat i))
  /\ IN.chunk_metadata a i n !! "totalChunks" = Some (JNum (Z.of_nat n))
  /\ IN.chunk_metadata a i n !! "title" = JStr <$> IN.title a
  /\ IN.chunk_metadata a i n !! "source" = JStr <$> IN.source a
  /\ IN.chunk_metadata a i n !! "pubDate" = JStr <$> IN.pubDate a
  /\ IN.chunk_metadata a i n !! "link" = JStr <$> IN.link a.
Proof.
  unfold IN.chunk_metadata, IN.with_field.
  destruct (IN.title a), (IN.source a), (IN.pubDate a), (IN.link a);
    repeat split; reflexivity.
Qed.

(** [processArticles] ends on every list of articles.  The documents come
    article by article; those of one article are the chunks that [chunkText]
    makes of its title, an empty line and its content, one document per
    chunk and in the order of the chunks, each chunk of more than 20 and at
    most 501 characters.  A document carries its chunk as text, the
    position of the chunk in [chunkIndex], counted from 0, the number of
    chunks of the article in [totalChunks], and the title, source, date and
    link of the article. *)
Theorem processArticles_numbers_the_chunks articles :
  exists fuel0 per_article,
    (forall fuel, (fuel0 <= fuel)%nat ->
       IN.processArticles fuel articles = Some (concat per_article))
    /\ Forall2 (fun a docs =>
         exists chunks,
           (forall fuel, (String.length (IN.fullText a) < fuel)%nat ->
              IN.chunkText fuel (IN.fullText a) IN.chunkSize IN.chunkOverlap
              = Some chunks)
           /\ length docs = length chunks
           /\ Forall (fun chunk => (20 < String.length chunk <= 501)%nat) chunks
           /\ forall i chunk, chunks !! i = Some chunk ->
                exists m,
                  docs !! i = Some {| doc_text := Some chunk; doc_metadata := Some m |}
                  /\ m !! "chunkIndex" = Some (JNum (Z.of_nat i))
                  /\ m !! "totalChunks" = Some (JNum (Z.of_nat (length chunks)))
                  /\ m !! "title" = JStr <$> IN.title a
                  /\ m !! "source" = JStr <$> IN.source a
                  /\ m !! "pubDate" = JStr <$> IN.pubDate a
                  /\ m !! "link" = JStr <$> IN.link a) articles per_article.
Proof.
  induction articles as [|a articles (fuel0 & per & Hrun & Hshape)].
  - exists 0%nat, []. split; [reflexivity | constructor].
  - destruct (chunkText_runs (IN.fullText a) IN.chunkSize IN.chunkOverlap)
      as (raw & Hc & Hraw); [unfold IN.chunkOverlap; lia | unfold IN.chunkOverlap, IN.chunkSize; lia | reflexivity |].
    set (chunks := filter (fun chunk => IN.long_enough chunk = true) raw) in *.
    set (docs := imap (fun i chunk =>
                         {| doc_text := Some chunk;
                            doc_metadata := Some (IN.chunk_metadata a i (length chunks)) |})
                      chunks).
    exists (Nat.max fuel0 (S (String.length (IN.fullText a)))), (docs :: per).
    split.
    + intros fuel Hfuel. cbn [IN.processArticles]. unfold IN.article_documents.
      rewrite Hc by lia. fold docs. rewrite Hrun by lia. reflexivity.
    + constructor; [|exact Hshape].
      exists chunks. split; [exact Hc|]. split; [apply length_imap|]. split.
      * apply Forall_forall. intros chunk Hi. unfold chunks in Hi.
        apply list_elem_of_filter in Hi as [Hlong Hi].
        rewrite Forall_forall in Hraw. destruct (Hraw chunk Hi) as [Hlen _].
        unfold IN.long_enough in Hlong. apply Nat.ltb_lt in Hlong.
        unfold IN.chunkSize in Hlen. lia.
      * intros i chunk Hi.
        exists (IN.chunk_metadata a i (length chunks)). split.
        -- unfold docs. rewrite list_lookup_imap, Hi. reflexivity.
        -- apply chunk_metadata_fields.
Qed.

(** ** Ingestion *)

Lemma slice_batch {A} (l : list A) (i n : nat) :
  (i <= length l)%nat ->
  slice l (Z.of_nat i) (Z.of_nat (i + n)) = take n (drop i l).
Proof.
  intros Hi. unfold slice, rel_index.
  destruct (Z.ltb_spec (Z.of_nat i) 0), (Z.ltb_spec (Z.of_nat (i + n)) 0); try lia.
  replace (Z.to_nat (Z.min (Z.of_nat i) (Z.of_nat (length l)))) with i by lia.
  destruct (Nat.le_gt_cases (i + n) (length l)).
  - f_equal. lia.
  - rewrite !take_ge; [reflexivity | rewrite length_drop; lia | rewrite length_drop; lia].
Qed.

Section Ingestion.
Context `{Env}.
Hypothesis contract : embedding_contract.

(** [generateEmbeddings] on texts returns one vector per text. *)
Lemma generateEmbeddings_texts texts w :
  Forall is_Some texts ->
  exists embs n,
    generateEmbeddings texts w = Ok embs (with_serial n w)
    /\ length embs = length texts /\ Forall is_Some embs.
Proof.
  intros Hall. destruct (all_defined texts Hall) as [ts ->].
  destruct (generateEmbeddings_state (map Some ts) w) as [n Hn].
  destruct (generateEmbeddings (map Some ts) w) as [embs w1|e w1] eqn:E.
  - simpl in Hn. subst w1. exists embs, n. split; [reflexivity|].
    apply (generateEmbeddings_result _ _ _ _ contract E).
  - exfalso. revert E. unfold generateEmbeddings, try_catch.
    destruct has_api_key.
    + unfold _jinaEmbed, bind, next_serial.
      destruct (jinaPost (serial w) (map Some ts)); [discriminate|].
      unfold throw. now rewrite localEmbed_strings.
    + now rewrite localEmbed_strings.
Qed.

(** The snapshot on disk holds the index in memory. *)
Let saved (w : World) : Prop :=
  exists snapshot,
    disk w = Some snapshot
    /\ snap_documents snapshot = Some (documents (vectors w))
    /\ snap_embeddings snapshot = Some (embeddings (vectors w))
    /\ snap_metadata snapshot = Some (metadata (vectors w)).

(** A batch of documents that have a text, on a disk that can be written:
    [addDocuments] succeeds and the batch is in the index and on disk. *)
Lemma addDocuments_ok docs w :
  diskWritable w = true ->
  Forall (fun d => is_Some (doc_text d)) docs ->
  well_formed (vectors w) ->
  exists w',
    addDocuments docs w = Ok tt w'
    /\ documents (vectors w') = documents (vectors w) ++ map doc_text docs
    /\ metadata (vectors w')
       = metadata (vectors w) ++ map (fun d => default ∅ (doc_metadata d)) docs
    /\ well_formed (vectors w')
    /\ diskWritable w' = true
    /\ saved w'.
Proof.
  intros Hdisk Htexts Hwf.
  destruct (generateEmbeddings_texts (map doc_text docs) w) as (embs & n & Hg & _);
    [now apply Forall_map|].
  pose proof (addDocuments_commits docs w embs _ Hg) as (Hd & _ & Hm).
  pose proof (addDocuments_well_formed docs w contract Hwf) as Hwf'.
  revert Hd Hm Hwf'. unfold addDocuments, bind. rewrite Hg.
  unfold on_vectors, modify, save.
  cbn [diskWritable with_vectors with_serial]. rewrite Hdisk.
  cbn [state_of]. intros Hd Hm Hwf'.
  eexists. split; [reflexivity|]. split; [exact Hd|]. split; [exact Hm|].
  split; [exact Hwf'|]. split; [exact Hdisk|].
  eexists. split; [reflexivity|]. cbn. auto.
Qed.

Lemma store_batches_ok docs :
  Forall (fun d => is_Some (doc_text d)) docs ->
  forall turns i w,
    (length docs <= i + 10 * turns)%nat ->
    diskWritable w = true -> well_formed (vectors w) -> saved w ->
    exists w',
      IN.store_batches turns 10 docs i w = Ok tt w'
      /\ documents (vectors w') = documents (vectors w) ++ map doc_text (drop i docs)
      /\ metadata (vectors w')
         = metadata (vectors w) ++ map (fun d => default ∅ (doc_metadata d)) (drop i docs)
      /\ well_formed (vectors w')
      /\ saved w'.
Proof.
  intros Htexts. induction turns as [|turns IH]; intros i w Hturns Hdisk Hwf Hsaved.
  - exists w. rewrite drop_ge by lia. cbn [map]. rewrite !app_nil_r.
    split; [reflexivity|]. split; [reflexivity|]. split; [reflexivity|].
    split; assumption.
  - cbn [IN.store_batches].
    destruct (Nat.ltb_spec i (length docs)) as [Hin|Hout].
    + rewrite slice_batch by lia. unfold bind.
      destruct (addDocuments_ok (take 10 (drop i docs)) w Hdisk) as
        (w1 & -> & Hd1 & Hm1 & Hwf1 & Hdisk1 & Hsaved1);
        [now apply Forall_take, Forall_drop | exact Hwf |].
      destruct (IH (i + 10)%nat w1) as (w2 & -> & Hd2 & Hm2 & Hwf2 & Hsaved2);
        [lia | exact Hdisk1 | exact Hwf1 | exact Hsaved1 |].
      exists w2. split; [reflexivity|].
      rewrite Hd2, Hd1, Hm2, Hm1, <- !app_assoc, <- !map_app.
      rewrite <- (drop_drop docs 10 i), !take_drop. auto.
    + exists w. rewrite drop_ge by lia. cbn [map]. rewrite !app_nil_r.
      split; [reflexivity|]. split; [reflexivity|]. split; [reflexivity|].
      split; assumption.
Qed.

(** Ingestion replaces the corpus: with documents that all have a text, an
    embedding service that honours its contract and a disk that can be
    written, the index holds exactly the documents given, in their order,
    with one embedding each, whatever it held before, and so does the
    snapshot on disk. *)
Theorem store_documents_replaces_the_corpus docs w :
  diskWritable w = true ->
  Forall (fun d => is_Some (doc_text d)) docs ->
  exists w',
    IN.store_documents docs w = Ok tt w'
    /\ documents (vectors w') = map doc_text docs
    /\ metadata (vectors w') = map (fun d => default ∅ (doc_metadata d)) docs
    /\ well_formed (vectors w')
    /\ exists snapshot,
         disk w' = Some snapshot
         /\ snap_documents snapshot = Some (map doc_text docs)
         /\ snap_embeddings snapshot = Some (embeddings (vectors w'))
         /\ snap_metadata snapshot = Some (map (fun d => default ∅ (doc_metadata d)) docs).
Proof.
  intros Hdisk Htexts.
  unfold IN.store_documents.
  assert (Hinit : exists w0, VectorStore.initialize w = Ok tt w0 /\ diskWritable w0 = true).
  { unfold VectorStore.initialize, try_catch, bind, load, on_vectors, modify.
    destruct (disk w); eexists; (split; [reflexivity | exact Hdisk]). }
  destruct Hinit as (w0 & Hinit & Hdisk0).
  unfold bind at 1. rewrite Hinit.
  unfold bind at 1. unfold clear, bind, on_vectors, modify, save.
  cbn [diskWritable with_vectors]. rewrite Hdisk0.
  set (w1 := with_disk _ _).
  destruct (store_batches_ok docs Htexts (length docs) 0 w1)
    as (w2 & Hrun & Hd & Hm & Hwf & snapshot & Hs & Hsd & Hse & Hsm).
  - lia.
  - exact Hdisk0.
  - repeat split; constructor.
  - eexists. split; [reflexivity|]. cbn. auto.
  - exists w2. split; [exact Hrun|].
    cbn [documents metadata vectors w1 with_disk with_vectors app] in Hd, Hm.
    rewrite drop_0 in Hd, Hm.
    split; [exact Hd|]. split; [exact Hm|]. split; [exact Hwf|].
    exists snapshot. rewrite <- Hd, <- Hm. auto.
Qed.

End Ingestion.

(** ** The callers: the chat route and the socket *)


Lemma on_world_ok {A} (c : M World A) w current a w' :
  c w = Ok a w' -> CL.on_world c (w, current) = Ok a (w', current).
Proof. intros E. unfold CL.on_world, zoom. cbn [fst snd]. now rewrite E. Qed.

Lemma session_history_keys_differ a b : session_key a <> history_key b.
Proof. unfold session_key, history_key. simpl. discriminate. Qed.

Section CallerProperties.
Context `{Env}.
Hypothesis codec : json_codec.
Hypothesis ttl_nonneg : 0 <= sessionTTL.



(** [join_session] with the id of a live session attaches the socket to
    it and sends its record with its last hundred messages, oldest first.
    With no id, or with the id of a session that is unknown or has
    expired, it creates a session, attaches the socket to the new id and
    sends the new record; the history sent is empty when nothing is left
    under the history key of the new id. *)
Theorem join_session_resumes_or_starts sessionId current w :
  (forall sid sd ms,
     sessionId = Some sid -> sid <> ""%string ->
     live_in (redis w) (now w) sid sd ->
     history_in (redis w) sid (map JSON_stringify ms) ->
     exists w',
       CL.join_session sessionId (w, current)
       = Ok (CL.session_joined sd (drop (length ms - 100) ms)) (w', Some sid))
  /\ (CL.blank sessionId = true
      \/ (exists sid, sessionId = Some sid
                      /\ (KV.store (redis w) !! session_key sid = None
                          \/ KV.expired (redis w) (session_key sid) (now w) = true)) ->
      let fresh := uuidv4 (serial w) in
      KV.store (redis w) !! history_key fresh = None ->
      exists sd w',
        CL.join_session sessionId (w, current)
        = Ok (CL.session_joined sd []) (w', Some fresh)
        /\ sd !! "id" = Some (JStr fresh)
        /\ sd !! "messageCount" = Some (JNum 0)
        /\ value_of (getSession fresh w') = Some (Some sd)).
Proof.
  split.
  - intros sid sd ms -> Hne Hl Hh.
    destruct (validateSession_live ttl_nonneg sid sd ms w Hl Hh) as (r1 & Hv & Hok).
    pose proof Hok as (Hl1 & _).
    destruct (getHistory_ok codec sid sd ms 100 (with_redis r1 w) Hok) as (r2 & Hg & _).
    unfold CL.join_session, try_catch, bind.
    assert (Hb : CL.blank (Some sid) = false).
    { cbn. now destruct (String.eqb_spec sid ""). }
    rewrite Hb. cbn [default].
    rewrite (on_world_ok _ _ _ _ _ Hv).
    rewrite (on_world_ok _ _ _ _ _ (getSession_live codec sid sd (with_redis r1 w) Hl1)).
    unfold CL.set_current, modify, ret, gets. cbn [fst snd default].
    rewrite (on_world_ok _ _ _ _ _ Hg).
    eexists. rewrite (slice_last ms 100) by lia. reflexivity.
  - intros Hnone fresh Hfresh.
    assert (Hstart : exists r0,
              (forall k, KV.store r0 !! history_key k = KV.store (redis w) !! history_key k)
              /\ forall A (k : option jsobject -> M CL.connection A),
                   (session <-
                      (if CL.blank sessionId then ret None
                       else
                         isValid <- CL.on_world (validateSession (default "" sessionId)) ;;
                         if isValid then
                           session <- CL.on_world (getSession (default "" sessionId)) ;;
                           CL.set_current (default "" sessionId) ;;; ret session
                         else ret None) ;; k session) (w, current)
                   = k None (with_redis r0 w, current)).
    { destruct (CL.blank sessionId) eqn:Hb.
      - exists (redis w). split; [reflexivity|]. intros A k. unfold bind, ret.
        now rewrite with_redis_same.
      - destruct Hnone as [?|(sid & -> & Hgone)]; [discriminate|].
        exists (KV._checkExpiry (session_key sid) (now w) (redis w)). split.
        + intros k.
          now destruct (checkExpiry_other (redis w) _ _ (now w)
                          (session_history_keys_differ sid k)).
        + intros A k. unfold bind. cbn [default].
          pose proof (validateSession_false sid w Hgone) as Hv.
          now rewrite (on_world_ok _ _ _ _ _ Hv). }
    destruct Hstart as (r0 & Hhist & Hstart).
    unfold CL.join_session, try_catch. rewrite Hstart.
    set (sd := <["messageCount" := JNum 0]>
                 (<["createdAt" := JStr (toISOString (now w))]> {["id" := JStr fresh]})
               : jsobject).
    set (r1 := {| KV.store := <[session_key fresh := KV.VStr (JSON_stringify sd)]> (KV.store r0);
                  KV.ttls := <[session_key fresh := now w + sessionTTL * 1000]> (KV.ttls r0) |}).
    set (w1 := with_redis r1 (with_serial (S (serial w)) (with_redis r0 w))).
    assert (Hc : createSession (with_redis r0 w) = Ok sd w1).
    { unfold createSession, bind, next_serial, gets.
      erewrite on_redis_ok by reflexivity. reflexivity. }
    assert (Hid : CL.id_of sd = fresh).
    { unfold CL.id_of, sd.
      rewrite lookup_insert_ne by discriminate. rewrite lookup_insert_ne by discriminate.
      now rewrite lookup_singleton_eq. }
    assert (Hh1 : KV.store r1 !! history_key fresh = None).
    { unfold r1. cbn [KV.store].
      rewrite lookup_insert_ne by apply session_history_keys_differ.
      rewrite Hhist. exact Hfresh. }
    assert (Hg : getHistory fresh 100 w1
                 = Ok [] (with_redis (KV._checkExpiry (history_key fresh) (now w) r1) w1)).
    { unfold getHistory, bind.
      redis_step (lrange_absent r1 _ (Z.opp 100) (-1) (now w) Hh1).
      reflexivity. }
    unfold bind. rewrite (on_world_ok _ _ _ _ _ Hc).
    unfold CL.set_current, modify, ret, gets. cbn [fst snd default]. rewrite Hid.
    rewrite (on_world_ok _ _ _ _ _ Hg).
    exists sd. eexists. split; [reflexivity|].
    split; [unfold sd; rewrite lookup_insert_ne by discriminate;
            rewrite lookup_insert_ne by discriminate; now rewrite lookup_singleton_eq|].
    split; [apply lookup_insert_eq|].
    rewrite (getSession_live codec fresh sd); [reflexivity|].
    destruct codec as [Hrt _].
    assert (Hne : history_key fresh <> session_key fresh).
    { intros E. symmetry in E. now apply session_history_keys_differ in E. }
    destruct (checkExpiry_other r1 _ _ (now w) Hne) as [Hst Hex].
    exists (JSON_stringify sd). cbn [redis now with_redis w1 with_serial].
    rewrite Hst, Hex. split; [apply lookup_insert_eq|]. split; [apply Hrt|].
    unfold KV.expired, r1. cbn [KV.ttls]. rewrite lookup_insert_eq.
    now apply refreshed_now.
Qed.

End CallerProperties.

(** ** The further properties at work *)

Lemma setex_then_get_witness :
  let st := state_of (KV.setex "k" 60 (KV.VStr "v") 1000 KV.empty) in
  value_of (KV.get "k" (1000 + 60000) st) = Some (Some (KV.VStr "v"))
  /\ value_of (KV.get "k" (1000 + 60001) st) = Some None.
Proof.
  destruct (setex_then_get KV.empty "k" 60 (KV.VStr "v") 1000 60000) as [Hlive _];
    [reflexivity | lia | lia | lia |].
  destruct (setex_then_get KV.empty "k" 60 (KV.VStr "v") 1000 60001) as [_ Hgone];
    [reflexivity | lia | lia | lia |].
  split; [apply Hlive; lia | apply Hgone; lia].
Defined.

Lemma lrange_is_inclusive_witness :
  let st := state_of (KV.rpush "k" ["a"; "b"; "c"; "d"]%string KV.empty) in
  value_of (KV.lrange "k" 1 (-2) 0 st) = Some (KV.VList ["b"; "c"]%string).
Proof.
  apply (lrange_is_inclusive _ "k" ["a"; "b"; "c"; "d"]%string 1 (-2) 0); reflexivity.
Defined.

Lemma push_then_lrange_witness :
  value_of (KV.lrange "k" 0 (-1) 0 (state_of (KV.rpush "k" ["b"; "c"]%string
                                       (state_of (KV.rpush "k" ["a"%string] KV.empty)))))
  = Some (KV.VList ["a"; "b"; "c"]%string).
Proof.
  apply (push_then_lrange (state_of (KV.rpush "k" ["a"%string] KV.empty)) "k"
           ["a"%string] ["b"; "c"]%string 0); reflexivity.
Defined.

Lemma createSession_starts_a_session_witness :
  exists sd w',
    createSession (H := Demo.env) Demo.blank = Ok sd w'
    /\ value_of (validateSession (H := Demo.env) "id-0" (later 86400000 w')) = Some true
    /\ value_of (validateSession (H := Demo.env) "id-0" (later 86400001 w')) = Some false.
Proof.
  destruct (createSession_starts_a_session (H := Demo.env) (demo_codec _ _) (demo_ttl _ _)
              Demo.blank) as (w' & Hc & Hlive & Hgone & _); [reflexivity|].
  eexists. exists w'. split; [exact Hc|]. split.
  - apply (Hlive 86400000). cbn. lia.
  - apply (Hgone 86400001). cbn. lia.
Defined.

Lemma validateSession_extends_life_witness :
  exists w',
    validateSession (H := Demo.env) Demo.session_id (later 86400000 Demo.world) = Ok true w'
    /\ value_of (getSession (H := Demo.env) Demo.session_id (later 86400000 w'))
       = Some (Some Demo.session_record).
Proof.
  destruct (validateSession_extends_life (H := Demo.env) (demo_codec _ _)
              Demo.session_id Demo.session_record (later 86400000 Demo.world))
    as (w' & Hv & _ & Hlive).
  - eexists. split; [vm_compute; reflexivity|]. split; vm_compute; reflexivity.
  - exists w'. split; [exact Hv|]. apply Hlive. cbn. lia.
Defined.

Lemma addMessage_counts_and_appends_witness :
  exists m sd' w',
    addMessage (H := Demo.env) Demo.session_id "user" "hello" Demo.world = Ok m w'
    /\ value_of (getSession (H := Demo.env) Demo.session_id w') = Some (Some sd')
    /\ sd' !! "messageCount" = Some (JNum 1)
    /\ value_of (getHistory (H := Demo.env) Demo.session_id 100 w') = Some [m].
Proof.
  destruct (addMessage_counts_and_appends (H := Demo.env) (demo_codec _ _) (demo_ttl _ _)
              Demo.session_id Demo.session_record [] "user" "hello" Demo.world)
    as (m & sd' & w' & Ha & _ & _ & Hs & Hc & _ & Hh).
  - demo.
  - demo.
  - reflexivity.
  - exists m, sd', w'. split; [exact Ha|]. split; [exact Hs|]. split; [exact Hc|].
    apply Hh. cbn. lia.
Defined.

Lemma addMessage_without_session_witness :
  exists m w',
    addMessage (H := Demo.env) "nobody" "user" "hello" Demo.world = Ok m w'
    /\ value_of (validateSession (H := Demo.env) "nobody" w') = Some false.
Proof.
  destruct (addMessage_without_session (H := Demo.env) "nobody" [] "user" "hello" Demo.world)
    as (w' & Ha & _ & _ & Hv); [reflexivity | reflexivity |].
  eexists. exists w'. split; [exact Ha | exact Hv].
Defined.

Lemma unknown_session_is_rejected_witness :
  exists w',
    processQuery (H := Demo.env) "nobody" "will it rain today" Demo.world
    = Throw (Error "Invalid or expired session") w'
    /\ generationCalls w' = [].
Proof.
  destruct (unknown_session_is_rejected (H := Demo.env) "nobody" "will it rain today"
              None Demo.world) as (w' & Hq & _ & _ & _ & Hg & _); [left; reflexivity|].
  exists w'. split; [exact Hq | exact Hg].
Defined.

Lemma processQuery_answers_witness :
  exists srcs w',
    processQuery (H := Demo.env_answering) Demo.session_id "will it rain today" Demo.world
    = Ok {| answer := "Hello"; sources := srcs |} w'
    /\ Z.of_nat (length srcs) <= 5.
Proof.
  destruct (processQuery_answers (H := Demo.env_answering)
              (demo_codec _ _) (demo_ttl _ _) (demo_contract _ _)
              Demo.session_id "will it rain today" Demo.session_record [] Demo.world)
    as (docs & w0 & a & srcs & w' & _ & (Ha & _) & Hp & Hlen & _).
  - demo.
  - demo.
  - demo.
  - demo.
  - demo.
  - intros n contents. now exists "Hello"%string.
  - exists srcs, w'. injection Ha as <-. split; [exact Hp | exact Hlen].
Defined.

Lemma addDocuments_appends_then_saves_witness :
  value_of (RAGService.getDocumentCount
              (state_of (addDocuments (H := Demo.env) Demo.chunks3 Demo.world)))
  = Some 6%nat.
Proof.
  destruct (addDocuments_appends_then_saves (H := Demo.env) Demo.chunks3 Demo.world
              (map (fun d => Some (localEmbedding (Env := Demo.env)
                                     (default ""%string (doc_text d)))) Demo.chunks3)
              Demo.world) as (_ & _ & Hcount & _); [reflexivity|].
  exact Hcount.
Defined.

Lemma restart_restores_the_index_witness :
  let restarted :=
    with_isInitialized false (with_vectors VectorStore.empty Demo.world) in
  documents (vectors (initialized restarted)) !! 0%nat
  = Some (Some "weather: rain is forecast for today"%string)
  /\ exists e', embeddings (vectors (initialized restarted)) !! 0%nat = Some (Some e')
                /\ length e' = 2%nat.
Proof.
  destruct (restart_restores_the_index (H := Demo.env) Demo.world
              (state_of (save (H := Demo.env) Demo.world))
              (with_isInitialized false (with_vectors VectorStore.empty Demo.world)))
    as [Hback _].
  - reflexivity.
  - reflexivity.
  - destruct Hback as (_ & _ & _ & _ & _ & Hdocs & Hembs); [reflexivity|].
    split; [now apply Hdocs|].
    destruct (Hembs 0%nat [1%float; 0%float] eq_refl) as (e' & He' & Hlen & _).
    exists e'. split; [exact He' | exact Hlen].
Defined.

Lemma generateEmbeddings_falls_back_to_local_witness :
  exists w',
    generateEmbeddings (H := Demo.env) [Some "weather"; Some "sports"]%string Demo.world
    = Ok [Some [1; 0]; Some [0; 1]]%float w'.
Proof.
  destruct (generateEmbeddings_falls_back_to_local (H := Demo.env)
              ["weather"; "sports"]%string Demo.world (demo_contract _ _))
    as (embs & n & Hg & _ & _ & Hlocal & _).
  rewrite Hlocal in Hg by (left; reflexivity).
  eexists. exact Hg.
Defined.

Lemma cosineSimilarity_symmetric_witness :
  cosineSimilarity [3; 4]%float [4; 3]%float = cosineSimilarity [4; 3]%float [3; 4]%float.
Proof. apply cosineSimilarity_symmetric. reflexivity. Defined.

Lemma chunkText_ends_with_bounded_chunks_witness :
  exists chunks,
    IN.chunkText 100 "Rain is forecast for today. Tomorrow will be dry and sunny again."
      IN.chunkSize IN.chunkOverlap = Some chunks
    /\ Forall (fun chunk => 20 < Z.of_nat (String.length chunk) <= 501) chunks.
Proof.
  destruct (chunkText_ends_with_bounded_chunks
              "Rain is forecast for today. Tomorrow will be dry and sunny again."
              IN.chunkSize IN.chunkOverlap) as (chunks & Hrun & Hall & _);
    [unfold IN.chunkOverlap; lia | unfold IN.chunkOverlap, IN.chunkSize; lia
     | unfold IN.chunkSize; lia |].
  exists chunks. split; [apply Hrun; cbn; lia | exact Hall].
Defined.

Lemma chunkText_never_ends_on_large_overlap_witness :
  IN.chunkText 1000 "Rain is forecast for today." 10 20 = None.
Proof. apply chunkText_never_ends_on_large_overlap; [lia | discriminate]. Defined.

Lemma store_documents_replaces_the_corpus_witness :
  exists w',
    IN.store_documents (H := Demo.env) (take 2 Demo.chunks3) Demo.world = Ok tt w'
    /\ documents (vectors w') = map doc_text (take 2 Demo.chunks3).
Proof.
  destruct (store_documents_replaces_the_corpus (H := Demo.env) (demo_contract _ _)
              (take 2 Demo.chunks3) Demo.world) as (w' & Hrun & Hd & _).
  - reflexivity.
  - repeat constructor; eexists; reflexivity.
  - exists w'. split; [exact Hrun | exact Hd].
Defined.

Lemma join_session_resumes_or_starts_witness :
  exists history w',
    CL.join_session (H := Demo.env) (Some Demo.session_id) (Demo.chatted, None)
    = Ok (CL.session_joined (counted (counted Demo.session_record)) history)
         (w', Some Demo.session_id)
    /\ length history = 2%nat.
Proof.
  destruct (join_session_resumes_or_starts (H := Demo.env) (demo_codec _ _) (demo_ttl _ _)
              (Some Demo.session_id) None Demo.chatted) as [Hresume _].
  destruct (Hresume Demo.session_id (counted (counted Demo.session_record))
              [message_of (H := Demo.env) 1 1000 "user" "hello";
               message_of (H := Demo.env) 2 1000 "assistant" "hi"])
    as (w' & Hj); [reflexivity | discriminate | apply demo_chatted_ok | apply demo_chatted_ok |].
  eexists. exists w'. split; [exact Hj | reflexivity].
Defined.
